(** * The Gaphor model coder ([gaphor/codegen/coder.py])

    A shallow embedding of the code generator for modeling languages and
    the properties of its class ordering, type resolution and emitters.

    Conventions of the embedding.
    - Python strings are [string]s, the bytes of the text in UTF-8; a
      value that may be [None] is an [option].  An f-string renders
      [None] as the text [None]; truthiness of an optional string is
      [truthy].
    - Model elements live in an element factory: a heap of classes and a
      heap of properties addressed by identifiers, so that two references
      to one element are two copies of one identifier.
    - References the source dereferences without a test follow its type
      annotations; references it tests are [option]s.  The one
      dereference that fails on a model the modeling language allows,
      [ownedEnd.class_] of an association that is no extension, fails
      here too: [bases] is a generator that may end with an
      [AttributeError].
    - Recursion over the model graph carries a depth bound [fuel]:
      [OutOfFuel] stands for recursion that exceeds every bound.
    - A generator is the list of the lines it yielded together with the
      way it ended ([Gen]); warnings written to the log are not part of
      the generated text and are left out. *)

From Stdlib Require Import Ascii.
From stdpp Require Import strings base option list gmap sets relations sorting.

Set Warnings "-register-all,-clear-no-such-hyp".

(** ** Outcomes: results, exceptions, generators *)

(** The exceptions the coder can end with; a [ValueError] carries the
    constant part of its message. *)
Inductive Exn :=
| ValueError (what : string)
| AttributeError
| TypeError
| IndexError.

Inductive Res (A : Type) :=
| Ok (a : A)
| Raise (e : Exn)
| OutOfFuel.
Arguments Ok {A} a.
Arguments Raise {A} e.
Arguments OutOfFuel {A}.

#[global] Instance res_ret : MRet Res := λ A a, Ok a.
#[global] Instance res_bind : MBind Res := λ A B f r,
  match r with
  | Ok a => f a
  | Raise e => Raise e
  | OutOfFuel => OutOfFuel
  end.

(** [any(f(x) for x in l)]: stops at the first [True], and at the first
    failure. *)
Fixpoint any_res {A} (f : A → Res bool) (l : list A) : Res bool :=
  match l with
  | [] => Ok false
  | x :: l' =>
      b ← f x ; if (b : bool) then Ok true else any_res f l'
  end.

(** [a or b] on outcomes: [b] is evaluated only when [a] is false. *)
Definition or_res (a : Res bool) (b : Res bool) : Res bool :=
  x ← a ; if (x : bool) then Ok true else b.

(** ** Strings *)

Definition dquote : string := String "034"%char EmptyString.

Definition fmt (o : option string) : string :=
  match o with
  | Some s => s
  | None => "None"
  end.

Definition truthy (o : option string) : bool :=
  match o with
  | Some (String _ _) => true
  | _ => false
  end.

Definition or_empty (o : option string) : string :=
  match o with
  | Some s => s
  | None => EmptyString
  end.

Definition startswith (s pre : string) : bool := String.prefix pre s.

Definition endswith (s suf : string) : bool :=
  (String.length suf <=? String.length s)%nat
  && String.eqb
       (String.substring (String.length s - String.length suf)
          (String.length suf) s) suf.

Definition opt_in (o : option string) (l : list (option string)) : bool :=
  bool_decide (o ∈ l).

(** [str.title()]: the first letter of every run of letters in upper
    case, the others in lower case. The letters are those of ASCII: the
    case mappings of Unicode are not described, so for a text with other
    letters this is not what Python returns. Nothing below depends on
    it but the examples, whose texts are in ASCII. *)
Definition is_upper (c : ascii) : bool :=
  let n := nat_of_ascii c in (65 <=? n)%nat && (n <=? 90)%nat.
Definition is_lower (c : ascii) : bool :=
  let n := nat_of_ascii c in (97 <=? n)%nat && (n <=? 122)%nat.
Definition to_upper (c : ascii) : ascii :=
  if is_lower c then ascii_of_nat (nat_of_ascii c - 32) else c.
Definition to_lower (c : ascii) : ascii :=
  if is_upper c then ascii_of_nat (nat_of_ascii c + 32) else c.

Fixpoint title_from (previous_is_cased : bool) (s : string) : string :=
  match s with
  | EmptyString => EmptyString
  | String c s' =>
      if is_upper c || is_lower c
      then String (if previous_is_cased then to_lower c else to_upper c)
             (title_from true s')
      else String c (title_from false s')
  end.
Definition title (s : string) : string := title_from false s.

(** [sorted(l, key=key)]: a stable sort on string keys. *)
Fixpoint insert_by {A} (key : A → string) (x : A) (l : list A) : list A :=
  match l with
  | [] => [x]
  | y :: l' =>
      if String.leb (key x) (key y) then x :: l
      else y :: insert_by key x l'
  end.
Definition sorted {A} (key : A → string) (l : list A) : list A :=
  foldr (insert_by key) [] l.

(** ** The data model *)

Definition ClassId := nat.
Definition PropId := nat.

Module Package.
Inductive t := mk {
  isProfile : bool;                 (* isinstance(p, UML.Profile) *)
  name : option string;
  owningPackage : option t }.
End Package.

Module Association.
Record t := mk {
  isExtension : bool;               (* isinstance(_, UML.Extension) *)
  ownedEnd_class_ : ClassId }.      (* ownedEnd.class_, of an extension *)
End Association.

Module Slot.
Record t := mk {
  definingFeature_name : option string;
  value : option string }.
End Slot.

Module Property.
Record t := mk {
  name : option string;
  typeValue : option string;
  type : option ClassId;
  isDerived : bool;
  defaultValue : option string;
  upper : option string;
  lowerValue : option string;
  upperValue : option string;
  aggregation : string;
  association : option Association.t;
  opposite : option PropId;
  owner : ClassId;
  class_ : option ClassId;
  slot : list Slot.t }.             (* appliedStereotype[:].slot *)
End Property.

Module Operation.
Record t := mk { name : option string }.
End Operation.

Module Class.
Record t := mk {
  name : option string;
  generalization : list ClassId;    (* g.general for g in generalization *)
  ownedAttribute : list PropId;
  ownedOperation : list Operation.t;
  appliedStereotypes : list (option string);
                                    (* names of get_applied_stereotypes *)
  owningPackage : option Package.t }.
End Class.

Module ElementFactory.
Record t := mk {
  select_Class : list ClassId;      (* select(UML.Class), in order *)
  select_Property : list PropId;    (* select(UML.Property), in order *)
  class_at : ClassId → Class.t;
  property_at : PropId → Property.t }.
End ElementFactory.

Abbreviation Model := ElementFactory.t.
Abbreviation cls := ElementFactory.class_at.
Abbreviation prop := ElementFactory.property_at.

(** ** Classification of classes and properties *)

Definition name_is_enumeration (n : option string) : bool :=
  truthy n && (endswith (or_empty n) "Kind" || endswith (or_empty n) "Sort").

Definition is_enumeration (m : Model) (c : option ClassId) : bool :=
  match c with
  | Some c => name_is_enumeration (Class.name (cls m c))
  | None => false
  end.

Definition is_tilde_type (m : Model) (c : ClassId) : bool :=
  truthy (Class.name (cls m c))
  && startswith (or_empty (Class.name (cls m c))) "~".

Fixpoint is_simple_type (fuel : nat) (m : Model) (c : ClassId) : Res bool :=
  match fuel with
  | 0 => OutOfFuel
  | S fuel' =>
      if existsb (λ s, bool_decide (s = Some "SimpleAttribute"))
           (Class.appliedStereotypes (cls m c))
      then Ok true
      else any_res (is_simple_type fuel' m) (Class.generalization (cls m c))
  end.

Definition is_extension_end (a : Property.t) : bool :=
  match Property.association a with
  | Some s => Association.isExtension s
  | None => false
  end.

Fixpoint in_profile_test (p : Package.t) : bool :=
  Package.isProfile p
  || match Package.owningPackage p with
     | Some q => in_profile_test q
     | None => false
     end.

Definition is_in_profile (m : Model) (c : ClassId) : Res bool :=
  match Class.owningPackage (cls m c) with
  | Some p => Ok (in_profile_test p)
  | None => Raise AttributeError
  end.

(** ** Base classes and the class order *)

(** [association.ownedEnd.class_]: the owned end of an extension is one
    extension end, and it has a class; the owned ends of any other
    association are a collection, which has no attribute [class_]. *)
Definition ownedEnd_class_ (s : Association.t) : Res ClassId :=
  if Association.isExtension s then Ok (Association.ownedEnd_class_ s)
  else Raise AttributeError.

(** What [bases] does at an owned attribute: nothing, or the item it
    yields or fails with. *)
Definition metaclass_base (a : Property.t) : option (Res ClassId) :=
  match Property.association a with
  | Some s =>
      if bool_decide (Property.name a = Some "baseClass")
      then Some (ownedEnd_class_ s)
      else None
  | None => None
  end.

(** The items of a generator: what it yields, up to and with its
    failure if it fails. *)
Fixpoint until_failure {A} (items : list (Res A)) : list (Res A) :=
  match items with
  | [] => []
  | Ok a :: items' => Ok a :: until_failure items'
  | failure :: _ => [failure]
  end.

(** [bases(c)] is a generator: its consumers read the items one by one,
    and stop at a failure. *)
Definition bases (m : Model) (c : ClassId) : list (Res ClassId) :=
  until_failure
    ((Ok <$> Class.generalization (cls m c))
     ++ omap (λ a, metaclass_base (prop m a)) (Class.ownedAttribute (cls m c))).

(** [for x in l: yield from g(x)], for generators [g] that read and
    update [seen_classes]: the classes yielded, and the set at the end. *)
Fixpoint yield_from_all {A} (g : A → gset ClassId → Res (list ClassId * gset ClassId))
    (l : list A) (seen_classes : gset ClassId) : Res (list ClassId * gset ClassId) :=
  match l with
  | [] => Ok ([], seen_classes)
  | x :: l' =>
      '(out, seen) ← g x seen_classes;
      '(out', seen') ← yield_from_all g l' seen;
      Ok (out ++ out', seen')
  end.

(** The inner generator [order] of [order_classes]. *)
Fixpoint order (fuel : nat) (m : Model) (c : ClassId) (seen_classes : gset ClassId)
  : Res (list ClassId * gset ClassId) :=
  match fuel with
  | 0 => OutOfFuel
  | S fuel' =>
      if bool_decide (c ∈ seen_classes) then Ok ([], seen_classes)
      else
        '(out, seen) ←
          yield_from_all (λ item seen, b ← item; order fuel' m b seen)
            (bases m c) seen_classes;
        Ok (out ++ [c], {[c]} ∪ seen)
  end.

(** The iterable handed to [order_classes] is consumed lazily: an item is
    a class, or the failure of the expression that computes it. *)
Definition order_classes (fuel : nat) (m : Model) (classes : list (Res ClassId))
  : Res (list ClassId) :=
  '(out, _) ←
    yield_from_all (λ item seen, c ← item; order fuel m c seen) classes ∅;
  Ok out.

(** ** The generalization graph *)

(** [base_of m b c]: [bases(c)] yields [b]. *)
Definition base_of (m : Model) : relation ClassId := λ b c, Ok b ∈ bases m c.

(** What a generator yields. *)
Definition yielded_items {A} (items : list (Res A)) : list A :=
  omap (λ item, match item with Ok a => Some a | _ => None end) items.

(** The classes that [bases(c)] yields. *)
Definition yielded_bases (m : Model) (c : ClassId) : list ClassId :=
  yielded_items (bases m c).

(** In the collection [U], every association end named [baseClass] is
    the end of an extension: there [bases] does not fail. *)
Definition metaclass_ends (m : Model) (U : list ClassId) : Prop :=
  ∀ c a s,
    c ∈ U → a ∈ Class.ownedAttribute (cls m c) →
    Property.association (prop m a) = Some s →
    Property.name (prop m a) = Some "baseClass" →
    Association.isExtension s = true.

(** [generalization_of m b c]: [c] has a generalization whose general is
    [b]. *)
Definition generalization_of (m : Model) : relation ClassId :=
  λ b c, b ∈ Class.generalization (cls m c).

(** A finite collection [U] of classes that contains, with a class, the
    classes [R]-related to it, and in which no class is [R]-related to
    itself through one or more steps. *)
Definition closed_under (R : relation ClassId) (U : list ClassId) : Prop :=
  ∀ c b, c ∈ U → R b c → b ∈ U.
Definition acyclic_on (R : relation ClassId) (U : list ClassId) : Prop :=
  ∀ c, c ∈ U → ¬ tc R c c.

Abbreviation closed m U := (closed_under (base_of m) U).
Abbreviation acyclic m U := (acyclic_on (base_of m) U).

(** A chain of classes, each followed by a class [R]-related to it. *)
Inductive chain (R : relation ClassId) : list ClassId → Prop :=
| chain_one c : chain R [c]
| chain_cons c b l : R b c → chain R (b :: l) → chain R (c :: b :: l).

(** A class tagged as a simple type, directly or through an ancestor. *)
Inductive simple_type (m : Model) : ClassId → Prop :=
| simple_tagged c :
    Some "SimpleAttribute" ∈ Class.appliedStereotypes (cls m c) →
    simple_type m c
| simple_inherited c b :
    generalization_of m b c → simple_type m b → simple_type m c.

(** [x] is [r] or one of its transitive bases. *)
Definition reaches (m : Model) (r x : ClassId) : Prop :=
  x = r ∨ tc (base_of m) x r.

(** What a generator started on [roots] with [seen] has done when it
    ends with [out] and [seen']. *)
Record order_post (m : Model) (roots : list ClassId)
    (seen : gset ClassId) (out : list ClassId) (seen' : gset ClassId) : Prop := {
  post_seen : seen' = seen ∪ list_to_set out;
  post_nodup : NoDup out;
  post_fresh : ∀ x, x ∈ out → x ∉ seen;
  post_roots : ∀ r, r ∈ roots → r ∈ seen';
  post_reach : ∀ x, x ∈ out → ∃ r, r ∈ roots ∧ reaches m r x;
  post_bases : ∀ i x b, out !! i = Some x → base_of m b x →
                 b ∈ seen ∨ ∃ j, j < i ∧ out !! j = Some b }.

(** ** Type resolution ([resolve_attribute_type_values]) *)

Definition set_typeValue (v : option string) (p : Property.t) : Property.t :=
  Property.mk (Property.name p) v (Property.type p) (Property.isDerived p)
    (Property.defaultValue p) (Property.upper p) (Property.lowerValue p)
    (Property.upperValue p) (Property.aggregation p) (Property.association p)
    (Property.opposite p) (Property.owner p) (Property.class_ p)
    (Property.slot p).

Definition set_type (t : option ClassId) (p : Property.t) : Property.t :=
  Property.mk (Property.name p) (Property.typeValue p) t (Property.isDerived p)
    (Property.defaultValue p) (Property.upper p) (Property.lowerValue p)
    (Property.upperValue p) (Property.aggregation p) (Property.association p)
    (Property.opposite p) (Property.owner p) (Property.class_ p)
    (Property.slot p).

Definition str_aliases : list (option string) :=
  [Some "String"; Some "str"; Some "object"].
Definition int_aliases : list (option string) :=
  [Some "Integer"; Some "int"; Some "Boolean"; Some "bool";
   Some "UnlimitedNatural"].

(** [next(select(lambda e: isinstance(e, UML.Class) and e.name == n), None)] *)
Definition class_named (m : Model) (n : option string) : option ClassId :=
  List.find (λ c, bool_decide (Class.name (cls m c) = n))
    (ElementFactory.select_Class m).

(** The first statement of the loop body: aliases, or a class of that
    name. *)
Definition resolve_type_value (m : Model) (p : Property.t) : Property.t :=
  if opt_in (Property.typeValue p) str_aliases then set_typeValue (Some "str") p
  else if opt_in (Property.typeValue p) int_aliases then set_typeValue (Some "int") p
  else match class_named m (Property.typeValue p) with
       | Some c => set_typeValue None (set_type (Some c) p)
       | None => p
       end.

(** [prop.type and is_simple_type(prop.type)] *)
Definition has_simple_type (fuel : nat) (m : Model) (t : option ClassId) : Res bool :=
  match t with
  | Some c => is_simple_type fuel m c
  | None => Ok false
  end.

(** The second statement: a simple type becomes the primitive [str]. *)
Definition resolve_simple_type (fuel : nat) (m : Model) (p : Property.t) : Res Property.t :=
  b ← has_simple_type fuel m (Property.type p);
  Ok (if (b : bool) then set_type None (set_typeValue (Some "str") p) else p).

(** The third statement: the type must be known by now. *)
Definition type_is_known (p : Property.t) : bool :=
  bool_decide (is_Some (Property.type p))
  || opt_in (Property.typeValue p) [Some "str"; Some "int"; None].

Definition resolve_property (fuel : nat) (m : Model) (p : Property.t) : Res Property.t :=
  p' ← resolve_simple_type fuel m (resolve_type_value m p);
  if type_is_known p' then Ok p'
  else Raise (ValueError "Property value type can not be found").

(** A property of the factory updated in place. *)
Definition set_property (m : Model) (a : PropId) (p : Property.t) : Model :=
  ElementFactory.mk (ElementFactory.select_Class m)
    (ElementFactory.select_Property m) (cls m)
    (λ a', if decide (a' = a) then p else prop m a').

Fixpoint resolve_each (fuel : nat) (m : Model) (props : list PropId) : Res Model :=
  match props with
  | [] => Ok m
  | a :: props' =>
      p' ← resolve_property fuel m (prop m a);
      resolve_each fuel (set_property m a p') props'
  end.

Definition resolve_attribute_type_values (fuel : nat) (m : Model) : Res Model :=
  resolve_each fuel m (ElementFactory.select_Property m).

(** ** Generators *)

(** A generator that has run: the lines it yielded, and how it ended. *)
Record Gen (A : Type) := gen { yielded : list string; ended : Res A }.
Arguments gen {A} yielded ended.
Arguments yielded {A} g.
Arguments ended {A} g.

#[global] Instance gen_ret : MRet Gen := λ A a, gen [] (Ok a).
#[global] Instance gen_bind : MBind Gen := λ A B f g,
  match ended g with
  | Ok a => gen (yielded g ++ yielded (f a)) (ended (f a))
  | Raise e => gen (yielded g) (Raise e)
  | OutOfFuel => gen (yielded g) OutOfFuel
  end.

Definition yield (line : string) : Gen unit := gen [line] (Ok ()).
Definition lift {A} (r : Res A) : Gen A := gen [] r.
Definition raise {A} (e : Exn) : Gen A := gen [] (Raise e).
Definition pass : Gen unit := mret ().

(** [list(g)]: all the lines, or the failure. *)
Definition to_list (g : Gen unit) : Res (list string) :=
  match ended g with
  | Ok _ => Ok (yielded g)
  | Raise e => Raise e
  | OutOfFuel => OutOfFuel
  end.

Fixpoint for_each {A} (body : A → Gen unit) (l : list A) : Gen unit :=
  match l with
  | [] => pass
  | x :: l' => body x ;; for_each body l'
  end.

(** A loop whose body reads and updates a local variable. *)
Fixpoint for_each_with {A S} (body : S → A → Gen S) (s : S) (l : list A) : Gen S :=
  match l with
  | [] => mret s
  | x :: l' => s' ← body s x; for_each_with body s' l'
  end.

(** ** Overrides *)

(** The class [Overrides] of [gaphor.codegen.override] is not among the
    sources at hand; the coder only calls its methods, which are taken
    as parameters. A key is a class name or a qualified member name. *)
Module Overrides.
Record t := mk {
  header : string;
  has_override : option string → bool;
  get_override : option string → string;
  get_type : option string → string }.
End Overrides.

(** [overrides and overrides.has_override(key)]: the overrides to read
    the entry of [key] from, if there is one. *)
Definition overridden (overrides : option Overrides.t) (key : option string)
  : option Overrides.t :=
  match overrides with
  | Some o => if Overrides.has_override o key then Some o else None
  | None => None
  end.

(** ** Emitters *)

Definition header : string :=
"# This file is generated by coder.py. DO NOT EDIT!
# isort: skip_file
# flake8: noqa F401,F811
# fmt: off

from __future__ import annotations

from gaphor.core.modeling.properties import (
    association,
    attribute as _attribute,
    derived,
    derivedunion,
    enumeration as _enumeration,
    redefine,
    relation_many,
    relation_one,
)

".

Definition quoted (s : string) : string := dquote +:+ s +:+ dquote.

Definition full_name (class_name member_name : option string) : string :=
  fmt class_name +:+ "." +:+ fmt member_name.

Definition class_declaration (m : Model) (class_ : ClassId) : Res string :=
  bs ← mapM id (bases m class_);
  if forallb (λ c, bool_decide (is_Some (Class.name (cls m c)))) bs
  then
    let base_classes :=
      String.concat ", "
        ((λ c, or_empty (Class.name (cls m c)))
           <$> sorted (λ c, or_empty (Class.name (cls m c))) bs) in
    Ok ("class " +:+ fmt (Class.name (cls m class_)) +:+ "(" +:+ base_classes +:+ "):")
  else Raise TypeError.

Definition default_value (a : Property.t) : Res string :=
  if truthy (Property.defaultValue a) then
    defaultValue ←
      (if bool_decide (Property.typeValue a = Some "int")
       then Ok (title (or_empty (Property.defaultValue a)))
       else if bool_decide (Property.typeValue a = Some "str")
       then Ok (quoted (or_empty (Property.defaultValue a)))
       else Raise (ValueError "Unknown default value type"));
    Ok (", default=" +:+ defaultValue)
  else Ok "".

Definition lower (a : Property.t) : string :=
  if opt_in (Property.lowerValue a) [None; Some "0"] then ""
  else ", lower=" +:+ fmt (Property.lowerValue a).

Definition upper (a : Property.t) : string :=
  if opt_in (Property.upperValue a) [None; Some "*"] then ""
  else ", upper=" +:+ fmt (Property.upperValue a).

Definition composite (a : Property.t) : string :=
  if bool_decide (Property.aggregation a = "composite") then ", composite=True"
  else "".

Definition opposite (m : Model) (a : Property.t) : string :=
  match Property.opposite a with
  | Some o =>
      if truthy (Property.name (prop m o))
         && bool_decide (is_Some (Property.class_ (prop m o)))
      then ", opposite=" +:+ quoted (fmt (Property.name (prop m o)))
      else ""
  | None => ""
  end.

Fixpoint reassignment_test (fuel : nat) (m : Model) (name : option string) (c : ClassId)
  : Res bool :=
  match fuel with
  | 0 => OutOfFuel
  | S fuel' =>
      if existsb (λ attr, bool_decide (Property.name (prop m attr) = name))
           (Class.ownedAttribute (cls m c))
      then Ok true
      else any_res (λ item, base ← item; reassignment_test fuel' m name base)
             (bases m c)
  end.

Definition is_reassignment (fuel : nat) (m : Model) (a : Property.t) : Res bool :=
  any_res (λ item, base ← item; reassignment_test fuel m (Property.name a) base)
    (bases m (Property.owner a)).

Definition redefines (a : Property.t) : option string :=
  match List.find (λ slot, bool_decide (Slot.definingFeature_name slot = Some "redefines"))
          (Property.slot a) with
  | Some slot => Slot.value slot
  | None => None
  end.

(** The lines of [variables]. *)

Definition attribute_line (a : Property.t) (default : string) : string :=
  fmt (Property.name a) +:+ ": _attribute[" +:+ fmt (Property.typeValue a)
  +:+ "] = _attribute(" +:+ quoted (fmt (Property.name a)) +:+ ", "
  +:+ fmt (Property.typeValue a) +:+ default +:+ ")".

Definition enumeration_line (a : Property.t) (values : list (option string))
    (first : option string) : string :=
  fmt (Property.name a) +:+ " = _enumeration(" +:+ quoted (fmt (Property.name a))
  +:+ ", (" +:+ String.concat ", " ((λ e, quoted (fmt e)) <$> values) +:+ "), "
  +:+ quoted (fmt first) +:+ ")".

Definition relation_line (a : Property.t) (type_name : option string)
    (reassigned : bool) : string :=
  fmt (Property.name a) +:+ ": relation_"
  +:+ (if bool_decide (Property.upper a = Some "1") then "one" else "many")
  +:+ "[" +:+ fmt type_name +:+ "]"
  +:+ (if reassigned then "  # type: ignore[assignment]" else "").

(** The body of the loop over the attributes of [variables]. *)
Definition variables_attribute (fuel : nat) (m : Model) (overrides : option Overrides.t)
    (class_ : ClassId) (a : Property.t) : Gen unit :=
  if is_extension_end a then pass
  else
    let full_name := Some (full_name (Class.name (cls m class_)) (Property.name a)) in
    if overridden overrides full_name is Some o
    then yield (fmt (Property.name a) +:+ ": " +:+ Overrides.get_type o full_name)
    else if Property.isDerived a && negb (bool_decide (is_Some (Property.type a)))
    then pass
    else if truthy (Property.typeValue a)
    then default ← lift (default_value a); yield (attribute_line a default)
    else if is_enumeration m (Property.type a)
    then
      match Property.type a with
      | Some t =>
          let values := (λ e, Property.name (prop m e))
                          <$> Class.ownedAttribute (cls m t) in
          match values with
          | first :: _ => yield (enumeration_line a values first)
          | [] => raise IndexError
          end
      | None => pass
      end
    else
      match Property.type a with
      | Some t =>
          reassigned ← lift (is_reassignment fuel m a);
          yield (relation_line a (Class.name (cls m t)) reassigned)
      | None => raise (ValueError "can not be written")
      end.

Definition variables_operation (m : Model) (overrides : option Overrides.t)
    (class_ : ClassId) (o : Operation.t) : Gen unit :=
  let full_name := Some (full_name (Class.name (cls m class_)) (Operation.name o)) in
  if overridden overrides full_name is Some ov
  then yield (fmt (Operation.name o) +:+ ": " +:+ Overrides.get_type ov full_name)
  else pass.

Definition variables (fuel : nat) (m : Model) (overrides : option Overrides.t)
    (class_ : ClassId) : Gen unit :=
  for_each (λ a, variables_attribute fuel m overrides class_ (prop m a))
    (sorted (λ a, or_empty (Property.name (prop m a)))
       (Class.ownedAttribute (cls m class_))) ;;
  for_each (variables_operation m overrides class_)
    (sorted (λ o, or_empty (Operation.name o))
       (Class.ownedOperation (cls m class_))).

(** [is_simple_type(a.type) or is_enumeration(a.type) or
    is_extension_end(a)], for an attribute [a] whose type is [t]. *)
Definition not_an_association (fuel : nat) (m : Model) (a : Property.t) (t : ClassId)
  : Res bool :=
  or_res (is_simple_type fuel m t)
    (Ok (is_enumeration m (Some t) || is_extension_end a)).

(** The lines of [associations]. *)

Definition redefine_line (m : Model) (c : ClassId) (a : Property.t)
    (type_name : option string) : string :=
  full_name (Class.name (cls m c)) (Property.name a) +:+ " = redefine("
  +:+ fmt (Class.name (cls m c)) +:+ ", " +:+ quoted (fmt (Property.name a))
  +:+ ", " +:+ fmt type_name +:+ ", " +:+ fmt (redefines a) +:+ ")".

Definition derivedunion_line (m : Model) (c : ClassId) (a : Property.t)
    (type_name : option string) : string :=
  full_name (Class.name (cls m c)) (Property.name a) +:+ " = derivedunion("
  +:+ quoted (fmt (Property.name a)) +:+ ", " +:+ fmt type_name
  +:+ lower a +:+ upper a +:+ ")".

Definition association_line (m : Model) (c : ClassId) (a : Property.t)
    (type_name : option string) : string :=
  full_name (Class.name (cls m c)) (Property.name a) +:+ " = association("
  +:+ quoted (fmt (Property.name a)) +:+ ", " +:+ fmt type_name
  +:+ lower a +:+ upper a +:+ composite a +:+ opposite m a +:+ ")".

(** The body of the loop of [associations]; [redefinitions] is the list
    the loop appends to. *)
Definition associations_attribute (fuel : nat) (m : Model)
    (overrides : option Overrides.t) (c : ClassId)
    (redefinitions : list string) (a : Property.t) : Gen (list string) :=
  let full_name := Some (full_name (Class.name (cls m c)) (Property.name a)) in
  if overridden overrides full_name is Some o
  then yield (Overrides.get_override o full_name) ;; mret redefinitions
  else
    match Property.type a with
    | None => mret redefinitions
    | Some t =>
        skip ← lift (not_an_association fuel m a t);
        if (skip : bool) then mret redefinitions
        else if truthy (redefines a)
        then mret (redefinitions ++ [redefine_line m c a (Class.name (cls m t))])
        else if Property.isDerived a
        then yield (derivedunion_line m c a (Class.name (cls m t))) ;;
             mret redefinitions
        else if negb (truthy (Property.name a))
        then raise (ValueError "Unnamed attribute")
        else yield (association_line m c a (Class.name (cls m t))) ;;
             mret redefinitions
    end.

Definition associations (fuel : nat) (m : Model) (overrides : option Overrides.t)
    (c : ClassId) : Gen unit :=
  redefinitions ←
    for_each_with
      (λ redefinitions a,
         associations_attribute fuel m overrides c redefinitions (prop m a))
      [] (Class.ownedAttribute (cls m c));
  for_each yield redefinitions.

Definition operations (m : Model) (overrides : option Overrides.t) (c : ClassId)
  : Gen unit :=
  for_each
    (λ o, let full_name := Some (full_name (Class.name (cls m c)) (Operation.name o)) in
          if overridden overrides full_name is Some ov
          then yield (Overrides.get_override ov full_name)
          else pass)
    (sorted (λ o, or_empty (Operation.name o)) (Class.ownedOperation (cls m c))).

(** ** Supermodels and subsets *)

(** The loop over the classes of one supermodel with the wanted name. *)
Fixpoint first_declared (factory : Model) (candidates : list ClassId)
  : Res (option ClassId) :=
  match candidates with
  | [] => Ok None
  | c :: rest =>
      skip ← or_res (is_in_profile factory c)
                (Ok (is_enumeration factory (Some c)));
      if (skip : bool) then first_declared factory rest else Ok (Some c)
  end.

Fixpoint in_super_model (name : option string) (super_models : list (string * Model))
  : Res (option (string * Model * ClassId)) :=
  match super_models with
  | [] => Ok None
  | (pkg, factory) :: rest =>
      found ← first_declared factory
                (filter (λ c, Class.name (cls factory c) = name)
                   (ElementFactory.select_Class factory));
      match found with
      | Some c => Ok (Some (pkg, factory, c))
      | None => in_super_model name rest
      end
  end.

(** [attribute]: the package to import from, and the property found
    together with the factory that holds it. *)
Fixpoint attribute (fuel : nat) (m : Model) (c : ClassId) (name : string)
    (super_models : list (string * Model))
  : Res (option string * option (Model * Property.t)) :=
  match fuel with
  | 0 => OutOfFuel
  | S fuel' =>
      match List.find (λ a, bool_decide (Property.name (prop m a) = Some name))
              (Class.ownedAttribute (cls m c)) with
      | Some a => Ok (None, Some (m, prop m a))
      | None =>
          in_base ←
            (fix in_bases (bs : list (Res ClassId)) :=
               match bs with
               | [] => Ok None
               | item :: bs' =>
                   base ← item;
                   '(pkg, a) ← attribute fuel' m base name super_models;
                   match a with
                   | Some _ => Ok (Some (pkg, a))
                   | None => in_bases bs'
                   end
               end) (bases m c);
          match in_base with
          | Some found => Ok found
          | None =>
              maybe_super ← in_super_model (Class.name (cls m c)) super_models;
              match maybe_super with
              | Some (pkg, factory, sc) =>
                  '(_, a) ← attribute fuel' factory sc name [];
                  Ok (Some pkg, a)
              | None => Ok (None, None)
              end
          end
      end
  end.

(** [str.split(",")], on text in UTF-8. *)
Fixpoint split_on (sep : ascii) (s : string) : list string :=
  match s with
  | EmptyString => [EmptyString]
  | String ch s' =>
      if bool_decide (ch = sep) then EmptyString :: split_on sep s'
      else match split_on sep s' with
           | w :: ws => String ch w :: ws
           | [] => [String ch EmptyString]
           end
  end.

(** [str.strip()], on text in UTF-8: it removes the white space of
    [str.isspace] at both ends. In ASCII that is U+0009 to U+000D and
    U+001C to U+0020; beyond, U+0085 and U+00A0 (two bytes), and U+1680,
    U+2000 to U+200A, U+2028, U+2029, U+202F, U+205F and U+3000 (three
    bytes). *)
Definition is_space (ch : ascii) : bool :=
  let n := nat_of_ascii ch in
  ((9 <=? n)%nat && (n <=? 13)%nat) || ((28 <=? n)%nat && (n <=? 32)%nat).

Definition is_space2 (c1 c2 : ascii) : bool :=
  let n1 := nat_of_ascii c1 in
  let n2 := nat_of_ascii c2 in
  (n1 =? 194)%nat && ((n2 =? 133)%nat || (n2 =? 160)%nat).

Definition is_space3 (c1 c2 c3 : ascii) : bool :=
  let n1 := nat_of_ascii c1 in
  let n2 := nat_of_ascii c2 in
  let n3 := nat_of_ascii c3 in
  ((n1 =? 225)%nat && (n2 =? 154)%nat && (n3 =? 128)%nat)
  || ((n1 =? 226)%nat && (n2 =? 128)%nat
      && (((128 <=? n3)%nat && (n3 <=? 138)%nat)
          || (n3 =? 168)%nat || (n3 =? 169)%nat || (n3 =? 175)%nat))
  || ((n1 =? 226)%nat && (n2 =? 129)%nat && (n3 =? 159)%nat)
  || ((n1 =? 227)%nat && (n2 =? 128)%nat && (n3 =? 128)%nat).

(** The white space at the front of [s] removed; [reversed] when [s] is
    a text read from its end. *)
Fixpoint strip_front (reversed : bool) (s : string) : string :=
  match s with
  | EmptyString => EmptyString
  | String c1 s1 =>
      if is_space c1 then strip_front reversed s1
      else
        match s1 with
        | EmptyString => s
        | String c2 s2 =>
            if (if reversed then is_space2 c2 c1 else is_space2 c1 c2)
            then strip_front reversed s2
            else
              match s2 with
              | EmptyString => s
              | String c3 s3 =>
                  if (if reversed then is_space3 c3 c2 c1 else is_space3 c1 c2 c3)
                  then strip_front reversed s3
                  else s
              end
        end
  end.

Definition lstrip (s : string) : string := strip_front false s.

Definition rstrip (s : string) : string :=
  String.rev (strip_front true (String.rev s)).

Definition strip (s : string) : string := rstrip (lstrip s).

Definition subsets_value (fuel : nat) (m : Model) (super_models : list (string * Model))
    (c : ClassId) (full_name : string) (value : string) : Gen unit :=
  '(pkg, d) ← lift (attribute fuel m c (strip value) super_models);
  match d with
  | Some (factory, d) =>
      if Property.isDerived d then
        let owner_name := fmt (Class.name (cls factory (Property.owner d))) in
        (if truthy pkg
         then yield ("from " +:+ fmt pkg +:+ " import " +:+ owner_name)
         else pass) ;;
        yield (owner_name +:+ "." +:+ fmt (Property.name d) +:+ ".add("
               +:+ full_name +:+ ")  # type: ignore[attr-defined]")
      else pass
  | None => pass
  end.

Definition subsets (fuel : nat) (m : Model) (super_models : list (string * Model))
    (c : ClassId) : Gen unit :=
  for_each
    (λ attr,
       let a := prop m attr in
       match Property.type a with
       | None => pass
       | Some t =>
           skip ← lift (not_an_association fuel m a t);
           if (skip : bool) then pass
           else
             for_each
               (λ slot,
                  if bool_decide (Slot.definingFeature_name slot = Some "subsets")
                  then
                    let full_name :=
                      full_name (Class.name (cls m c)) (Property.name a) in
                    match Slot.value slot with
                    | Some value =>
                        for_each (subsets_value fuel m super_models c full_name)
                          (split_on ","%char value)
                    | None => raise AttributeError
                    end
                  else pass)
               (Property.slot a)
       end)
    (Class.ownedAttribute (cls m c)).

(** ** The coder *)

(** [is_enumeration(c) or is_simple_type(c) or is_in_profile(c) or
    is_tilde_type(c)] *)
Definition excluded (fuel : nat) (m : Model) (c : ClassId) : Res bool :=
  or_res (Ok (is_enumeration m (Some c)))
    (or_res (is_simple_type fuel m c)
       (or_res (is_in_profile m c) (Ok (is_tilde_type m c)))).

(** The generator expression handed to [order_classes]. *)
Definition class_items (fuel : nat) (m : Model) : list (Res ClassId) :=
  c ← ElementFactory.select_Class m;
  match excluded fuel m c with
  | Ok true => []
  | Ok false => [Ok c]
  | Raise e => [Raise e]
  | OutOfFuel => [OutOfFuel]
  end.

(** The classes the coder writes, in order. *)
Definition coder_classes (fuel : nat) (m : Model) : Res (list ClassId) :=
  order_classes fuel m (class_items fuel m).

(** The body of the first loop over the classes: the block of one
    class. *)
Definition class_block (fuel : nat) (m : Model) (super_models : list (string * Model))
    (overrides : option Overrides.t) (already_imported : gset string) (c : ClassId)
  : Gen (gset string) :=
  if overridden overrides (Class.name (cls m c)) is Some o
  then yield (Overrides.get_override o (Class.name (cls m c))) ;;
       mret already_imported
  else
    super_class ← lift (in_super_model (Class.name (cls m c)) super_models);
    match super_class with
    | Some (pkg, factory, sc) =>
        let line := "from " +:+ pkg +:+ " import "
                    +:+ fmt (Class.name (cls factory sc)) in
        yield line ;; mret ({[line]} ∪ already_imported)
    | None =>
        declaration ← lift (class_declaration m c);
        yield declaration ;;
        properties ← lift (to_list (variables fuel m overrides c));
        (match properties with
         | _ :: _ => for_each (λ p, yield ("    " +:+ p)) properties
         | [] => yield "    pass"
         end) ;;
        yield "" ;;
        yield "" ;;
        mret already_imported
    end.

(** The body of the last loop: associations, then the lines of
    [subsets] with every import written once. *)
Definition subsets_line (already_imported : gset string) (line : string)
  : Gen (gset string) :=
  if startswith line "from "
  then (if bool_decide (line ∈ already_imported) then pass else yield line) ;;
       mret ({[line]} ∪ already_imported)
  else yield line ;; mret already_imported.

Definition class_associations (fuel : nat) (m : Model)
    (super_models : list (string * Model)) (overrides : option Overrides.t)
    (already_imported : gset string) (c : ClassId) : Gen (gset string) :=
  associations fuel m overrides c ;;
  let lines := subsets fuel m super_models c in
  already_imported ← for_each_with subsets_line already_imported (yielded lines);
  lift (ended lines) ;;
  mret already_imported.

Definition coder (fuel : nat) (m : Model) (super_models : list (string * Model))
    (overrides : option Overrides.t) : Gen unit :=
  classes ← lift (coder_classes fuel m);
  yield header ;;
  (match overrides with
   | Some o =>
       if truthy (Some (Overrides.header o)) then yield (Overrides.header o)
       else pass
   | None => pass
   end) ;;
  already_imported ← for_each_with (class_block fuel m super_models overrides) ∅ classes;
  for_each (operations m overrides) classes ;;
  yield "" ;;
  for_each_with (class_associations fuel m super_models overrides)
    already_imported classes ;;
  pass.

(** ** The program *)

(** [load_model], after [storage.load] has read the file into an element
    factory. *)
Definition load_model (fuel : nat) (element_factory : Model) : Res Model :=
  resolve_attribute_type_values fuel element_factory.

(** [main]: the lines printed, for the model, the supermodels and the
    overrides read from the files named on the command line. *)
Definition main (fuel : nat) (modelfile : Model) (supermodelfiles : list (string * Model))
    (overrides : option Overrides.t) : Gen unit :=
  model ← lift (load_model fuel modelfile);
  super_models ←
    lift (mapM (λ '(pkg, f), f' ← load_model fuel f; Ok (pkg, f')) supermodelfiles);
  coder fuel model super_models overrides.

(** ** Notions used to state the properties of type resolution *)

(** Two factories with the same classes. *)
Definition same_classes (m m0 : Model) : Prop :=
  cls m = cls m0
  ∧ ElementFactory.select_Class m = ElementFactory.select_Class m0.

(** What resolution makes of a property [p0] whose type value is a
    primitive alias: [p] is such an outcome. *)
Definition canonical (fuel : nat) (m : Model) (p0 p : Property.t) : Prop :=
  (Property.typeValue p0 ∈ str_aliases → Property.typeValue p = Some "str")
  ∧ (Property.typeValue p0 ∈ int_aliases →
     ∃ b : bool,
       has_simple_type fuel m (Property.type p0) = Ok b
       ∧ Property.typeValue p = Some (if b then "str" else "int")
       ∧ Property.type p = if b then None else Property.type p0).

(** ** Example models *)

Definition uml_package : Package.t := Package.mk false (Some "UML") None.

Definition plain_class (name : string) (generalization : list ClassId)
    (ownedAttribute : list PropId) : Class.t :=
  Class.mk (Some name) generalization ownedAttribute [] [] (Some uml_package).

Definition plain_property (name : string) (owner : ClassId) : Property.t :=
  Property.mk (Some name) None None false None None None None "none" None None
    owner (Some owner) [].

Definition no_class : Class.t := Class.mk None [] [] [] [] None.
Definition no_property : Property.t :=
  Property.mk None None None false None None None None "none" None None 0 None [].

(** A diamond: [Dependency] derives from [NamedElement] and
    [Relationship], which both derive from [Element]; the stereotype
    [Trace] extends the metaclass [Dependency] through its [baseClass]
    end. *)
Definition diamond : Model :=
  ElementFactory.mk [3; 4; 1; 2; 0] [0]
    (λ c, match c with
          | 0 => plain_class "Element" [] []
          | 1 => plain_class "NamedElement" [0] []
          | 2 => plain_class "Relationship" [0] []
          | 3 => plain_class "Dependency" [1; 2] []
          | 4 => plain_class "Trace" [] [0]
          | _ => no_class
          end)
    (λ a, match a with
          | 0 => Property.mk (Some "baseClass") None (Some 3) false None None
                   None None "none" (Some (Association.mk true 3)) None 4
                   (Some 4) []
          | _ => no_property
          end).

(** A class [Foo] with four attributes: [count], whose type value
    [Integer] comes with a reference to the simple type [Text]; [label],
    of type value [String]; [size], of type value [int]; and [title],
    whose type value names the class [Text]. *)
Definition simple_typed : Model :=
  ElementFactory.mk [0; 1] [0; 1; 2; 3]
    (λ c, match c with
          | 0 => Class.mk (Some "Text") [] [] [] [Some "SimpleAttribute"]
                   (Some uml_package)
          | 1 => plain_class "Foo" [] [0; 1; 2; 3]
          | _ => no_class
          end)
    (λ a, match a with
          | 0 => Property.mk (Some "count") (Some "Integer") (Some 0) false None
                   None None None "none" None None 1 (Some 1) []
          | 1 => Property.mk (Some "label") (Some "String") None false None
                   None None None "none" None None 1 (Some 1) []
          | 2 => Property.mk (Some "size") (Some "int") None false None
                   None None None "none" None None 1 (Some 1) []
          | 3 => Property.mk (Some "title") (Some "Text") None false None
                   None None None "none" None None 1 (Some 1) []
          | _ => no_property
          end).

(** [simple_typed] after [resolve_attribute_type_values]. *)
Definition simple_typed_resolved : Model :=
  match resolve_attribute_type_values 1 simple_typed with
  | Ok m' => m'
  | _ => simple_typed
  end.

(** A class [Foo] with an attribute [anything] that has no type and no
    type value, and the same with the type value [Bar], which names no
    class. *)
Definition untyped : Model :=
  ElementFactory.mk [0] [0]
    (λ c, match c with
          | 0 => plain_class "Foo" [] [0]
          | _ => no_class
          end)
    (λ a, match a with
          | 0 => plain_property "anything" 0
          | _ => no_property
          end).

Definition unknown_typed : Model :=
  ElementFactory.mk [0] [0]
    (λ c, match c with
          | 0 => plain_class "Foo" [] [0]
          | _ => no_class
          end)
    (λ a, match a with
          | 0 => set_typeValue (Some "Bar") (plain_property "anything" 0)
          | _ => no_property
          end).

(** A class [Foo] with the derived attribute [anything], which has no
    type, and the operation [size]; both have an entry in the overrides. *)
Definition foo_overrides : Overrides.t :=
  Overrides.mk ""
    (λ key, bool_decide (key = Some "Foo.anything") || bool_decide (key = Some "Foo.size"))
    (λ key, if bool_decide (key = Some "Foo.anything")
            then "Foo.anything = derived('anything', str, 0, 1, lambda obj: [])"
            else "Foo.size = lambda self: 0")
    (λ key, if bool_decide (key = Some "Foo.anything") then "derived[str]"
            else "int").

Definition overridden_members : Model :=
  ElementFactory.mk [0] [0]
    (λ c, match c with
          | 0 => Class.mk (Some "Foo") [] [0] [Operation.mk (Some "size")] []
                   (Some uml_package)
          | _ => no_class
          end)
    (λ a, match a with
          | 0 => Property.mk (Some "anything") None None true None None None None
                   "none" None None 0 (Some 0) []
          | _ => no_property
          end).

(** The class [Foo] with no bases and the one attribute [name], a
    primitive string with no default value. *)
Definition one_string_attribute : Model :=
  ElementFactory.mk [0] [0]
    (λ c, match c with
          | 0 => plain_class "Foo" [] [0]
          | _ => no_class
          end)
    (λ a, match a with
          | 0 => set_typeValue (Some "str") (plain_property "name" 0)
          | _ => no_property
          end).

(** The block the coder writes for a class with no bases and one
    primitive string attribute. *)
Definition string_attribute_block (class_name attribute_name : string) : list string :=
  ["class " +:+ class_name +:+ "():";
   "    " +:+ attribute_name +:+ ": _attribute[str] = _attribute("
     +:+ quoted attribute_name +:+ ", str)";
   "";
   ""].

(** ** The contract of the association pass *)

(** What the pass makes of one attribute: nothing, a statement written
    at once, or a statement written at the end of the class. *)
Inductive Statement :=
| NoStatement
| Now (line : string)
| AtEnd (line : string).

Definition now_line (s : Statement) : option string :=
  match s with
  | Now line => Some line
  | _ => None
  end.

Definition at_end_line (s : Statement) : option string :=
  match s with
  | AtEnd line => Some line
  | _ => None
  end.

(** The statement of an attribute [a] of the class [c]: the override if
    there is one; none for an attribute without a type, of a simple or
    enumeration type, or at an extension; a redefinition (at the end), a
    derived union or an association otherwise. *)
Definition statement (fuel : nat) (m : Model) (overrides : option Overrides.t)
    (c : ClassId) (a : Property.t) : Res Statement :=
  let key := Some (full_name (Class.name (cls m c)) (Property.name a)) in
  match overridden overrides key, Property.type a with
  | Some o, _ => Ok (Now (Overrides.get_override o key))
  | None, None => Ok NoStatement
  | None, Some t =>
      simple ← is_simple_type fuel m t;
      if (simple : bool) || is_enumeration m (Some t) || is_extension_end a
      then Ok NoStatement
      else if truthy (redefines a)
      then Ok (AtEnd (redefine_line m c a (Class.name (cls m t))))
      else if Property.isDerived a
      then Ok (Now (derivedunion_line m c a (Class.name (cls m t))))
      else if truthy (Property.name a)
      then Ok (Now (association_line m c a (Class.name (cls m t))))
      else Raise (ValueError "Unnamed attribute")
  end.

(** A class [Foo] whose attributes are, in order: [first], which
    redefines [base]; [second], an association to [Bar]; [third], a
    derived union over [Bar]; and [label], a primitive string. *)
Definition with_redefinition : Model :=
  ElementFactory.mk [0; 1] [0; 1; 2; 3]
    (λ c, match c with
          | 0 => plain_class "Foo" [] [0; 1; 2; 3]
          | 1 => plain_class "Bar" [] []
          | _ => no_class
          end)
    (λ a, match a with
          | 0 => Property.mk (Some "first") None (Some 1) false None None None None
                   "none" None None 0 (Some 0)
                   [Slot.mk (Some "redefines") (Some "Foo.base")]
          | 1 => Property.mk (Some "second") None (Some 1) false None None
                   (Some "1") (Some "*") "composite" None None 0 (Some 0) []
          | 2 => Property.mk (Some "third") None (Some 1) true None None None None
                   "none" None None 0 (Some 0) []
          | 3 => set_typeValue (Some "str") (plain_property "label" 0)
          | _ => no_property
          end).

(** The class [Foo] derives from [StatusKind], whose name makes it an
    enumeration. *)
Definition enumeration_base : Model :=
  ElementFactory.mk [0; 1] []
    (λ c, match c with
          | 0 => plain_class "StatusKind" [] []
          | 1 => plain_class "Foo" [0] []
          | _ => no_class
          end)
    (λ _, no_property).

(** The class [Lamp] has the attribute [status], whose type is the
    enumeration [StatusKind] with the values [on] and [off]. *)
Definition enumeration_use : Model :=
  ElementFactory.mk [0; 1] [0; 1; 2]
    (λ c, match c with
          | 0 => plain_class "StatusKind" [] [1; 2]
          | 1 => plain_class "Lamp" [] [0]
          | _ => no_class
          end)
    (λ a, match a with
          | 0 => set_type (Some 0) (plain_property "status" 1)
          | 1 => plain_property "on" 0
          | 2 => plain_property "off" 0
          | _ => no_property
          end).

(** ** Tactics *)

(** Splits a hypothesis [H : x ∈ [a; b; ...]] into its cases, closing the
    cases that equate different constructors. *)
Ltac elem_of_cases H :=
  repeat (apply elem_of_cons in H as [H|H]; [try discriminate|]);
  try (by apply not_elem_of_nil in H).

(** ** The rest of the coder: packages *)

Fixpoint toplevel_test (package_name : string) (p : Package.t) : bool :=
  match Package.owningPackage p with
  | None => bool_decide (Package.name p = Some package_name)
  | Some q => toplevel_test package_name q
  end.

Definition is_in_toplevel_package (m : Model) (c : ClassId) (package_name : string)
  : Res bool :=
  match Class.owningPackage (cls m c) with
  | Some p => Ok (toplevel_test package_name p)
  | None => Raise AttributeError
  end.

(** ** Notions used to state further properties *)

(** A package and the packages that own it, innermost first, and the
    last of them. *)
Fixpoint enclosing (p : Package.t) : list Package.t :=
  p :: match Package.owningPackage p with
       | Some q => enclosing q
       | None => []
       end.

Fixpoint outermost (p : Package.t) : Package.t :=
  match Package.owningPackage p with
  | Some q => outermost q
  | None => p
  end.

(** The class [c], or one of its transitive bases, owns an attribute
    named [n]. *)
Inductive defines (m : Model) (n : option string) : ClassId → Prop :=
| defines_here c attr :
    attr ∈ Class.ownedAttribute (cls m c) → Property.name (prop m attr) = n →
    defines m n c
| defines_base c b : base_of m b c → defines m n b → defines m n c.

(** A set of classes that contains the bases of its members. *)
Definition base_closed (m : Model) (s : gset ClassId) : Prop :=
  ∀ x b, x ∈ s → base_of m b x → b ∈ s.

(** [Foo] derives from [Base], which owns [kind]; [Foo] owns [kind] and
    [other]. *)
Definition shadowing : Model :=
  ElementFactory.mk [0; 1] [0; 1; 2]
    (λ c, match c with
          | 0 => plain_class "Base" [] [0]
          | 1 => plain_class "Foo" [0] [1; 2]
          | _ => no_class
          end)
    (λ a, match a with
          | 0 => set_type (Some 0) (plain_property "kind" 0)
          | 1 => set_type (Some 0) (plain_property "kind" 1)
          | 2 => set_type (Some 0) (plain_property "other" 1)
          | _ => no_property
          end).

(** A class in the package [Profiles], a profile inside the package
    [SysML]. *)
Definition sysml_package : Package.t := Package.mk false (Some "SysML") None.
Definition profiles_package : Package.t :=
  Package.mk true (Some "Profiles") (Some sysml_package).
Definition nested_package : Package.t :=
  Package.mk false (Some "Blocks") (Some profiles_package).

Definition in_nested_package : Model :=
  ElementFactory.mk [0] []
    (λ c, match c with
          | 0 => Class.mk (Some "Block") [] [] [] [] (Some nested_package)
          | _ => no_class
          end)
    (λ _, no_property).


(** The supermodel [uml]: the class [Element] with the derived attribute
    [ownedElement], the enumeration [VisibilityKind], and a class
    [Element] of a profile. A model that uses it: [Element], which the
    supermodel declares, and [Block], which derives from it and subsets
    [ownedElement]. *)
Definition uml_factory : Model :=
  ElementFactory.mk [2; 1; 0] [0]
    (λ c, match c with
          | 0 => plain_class "Element" [] [0]
          | 1 => plain_class "VisibilityKind" [] []
          | 2 => Class.mk (Some "Element") [] [] [] [] (Some profiles_package)
          | _ => no_class
          end)
    (λ a, match a with
          | 0 => Property.mk (Some "ownedElement") None (Some 0) true None None
                   None None "none" None None 0 (Some 0) []
          | _ => no_property
          end).

Definition using_supermodel : Model :=
  ElementFactory.mk [1; 0] [0]
    (λ c, match c with
          | 0 => plain_class "Element" [] []
          | 1 => plain_class "Block" [0] [0]
          | _ => no_class
          end)
    (λ a, match a with
          | 0 => Property.mk (Some "part") None (Some 1) false None None None None
                   "none" None None 1 (Some 1)
                   [Slot.mk (Some "subsets") (Some " ownedElement ,missing")]
          | _ => no_property
          end).


(** ** The rest of the coder: what resolution leaves alone *)

(** A property without its type and its type value. *)
Definition erase_type (p : Property.t) : Property.t :=
  set_type None (set_typeValue None p).

(** A model with a class that has no name: [Foo] has the attribute [bar]
    of type [Bar] and with no type value. *)
Definition with_unnamed_class : Model :=
  ElementFactory.mk [2; 0; 1] [0]
    (λ c, match c with
          | 0 => Class.mk None [] [] [] [] (Some uml_package)
          | 1 => plain_class "Foo" [] [0]
          | 2 => plain_class "Bar" [] []
          | _ => no_class
          end)
    (λ a, match a with
          | 0 => set_type (Some 2) (plain_property "bar" 1)
          | _ => no_property
          end).


(** The class [Foo] of [with_redefinition] with a third attribute that
    has a type and no name. *)
Definition with_unnamed_end : Model :=
  ElementFactory.mk [0; 1] [0; 1; 2]
    (λ c, match c with
          | 0 => plain_class "Foo" [] [0; 1; 2]
          | 1 => plain_class "Bar" [] []
          | _ => no_class
          end)
    (λ a, match a with
          | 0 => prop with_redefinition 0
          | 1 => prop with_redefinition 1
          | 2 => Property.mk None None (Some 1) false None None None None
                   "none" None None 0 (Some 0) []
          | _ => no_property
          end).


(** Two classes [C] with the same bases [A] and [B], stored in opposite
    orders. *)
Definition swapped_bases : Model :=
  ElementFactory.mk [0; 1; 2; 3] []
    (λ c, match c with
          | 0 => plain_class "A" [] []
          | 1 => plain_class "B" [] []
          | 2 => plain_class "C" [0; 1] []
          | 3 => plain_class "C" [1; 0] []
          | _ => no_class
          end)
    (λ _, no_property).




(** The class [Foo] has an attribute named [baseClass] that is an end of
    an association with [Bar], and the association is no extension. *)
Definition plain_baseClass : Model :=
  ElementFactory.mk [0; 1] [0]
    (λ c, match c with
          | 0 => plain_class "Foo" [] [0]
          | 1 => plain_class "Bar" [] []
          | _ => no_class
          end)
    (λ a, match a with
          | 0 => Property.mk (Some "baseClass") None (Some 1) false None None
                   None None "none" (Some (Association.mk false 1)) None 0
                   (Some 0) []
          | _ => no_property
          end).


(** [bases(c)] fails where the class owns an association end named
    [baseClass] whose association is no extension. *)
Definition plain_metaclass_end (m : Model) (c : ClassId) : Prop :=
  ∃ a s,
    a ∈ Class.ownedAttribute (cls m c)
    ∧ Property.association (prop m a) = Some s
    ∧ Property.name (prop m a) = Some "baseClass"
    ∧ Association.isExtension s = false.

(** The names of the items of [bases(c)]. *)
Definition base_names (m : Model) (c : ClassId) : list (Res (option string)) :=
  (λ item, b ← item; Ok (Class.name (cls m b))) <$> bases m c.


(** ** The lines of one member among those of its class *)

(** [variables], when the owned attributes come, sorted by name, as
    [before], then one attribute, then [after]; [lines] is what is
    written for that attribute. *)
Definition variables_around (fuel : nat) (m : Model) (overrides : option Overrides.t)
    (class_ : ClassId) (before : list PropId) (lines : Gen unit)
    (after : list PropId) : Gen unit :=
  (for_each (λ a, variables_attribute fuel m overrides class_ (prop m a)) before ;;
   (lines ;;
    for_each (λ a, variables_attribute fuel m overrides class_ (prop m a)) after)) ;;
  for_each (variables_operation m overrides class_)
    (sorted (λ o, or_empty (Operation.name o))
       (Class.ownedOperation (cls m class_))).




(** The block the coder writes for a class it declares, with the
    declaration [declaration] and the properties [properties], of which
    there is one at least. *)
Definition declared_block (declaration : string) (properties : list string)
  : list string :=
  [declaration] ++ ((λ p, "    " +:+ p) <$> properties) ++ [""; ""].


(** The line of a primitive string attribute. *)
Definition str_attribute_line (name : option string) (default : string) : string :=
  fmt name +:+ ": _attribute[str] = _attribute(" +:+ quoted (fmt name) +:+ ", str"
  +:+ default +:+ ")".



(** The line of an attribute of an enumeration type, whose values are
    [first] and [values]. *)
Definition inlined_enumeration (name first : option string)
    (values : list (option string)) : string :=
  fmt name +:+ " = _enumeration(" +:+ quoted (fmt name) +:+ ", ("
  +:+ String.concat ", " ((λ e, quoted (fmt e)) <$> first :: values)
  +:+ "), " +:+ quoted (fmt first) +:+ ")".

(** What [variables] does at an attribute of an enumeration type with
    the values [names]. *)
Definition enumeration_lines (name : option string) (names : list (option string))
  : Gen unit :=
  match names with
  | first :: values => yield (inlined_enumeration name first values)
  | [] => raise IndexError
  end.

(** * Properties *)

(** ** Finite acyclic graphs *)

Section Graph.
Context (R : relation ClassId).

Lemma chain_tc c l x : chain R (c :: l) → x ∈ l → tc R x c.
Proof.
  revert c. induction l as [|b l IH]; intros c Hch Hx.
  - by apply not_elem_of_nil in Hx.
  - inversion Hch as [|? ? ? Hb Hch']; subst.
    apply elem_of_cons in Hx as [->|Hx]; [by apply tc_once|].
    eapply tc_r; [by apply IH|done].
Qed.

Lemma chain_bounded U l c :
  closed_under R U → acyclic_on R U → c ∈ U → chain R (c :: l) →
  length (c :: l) ≤ length U.
Proof.
  intros Hcl Hac Hc Hch.
  assert (NoDup (c :: l) ∧ (∀ x, x ∈ c :: l → x ∈ U)) as [Hnd Hsub].
  { revert c Hc Hch. induction l as [|b l IH]; intros c Hc Hch.
    - split; [apply NoDup_singleton|]. by intros x ->%list_elem_of_singleton.
    - inversion Hch as [|? ? ? Hb Hch']; subst.
      assert (b ∈ U) as HbU by by eapply Hcl.
      destruct (IH b HbU Hch') as [Hnd Hsub]. split.
      + apply NoDup_cons. split; [|done].
        intros Hin. apply (Hac c Hc). by eapply chain_tc.
      + intros x [->|Hx]%elem_of_cons; [done|by apply Hsub]. }
  apply submseteq_length, NoDup_submseteq; done.
Qed.

Lemma closed_tc U b c : closed_under R U → c ∈ U → tc R b c → b ∈ U.
Proof.
  intros Hcl Hc Htc. induction Htc as [x y Hxy|x y z Hxy Hyz IH].
  - by eapply Hcl.
  - eapply Hcl; [|done]. by apply IH.
Qed.

(** A rank that decreases along every edge rules out cycles. *)
Lemma ranked_acyclic U (rank : ClassId → nat) :
  closed_under R U →
  (∀ c b, c ∈ U → R b c → rank b < rank c) →
  acyclic_on R U.
Proof.
  intros Hcl Hrank.
  assert (∀ b c, tc R b c → c ∈ U → rank b < rank c) as Hlt.
  { intros b c Htc. induction Htc as [x y Hxy|x y z Hxy Hyz IH]; intros Hz.
    - by apply Hrank.
    - specialize (IH Hz). assert (y ∈ U) by by eapply closed_tc.
      pose proof (Hrank y x ltac:(done) Hxy). lia. }
  intros c Hc Htc. specialize (Hlt c c Htc Hc). lia.
Qed.

End Graph.

(** ** Class order *)

Section ClassOrder.
Context (m : Model).

Lemma yield_from_all_items (g : ClassId → gset ClassId → Res (list ClassId * gset ClassId))
    (cs : list ClassId) seen :
  yield_from_all (λ item s, c ← item; g c s) (Ok <$> cs) seen
  = yield_from_all g cs seen.
Proof.
  revert seen. induction cs as [|c cs IH]; intros seen; simpl; [done|].
  destruct (g c seen) as [[o s]| |]; simpl; [|done..]. by rewrite IH.
Qed.

Lemma order_post_nil roots seen :
  (∀ r, r ∈ roots → r ∈ seen) → order_post m roots seen [] seen.
Proof.
  intros H. split; simpl.
  - set_solver.
  - constructor.
  - intros x Hx. by apply not_elem_of_nil in Hx.
  - done.
  - intros x Hx. by apply not_elem_of_nil in Hx.
  - intros i x b Hi. by rewrite lookup_nil in Hi.
Qed.

Lemma order_post_app l1 l2 seen o1 s1 o2 s2 :
  order_post m l1 seen o1 s1 → order_post m l2 s1 o2 s2 →
  order_post m (l1 ++ l2) seen (o1 ++ o2) s2.
Proof.
  intros [E1 N1 F1 R1 C1 B1] [E2 N2 F2 R2 C2 B2]. split.
  - rewrite E2, E1, list_to_set_app_L. set_solver.
  - apply NoDup_app. split_and!; [done| |done].
    intros x Hx Hx2. apply (F2 x Hx2). rewrite E1. set_solver.
  - intros x [Hx|Hx]%elem_of_app; [by apply F1|].
    intros Hs. apply (F2 x Hx). rewrite E1. set_solver.
  - intros r [Hr|Hr]%elem_of_app; [|by apply R2].
    rewrite E2. apply R1 in Hr. set_solver.
  - intros x [Hx|Hx]%elem_of_app.
    + destruct (C1 x Hx) as (r & Hr & Hreach). exists r. set_solver.
    + destruct (C2 x Hx) as (r & Hr & Hreach). exists r. set_solver.
  - intros i x b Hi Hb.
    destruct (decide (i < length o1)) as [Hlt|Hge].
    + rewrite lookup_app_l in Hi by done.
      destruct (B1 i x b Hi Hb) as [?|(j & Hj & Hjb)]; [by left|].
      right. exists j. split; [done|]. rewrite lookup_app_l; [done|lia].
    + rewrite lookup_app_r in Hi by lia.
      destruct (B2 _ x b Hi Hb) as [Hs|(j & Hj & Hjb)].
      * rewrite E1 in Hs. apply elem_of_union in Hs as [?|Hs]; [by left|].
        right. apply elem_of_list_to_set, list_elem_of_lookup in Hs as [j Hj].
        exists j. split; [apply lookup_lt_Some in Hj; lia|].
        rewrite lookup_app_l; [done|by eapply lookup_lt_Some].
      * right. exists (length o1 + j). split; [lia|].
        rewrite lookup_app_r by lia. by replace (length o1 + j - length o1) with j by lia.
Qed.

Lemma yield_from_all_post g l seen out seen' :
  (∀ c s o s', c ∈ l → g c s = Ok (o, s') → order_post m [c] s o s') →
  yield_from_all g l seen = Ok (out, seen') →
  order_post m l seen out seen'.
Proof.
  revert seen out seen'. induction l as [|x l IH]; intros seen out seen' Hg; simpl.
  - intros [= <- <-]. apply order_post_nil.
    intros r Hr. by apply not_elem_of_nil in Hr.
  - destruct (g x seen) as [[o1 s1]| |] eqn:E1; simpl; [|done..].
    destruct (yield_from_all g l s1) as [[o2 s2]| |] eqn:E2; simpl; [|done..].
    intros [= <- <-].
    apply (order_post_app [x] l seen o1 s1 o2 s2).
    + apply (Hg x seen o1 s1); [apply list_elem_of_here|done].
    + apply IH; [|done]. intros c s o s' Hc. apply Hg. by apply list_elem_of_further.
Qed.

Lemma elem_of_yielded_items {A} (a : A) items : a ∈ yielded_items items ↔ Ok a ∈ items.
Proof.
  unfold yielded_items. rewrite list_elem_of_omap. split.
  - intros ([b|e|] & Hin & Heq); by simplify_eq.
  - intros Hin. by exists (Ok a).
Qed.

Lemma elem_of_yielded_bases b c : b ∈ yielded_bases m c ↔ base_of m b c.
Proof. apply elem_of_yielded_items. Qed.

Lemma yielded_items_cons {A} (a : A) items :
  yielded_items (Ok a :: items) = a :: yielded_items items.
Proof. done. Qed.

Lemma elem_of_until_failure {A} (item : Res A) items :
  item ∈ until_failure items → item ∈ items.
Proof.
  induction items as [|[a|e|] items IH]; simpl; [done| |set_solver..].
  intros [->|?]%elem_of_cons; [apply list_elem_of_here|].
  by apply list_elem_of_further, IH.
Qed.

Lemma until_failure_app_Ok {A} (l : list A) items :
  until_failure ((Ok <$> l) ++ items) = (Ok <$> l) ++ until_failure items.
Proof. induction l as [|a l IH]; simpl; [done|]. f_equal. apply IH. Qed.

Lemma until_failure_all_Ok {A} (items : list (Res A)) :
  (∀ item, item ∈ items → ∃ a, item = Ok a) →
  until_failure items = Ok <$> yielded_items items.
Proof.
  induction items as [|item items IH]; intros H; [done|].
  destruct (H item (list_elem_of_here _ _)) as [a ->].
  cbn [until_failure]. rewrite yielded_items_cons, fmap_cons. f_equal. apply IH. intros item' Hin. by apply H, list_elem_of_further.
Qed.

Lemma yielded_items_all {A} (items : list (Res A)) :
  items = Ok <$> yielded_items items
  ∨ ∃ e, Raise e ∈ items ∨ OutOfFuel ∈ items.
Proof.
  induction items as [|[a|e|] items IH].
  - by left.
  - rewrite yielded_items_cons, fmap_cons.
    destruct IH as [IH|[e [IH|IH]]].
    + left. by f_equal.
    + right. exists e. left. by apply list_elem_of_further.
    + right. exists e. right. by apply list_elem_of_further.
  - right. exists e. left. apply list_elem_of_here.
  - right. exists AttributeError. right. apply list_elem_of_here.
Qed.

(** The items of [bases]: classes, and at most the [AttributeError] of
    an end named [baseClass] of an association that is no extension. *)
Lemma bases_items c item :
  item ∈ bases m c →
  (∃ b, item = Ok b)
  ∨ (item = Raise AttributeError
     ∧ ∃ a s, a ∈ Class.ownedAttribute (cls m c)
              ∧ Property.association (prop m a) = Some s
              ∧ Property.name (prop m a) = Some "baseClass"
              ∧ Association.isExtension s = false).
Proof.
  unfold bases. intros Hin%elem_of_until_failure.
  apply elem_of_app in Hin as [Hin|Hin].
  - apply list_elem_of_fmap in Hin as (b & -> & _). left. by exists b.
  - apply list_elem_of_omap in Hin as (a & Ha & Hitem).
    unfold metaclass_base, ownedEnd_class_ in Hitem.
    destruct (Property.association (prop m a)) as [s|] eqn:Es; [|done].
    case_bool_decide as Hn; [|done].
    destruct (Association.isExtension s) eqn:Ex; simplify_eq.
    + left. by eexists.
    + right. split; [done|]. by exists a, s.
Qed.

Lemma bases_return U c :
  metaclass_ends m U → c ∈ U → bases m c = Ok <$> yielded_bases m c.
Proof.
  intros Hends Hc.
  destruct (yielded_items_all (bases m c)) as [H|[e [H|H]]]; [done|exfalso..].
  - apply (bases_items c) in H as [[b ?]|(_ & a & s & Ha & Hs & Hn & Hx)]; [done|].
    by rewrite (Hends c a s Hc Ha Hs Hn) in Hx.
  - by apply (bases_items c) in H as [[b ?]|[? _]].
Qed.

Lemma yield_from_all_yielded {A}
    (g : A → gset ClassId → Res (list ClassId * gset ClassId)) items seen r :
  yield_from_all (λ item s, c ← item; g c s) items seen = Ok r →
  yield_from_all g (yielded_items items) seen = Ok r
  ∧ items = Ok <$> yielded_items items.
Proof.
  revert seen r. induction items as [|[a|e|] items IH]; intros seen r;
    [done| |done..].
  rewrite yielded_items_cons, fmap_cons. cbn [yield_from_all mbind res_bind].
  destruct (g a seen) as [[o1 s1]| |] eqn:E1; [|done..]. simpl.
  destruct (yield_from_all (λ item s, c ← item; g c s) items s1)
    as [[o2 s2]| |] eqn:E2; [|done..].
  intros [= <-]. destruct (IH _ _ E2) as [-> Hitems].
  split; [done|]. by f_equal.
Qed.

Lemma reaches_base r x c : base_of m r c → reaches m r x → tc (base_of m) x c.
Proof.
  intros Hr [->|Hx]; [by apply tc_once|].
  eapply tc_r; done.
Qed.

Lemma order_post_yield c seen out seen' :
  ¬ tc (base_of m) c c → c ∉ seen →
  order_post m (yielded_bases m c) seen out seen' →
  order_post m [c] seen (out ++ [c]) ({[c]} ∪ seen').
Proof.
  intros Hcyc Hc [E N F R C B].
  assert (c ∉ out) as Hout.
  { intros Hin. destruct (C c Hin) as (r & Hr%elem_of_yielded_bases & Hreach).
    apply Hcyc. by eapply reaches_base. }
  split.
  - rewrite E, list_to_set_app_L. set_solver.
  - apply NoDup_app. split_and!; [done| |apply NoDup_singleton].
    intros x Hx ->%list_elem_of_singleton. done.
  - intros x [Hx| ->%list_elem_of_singleton]%elem_of_app; [by apply F|done].
  - intros r ->%list_elem_of_singleton. set_solver.
  - intros x [Hx| ->%list_elem_of_singleton]%elem_of_app.
    + exists c. split; [apply list_elem_of_here|]. right.
      destruct (C x Hx) as (r & Hr%elem_of_yielded_bases & Hreach).
      by eapply reaches_base.
    + exists c. split; [apply list_elem_of_here|by left].
  - intros i x b Hi Hb.
    destruct (decide (i < length out)) as [Hlt|Hge].
    + rewrite lookup_app_l in Hi by done.
      destruct (B i x b Hi Hb) as [?|(j & Hj & Hjb)]; [by left|].
      right. exists j. split; [done|]. rewrite lookup_app_l; [done|lia].
    + rewrite lookup_app_r in Hi by lia.
      apply list_lookup_singleton_Some in Hi as [Hi ->].
      assert (b ∈ seen') as Hs by by apply R, elem_of_yielded_bases.
      rewrite E in Hs. apply elem_of_union in Hs as [?|Hs]; [by left|].
      right. apply elem_of_list_to_set, list_elem_of_lookup in Hs as [j Hj].
      exists j. split; [apply lookup_lt_Some in Hj; lia|].
      rewrite lookup_app_l; [done|by eapply lookup_lt_Some].
Qed.

Lemma order_correct U fuel c seen out seen' :
  closed m U → acyclic m U → c ∈ U →
  order fuel m c seen = Ok (out, seen') →
  order_post m [c] seen out seen'.
Proof.
  intros Hcl Hac. revert c seen out seen'.
  induction fuel as [|fuel IH]; intros c seen out seen' Hc; simpl; [done|].
  case_bool_decide as Hseen.
  - intros [= <- <-]. apply order_post_nil.
    by intros r ->%list_elem_of_singleton.
  - destruct (yield_from_all _ (bases m c) seen) as [[o s]| |] eqn:E;
      simpl; [|done..].
    intros [= <- <-]. apply order_post_yield; [by apply Hac|done|].
    apply yield_from_all_yielded in E as [E _].
    eapply yield_from_all_post; [|exact E].
    intros b s1 o1 s1' Hb%elem_of_yielded_bases. apply IH. by eapply Hcl.
Qed.

(** Running out of fuel: the recursion followed a chain of bases as
    long as the fuel. *)

Lemma yield_from_all_OutOfFuel {A} (g : A → gset ClassId → Res (list ClassId * gset ClassId)) l seen :
  yield_from_all g l seen = OutOfFuel → ∃ x s, x ∈ l ∧ g x s = OutOfFuel.
Proof.
  revert seen. induction l as [|x l IH]; intros seen; simpl; [done|].
  destruct (g x seen) as [[o1 s1]| |] eqn:E1; simpl; [|done|].
  - destruct (yield_from_all g l s1) as [[o2 s2]| |] eqn:E2; simpl; [done..|].
    intros _. destruct (IH _ E2) as (y & s & Hy & Hs).
    exists y, s. split; [by apply list_elem_of_further|done].
  - intros _. exists x, seen. split; [apply list_elem_of_here|done].
Qed.

Lemma yield_from_all_Raise {A} (g : A → gset ClassId → Res (list ClassId * gset ClassId)) l seen e :
  yield_from_all g l seen = Raise e → ∃ x s, x ∈ l ∧ g x s = Raise e.
Proof.
  revert seen. induction l as [|x l IH]; intros seen; simpl; [done|].
  destruct (g x seen) as [[o1 s1]| |] eqn:E1; simpl; [| |done].
  - destruct (yield_from_all g l s1) as [[o2 s2]| |] eqn:E2; simpl; [done| |done].
    intros [= <-]. destruct (IH _ E2) as (y & s & Hy & Hs).
    exists y, s. split; [by apply list_elem_of_further|done].
  - intros [= <-]. exists x, seen. split; [apply list_elem_of_here|done].
Qed.

(** [order] fails only where [bases] fails, at the class it is called
    on or at one of its transitive bases. *)
Lemma order_Raise fuel c seen e :
  order fuel m c seen = Raise e →
  e = AttributeError ∧ ∃ c', reaches m c c' ∧ Raise e ∈ bases m c'.
Proof.
  revert c seen. induction fuel as [|fuel IH]; intros c seen; simpl; [done|].
  case_bool_decide; [done|].
  destruct (yield_from_all _ _ _) as [[o s]| |] eqn:E; simpl; [done| |done].
  intros [= <-].
  apply yield_from_all_Raise in E as ([b|e'|] & s & Hitem & Hb); simpl in Hb;
    [| |done].
  - destruct (IH _ _ Hb) as (He & c' & Hreach & Hc'). split; [done|].
    exists c'. split; [|done]. right. by eapply reaches_base.
  - injection Hb as ->. split.
    + by destruct (bases_items _ _ Hitem) as [[? ?]|[[= ->] _]].
    + exists c. split; [by left|done].
Qed.

Lemma order_no_Raise U fuel c seen e :
  closed m U → metaclass_ends m U → c ∈ U → order fuel m c seen ≠ Raise e.
Proof.
  intros Hcl Hends Hc (_ & c' & Hreach & Hraise)%order_Raise.
  assert (c' ∈ U) as Hc'.
  { destruct Hreach as [->|Htc]; [done|]. by eapply closed_tc. }
  rewrite (bases_return U c' Hends Hc') in Hraise.
  by apply list_elem_of_fmap in Hraise as (? & ? & _).
Qed.

Lemma order_OutOfFuel fuel c seen :
  order fuel m c seen = OutOfFuel → ∃ l, chain (base_of m) (c :: l) ∧ length l = fuel.
Proof.
  revert c seen. induction fuel as [|fuel IH]; intros c seen; simpl.
  - intros _. exists []. split; [constructor|done].
  - case_bool_decide; [done|].
    destruct (yield_from_all _ _ _) as [[o s]| |] eqn:E; simpl; [done..|].
    intros _. apply yield_from_all_OutOfFuel in E as ([b|e'|] & s & Hb & Hs);
      simpl in Hs; [|done|].
    + destruct (IH _ _ Hs) as (l & Hl & Hlen).
      exists (b :: l). split; [by constructor|by simpl; rewrite Hlen].
    + by destruct (bases_items _ _ Hb) as [[? ?]|[? _]].
Qed.

Lemma order_enough_fuel U fuel c seen :
  closed m U → acyclic m U → c ∈ U → length U ≤ fuel →
  order fuel m c seen ≠ OutOfFuel.
Proof.
  intros Hcl Hac Hc Hfuel (l & Hl & Hlen)%order_OutOfFuel.
  pose proof (chain_bounded _ U l c Hcl Hac Hc Hl) as Hb. simpl in Hb. lia.
Qed.

Lemma order_terminates U fuel c seen :
  closed m U → acyclic m U → metaclass_ends m U → c ∈ U → length U ≤ fuel →
  ∃ out seen', order fuel m c seen = Ok (out, seen').
Proof.
  intros Hcl Hac Hends Hc Hfuel.
  destruct (order fuel m c seen) as [[out seen']|e|] eqn:E; [by eauto| |].
  - by apply (order_no_Raise U) in E.
  - by apply (order_enough_fuel U) in E.
Qed.

(** More fuel does not change a result. *)

Lemma yield_from_all_mono {A} (g g' : A → gset ClassId → Res (list ClassId * gset ClassId)) l seen r :
  (∀ x s r, g x s = Ok r → g' x s = Ok r) →
  yield_from_all g l seen = Ok r → yield_from_all g' l seen = Ok r.
Proof.
  intros Hg. revert seen r. induction l as [|x l IH]; intros seen r; simpl; [done|].
  destruct (g x seen) as [[o1 s1]| |] eqn:E1; simpl; [|done..].
  rewrite (Hg _ _ _ E1). simpl.
  destruct (yield_from_all g l s1) as [[o2 s2]| |] eqn:E2; simpl; [|done..].
  by rewrite (IH _ _ E2).
Qed.

Lemma order_fuel_mono fuel fuel' c seen r :
  fuel ≤ fuel' → order fuel m c seen = Ok r → order fuel' m c seen = Ok r.
Proof.
  revert fuel' c seen r. induction fuel as [|fuel IH]; intros fuel' c seen r Hle; simpl; [done|].
  destruct fuel' as [|fuel']; [lia|]. simpl.
  case_bool_decide; [done|].
  destruct (yield_from_all _ (bases m c) seen) as [[o s]| |] eqn:E; simpl; [|done..].
  intros Hr.
  rewrite (yield_from_all_mono _ (λ item s, b ← item; order fuel' m b s) _ _ _
             (λ item s' r',
                match item with
                | Ok b => IH fuel' b s' r' ltac:(lia)
                | _ => λ H, H
                end) E).
  exact Hr.
Qed.

(** The whole of [order_classes] on a collection of classes. *)

Lemma order_classes_items fuel cs :
  order_classes fuel m (Ok <$> cs)
  = '(out, _) ← yield_from_all (order fuel m) cs ∅; Ok out.
Proof. unfold order_classes. by rewrite yield_from_all_items. Qed.

Lemma yield_from_all_terminates U fuel cs seen :
  closed m U → acyclic m U → metaclass_ends m U →
  (∀ c, c ∈ cs → c ∈ U) → length U ≤ fuel →
  ∃ out seen', yield_from_all (order fuel m) cs seen = Ok (out, seen').
Proof.
  intros Hcl Hac Hends Hcs Hfuel. revert seen.
  induction cs as [|c cs IH]; intros seen; simpl; [by eauto|].
  destruct (order_terminates U fuel c seen) as (o1 & s1 & ->);
    [done|done|done|apply Hcs, list_elem_of_here|done|]. simpl.
  destruct (IH (λ x Hx, Hcs x (list_elem_of_further _ _ _ Hx)) s1) as (o2 & s2 & ->).
  simpl. by eauto.
Qed.

Lemma order_classes_post U fuel cs out :
  closed m U → acyclic m U → (∀ c, c ∈ cs → c ∈ U) →
  order_classes fuel m (Ok <$> cs) = Ok out →
  ∃ seen', order_post m cs ∅ out seen'.
Proof.
  intros Hcl Hac Hcs. rewrite order_classes_items.
  destruct (yield_from_all _ _ _) as [[o s]| |] eqn:E; simpl; [|done..].
  intros [= <-]. exists s. eapply yield_from_all_post; [|done].
  intros c s1 o1 s1' Hc. eapply order_correct; eauto.
Qed.

Lemma order_post_tc roots out seen' i C B :
  order_post m roots ∅ out seen' →
  out !! i = Some C → tc (base_of m) B C →
  ∃ j, j < i ∧ out !! j = Some B.
Proof.
  intros Hpost Hi Htc. revert i Hi.
  induction Htc as [x y Hxy|x y z Hxy Hyz IH]; intros i Hi.
  - destruct (post_bases _ _ _ _ _ Hpost i y x Hi Hxy) as [Hs|?]; [|done].
    by apply not_elem_of_empty in Hs.
  - destruct (IH i Hi) as (j & Hj & Hy).
    destruct (post_bases _ _ _ _ _ Hpost j y x Hy Hxy) as [Hs|(k & Hk & Hx)].
    + by apply not_elem_of_empty in Hs.
    + exists k. split; [lia|done].
Qed.

Lemma generalization_base b c : generalization_of m b c → base_of m b c.
Proof.
  unfold generalization_of, base_of, bases. intros Hb.
  rewrite until_failure_app_Ok. apply elem_of_app. left.
  by apply list_elem_of_fmap_2.
Qed.

Lemma tc_generalization_base b c :
  tc (generalization_of m) b c → tc (base_of m) b c.
Proof.
  induction 1 as [x y Hxy|x y z Hxy Hyz IH].
  - by apply tc_once, generalization_base.
  - eapply tc_l; [by apply generalization_base|done].
Qed.

Lemma closed_Forall U :
  Forall (λ c, Forall (λ b, b ∈ U) (yielded_bases m c)) U → closed m U.
Proof.
  intros H c b Hc Hb%elem_of_yielded_bases. rewrite Forall_forall in H.
  specialize (H c Hc). rewrite Forall_forall in H. by apply H.
Qed.

Lemma ranked_Forall U (rank : ClassId → nat) :
  Forall (λ c, Forall (λ b, rank b < rank c) (yielded_bases m c)) U →
  ∀ c b, c ∈ U → base_of m b c → rank b < rank c.
Proof.
  intros H c b Hc Hb%elem_of_yielded_bases. rewrite Forall_forall in H.
  specialize (H c Hc). rewrite Forall_forall in H. by apply H.
Qed.

Lemma metaclass_ends_Forall U :
  Forall (λ c, bases m c = Ok <$> yielded_bases m c) U → metaclass_ends m U.
Proof.
  intros H c a s Hc Ha Hs Hn. rewrite Forall_forall in H. specialize (H c Hc).
  destruct (Association.isExtension s) eqn:Ex; [done|exfalso].
  assert (∀ (items : list (Res ClassId)) l,
            until_failure items = Ok <$> l → items = Ok <$> l) as Hinv.
  { induction items as [|[b|e|] items IH]; intros [|x l]; simpl; try done.
    intros [= -> Hrest]. f_equal. by apply IH. }
  unfold bases in H at 1. apply Hinv in H.
  assert (Raise AttributeError
          ∈ (Ok <$> Class.generalization (cls m c))
            ++ omap (λ a, metaclass_base (prop m a))
                 (Class.ownedAttribute (cls m c))) as Hin.
  { apply elem_of_app. right. apply list_elem_of_omap. exists a.
    split; [done|]. unfold metaclass_base, ownedEnd_class_.
    by rewrite Hs, Hn, Ex, bool_decide_eq_true_2. }
  rewrite H in Hin. by apply list_elem_of_fmap in Hin as (? & ? & _).
Qed.

End ClassOrder.

(** C1 as stated fails: the classes of [plain_baseClass] form a finite
    acyclic collection, and [order_classes] does not return a sequence
    for it: [bases] raises an [AttributeError] at the end [baseClass] of
    [Foo], whose association is no extension. *)
Lemma order_classes_raises_at_plain_association :
  closed plain_baseClass [0; 1]
  ∧ acyclic plain_baseClass [0; 1]
  ∧ order_classes 2 plain_baseClass (Ok <$> [0; 1]) = Raise AttributeError.
Proof.
  assert (closed plain_baseClass [0; 1]) as Hcl.
  { apply closed_Forall. vm_compute. repeat constructor. }
  split_and!; [done| |by vm_compute].
  apply (ranked_acyclic _ _ id Hcl), ranked_Forall. vm_compute. repeat constructor.
Qed.

(** C1, amended. On a finite collection [U] of classes that is closed
    under [bases] and acyclic, and in which every association end named
    [baseClass] is the end of an extension, [order_classes] returns a
    sequence in which every class occurs at most once, every class of
    the input (and nothing but the input classes and their transitive
    bases) occurs, and every transitive generalization base [B] of a
    class [C] of the sequence stands at a strictly smaller position than
    [C]; so does every transitive base through [baseClass] ends. *)
Theorem order_classes_topological (m : Model) (U cs : list ClassId) (fuel : nat) :
  closed m U → acyclic m U → metaclass_ends m U →
  (∀ c, c ∈ cs → c ∈ U) → length U ≤ fuel →
  ∃ out,
    order_classes fuel m (Ok <$> cs) = Ok out
    ∧ NoDup out
    ∧ (∀ c, c ∈ cs → c ∈ out)
    ∧ (∀ x, x ∈ out → ∃ r, r ∈ cs ∧ reaches m r x)
    ∧ (∀ i C B, out !! i = Some C → tc (generalization_of m) B C →
         ∃ j, j < i ∧ out !! j = Some B)
    ∧ (∀ i C B, out !! i = Some C → tc (base_of m) B C →
         ∃ j, j < i ∧ out !! j = Some B).
Proof.
  intros Hcl Hac Hends Hcs Hfuel.
  destruct (yield_from_all_terminates m U fuel cs ∅ Hcl Hac Hends Hcs Hfuel)
    as (out & seen' & E).
  assert (order_classes fuel m (Ok <$> cs) = Ok out) as Hout.
  { rewrite order_classes_items, E. done. }
  exists out. split; [done|].
  destruct (order_classes_post m U fuel cs out Hcl Hac Hcs Hout) as [s Hpost].
  split_and!.
  - by destruct Hpost.
  - intros c Hc. apply (post_roots _ _ _ _ _ Hpost) in Hc.
    rewrite (post_seen _ _ _ _ _ Hpost) in Hc. set_solver.
  - by destruct Hpost.
  - intros i C B Hi Htc. eapply order_post_tc; [done..|].
    by apply tc_generalization_base.
  - intros i C B Hi Htc. by eapply order_post_tc.
Qed.

Lemma order_classes_topological_witness :
  ∃ out,
    order_classes 5 diamond (Ok <$> [3; 4]) = Ok out
    ∧ NoDup out
    ∧ (∀ c, c ∈ [3; 4] → c ∈ out)
    ∧ (∀ x, x ∈ out → ∃ r, r ∈ [3; 4] ∧ reaches diamond r x)
    ∧ (∀ i C B, out !! i = Some C → tc (generalization_of diamond) B C →
         ∃ j, j < i ∧ out !! j = Some B)
    ∧ (∀ i C B, out !! i = Some C → tc (base_of diamond) B C →
         ∃ j, j < i ∧ out !! j = Some B).
Proof.
  assert (closed diamond [0; 1; 2; 3; 4]) as Hcl.
  { apply closed_Forall. vm_compute. repeat constructor. }
  apply (order_classes_topological diamond [0; 1; 2; 3; 4] [3; 4] 5).
  - exact Hcl.
  - apply (ranked_acyclic _ _ id Hcl), ranked_Forall.
    vm_compute. repeat constructor.
  - apply metaclass_ends_Forall. vm_compute. repeat constructor.
  - set_solver.
  - simpl. lia.
Defined.

(** C10 as stated fails: on the finite acyclic model [plain_baseClass]
    [order_classes] ends, but with an [AttributeError] and not with a
    sequence, whatever the order of the input. *)
Lemma order_classes_ends_with_AttributeError :
  acyclic plain_baseClass [0; 1]
  ∧ order_classes 2 plain_baseClass (Ok <$> [1; 0]) = Raise AttributeError
  ∧ order_classes 3 plain_baseClass (Ok <$> [0]) = Raise AttributeError.
Proof.
  assert (closed plain_baseClass [0; 1]) as Hcl.
  { apply closed_Forall. vm_compute. repeat constructor. }
  split_and!; [|by vm_compute..].
  apply (ranked_acyclic _ _ id Hcl), ranked_Forall. vm_compute. repeat constructor.
Qed.

(** C10, amended. On a finite collection [U] of classes whose graph of
    [bases] (generalizations and the metaclass edges of [baseClass]
    attributes) is acyclic, [order_classes] ends with any recursion
    bound of at least [length U]: it returns a sequence of at most
    [length U] classes, or it raises the [AttributeError] of an end
    named [baseClass] of an association that is no extension. When the
    collection has no such end it returns, and the result does not
    depend on the bound. *)
Theorem order_classes_terminates (m : Model) (U cs : list ClassId) (fuel : nat) :
  closed m U → acyclic m U → (∀ c, c ∈ cs → c ∈ U) → length U ≤ fuel →
  order_classes fuel m (Ok <$> cs) ≠ OutOfFuel
  ∧ (∀ e, order_classes fuel m (Ok <$> cs) = Raise e →
       e = AttributeError
       ∧ ∃ c a s,
           c ∈ U ∧ a ∈ Class.ownedAttribute (cls m c)
           ∧ Property.association (prop m a) = Some s
           ∧ Property.name (prop m a) = Some "baseClass"
           ∧ Association.isExtension s = false)
  ∧ (∀ out, order_classes fuel m (Ok <$> cs) = Ok out → length out ≤ length U)
  ∧ (metaclass_ends m U →
     ∃ out,
       order_classes fuel m (Ok <$> cs) = Ok out
       ∧ order_classes (length U) m (Ok <$> cs) = Ok out
       ∧ length out ≤ length U).
Proof.
  intros Hcl Hac Hcs Hfuel.
  assert (∀ fuel' out, order_classes fuel' m (Ok <$> cs) = Ok out →
                       length out ≤ length U) as Hlen.
  { intros fuel' out Hout.
    destruct (order_classes_post m U _ cs out Hcl Hac Hcs Hout) as [s Hpost].
    apply submseteq_length, NoDup_submseteq; [by destruct Hpost|].
    intros x Hx. destruct (post_reach _ _ _ _ _ Hpost x Hx) as (r & Hr & [->|Htc]).
    - by apply Hcs.
    - eapply closed_tc; [done| |done]. by apply Hcs. }
  split_and!.
  - rewrite order_classes_items.
    destruct (yield_from_all _ _ _) as [[o s]| |] eqn:E; [done..|]. intros _.
    apply yield_from_all_OutOfFuel in E as (c & s & Hc & Hs).
    by apply (order_enough_fuel m U) in Hs; [|done|done|apply Hcs|].
  - intros e. rewrite order_classes_items.
    destruct (yield_from_all _ _ _) as [[o s]| |] eqn:E; [done| |done].
    intros [= <-]. apply yield_from_all_Raise in E as (c & s & Hc & Hs).
    apply order_Raise in Hs as (-> & c' & Hreach & Hraise). split; [done|].
    assert (c' ∈ U) as Hc'.
    { destruct Hreach as [->|Htc]; [by apply Hcs|].
      eapply closed_tc; [done| |done]. by apply Hcs. }
    destruct (bases_items m c' _ Hraise) as [[? ?]|(_ & a & s' & H)]; [done|].
    by exists c', a, s'.
  - apply Hlen.
  - intros Hends.
    destruct (yield_from_all_terminates m U (length U) cs ∅ Hcl Hac Hends Hcs (le_n _))
      as (out & seen' & E).
    exists out.
    assert (order_classes (length U) m (Ok <$> cs) = Ok out) as Hout.
    { rewrite order_classes_items, E. done. }
    split_and!; [|done|by eapply Hlen].
    rewrite order_classes_items.
    rewrite (yield_from_all_mono (order (length U) m) (order fuel m) _ _ _
               (λ x s r, order_fuel_mono m (length U) fuel x s r Hfuel) E).
    done.
Qed.

Lemma order_classes_terminates_witness :
  order_classes 7 diamond (Ok <$> [3; 4; 1; 2; 0]) ≠ OutOfFuel
  ∧ (∀ e, order_classes 7 diamond (Ok <$> [3; 4; 1; 2; 0]) = Raise e →
       e = AttributeError
       ∧ ∃ c a s,
           c ∈ [0; 1; 2; 3; 4] ∧ a ∈ Class.ownedAttribute (cls diamond c)
           ∧ Property.association (prop diamond a) = Some s
           ∧ Property.name (prop diamond a) = Some "baseClass"
           ∧ Association.isExtension s = false)
  ∧ (∀ out, order_classes 7 diamond (Ok <$> [3; 4; 1; 2; 0]) = Ok out →
       length out ≤ length [0; 1; 2; 3; 4])
  ∧ (metaclass_ends diamond [0; 1; 2; 3; 4] →
     ∃ out,
       order_classes 7 diamond (Ok <$> [3; 4; 1; 2; 0]) = Ok out
       ∧ order_classes (length [0; 1; 2; 3; 4]) diamond (Ok <$> [3; 4; 1; 2; 0]) = Ok out
       ∧ length out ≤ length [0; 1; 2; 3; 4]).
Proof.
  assert (closed diamond [0; 1; 2; 3; 4]) as Hcl.
  { apply closed_Forall. vm_compute. repeat constructor. }
  apply (order_classes_terminates diamond [0; 1; 2; 3; 4] [3; 4; 1; 2; 0] 7).
  - exact Hcl.
  - apply (ranked_acyclic _ _ id Hcl), ranked_Forall.
    vm_compute. repeat constructor.
  - set_solver.
  - simpl. lia.
Defined.

Example order_classes_diamond :
  order_classes 5 diamond (Ok <$> [3; 4; 1; 2; 0]) = Ok [0; 1; 2; 3; 4].
Proof. vm_compute. reflexivity. Qed.

(** ** Simple types *)

Lemma any_res_OutOfFuel {A} (f : A → Res bool) l :
  any_res f l = OutOfFuel → ∃ x, x ∈ l ∧ f x = OutOfFuel.
Proof.
  induction l as [|x l IH]; simpl; [done|].
  destruct (f x) as [[]| |] eqn:E; simpl; [done| |done|].
  - intros (y & Hy & Hf)%IH. exists y. split; [by apply list_elem_of_further|done].
  - intros _. exists x. split; [apply list_elem_of_here|done].
Qed.

Lemma any_res_Raise {A} (f : A → Res bool) l e :
  any_res f l = Raise e → ∃ x, x ∈ l ∧ f x = Raise e.
Proof.
  induction l as [|x l IH]; simpl; [done|].
  destruct (f x) as [[]| |] eqn:E; simpl; [done| | |done].
  - intros (y & Hy & Hf)%IH. exists y. split; [by apply list_elem_of_further|done].
  - intros [= <-]. exists x. split; [apply list_elem_of_here|done].
Qed.

Lemma any_res_true {A} (f : A → Res bool) l :
  any_res f l = Ok true → ∃ x, x ∈ l ∧ f x = Ok true.
Proof.
  induction l as [|x l IH]; simpl; [done|].
  destruct (f x) as [[]| |] eqn:E; simpl; [|  |done..].
  - intros _. exists x. split; [apply list_elem_of_here|done].
  - intros (y & Hy & Hf)%IH. exists y. split; [by apply list_elem_of_further|done].
Qed.

Lemma any_res_false {A} (f : A → Res bool) l :
  any_res f l = Ok false → ∀ x, x ∈ l → f x = Ok false.
Proof.
  induction l as [|x l IH]; simpl; [by intros _ y Hy%not_elem_of_nil|].
  destruct (f x) as [[]| |] eqn:E; simpl; [done| |done..].
  intros H y [->|Hy]%elem_of_cons; [done|by apply IH].
Qed.

Lemma existsb_elem_of {A} `{EqDecision A} (x : A) (l : list A) :
  existsb (λ y, bool_decide (y = x)) l = true ↔ x ∈ l.
Proof.
  rewrite existsb_exists. split.
  - intros (y & Hy & ->%bool_decide_eq_true). by apply list_elem_of_In.
  - intros Hx. exists x. split; [by apply list_elem_of_In|by apply bool_decide_eq_true].
Qed.

Section SimpleTypes.
Context (m : Model).

Lemma is_simple_type_no_Raise fuel c e : is_simple_type fuel m c ≠ Raise e.
Proof.
  revert c. induction fuel as [|fuel IH]; intros c; simpl; [done|].
  destruct (existsb _ _); [done|].
  intros (b & _ & Hb)%any_res_Raise. by apply IH in Hb.
Qed.

Lemma is_simple_type_OutOfFuel fuel c :
  is_simple_type fuel m c = OutOfFuel →
  ∃ l, chain (generalization_of m) (c :: l) ∧ length l = fuel.
Proof.
  revert c. induction fuel as [|fuel IH]; intros c; simpl.
  - intros _. exists []. split; [constructor|done].
  - destruct (existsb _ _); [done|].
    intros (b & Hb & (l & Hl & Hlen)%IH)%any_res_OutOfFuel.
    exists (b :: l). split; [by constructor|by simpl; rewrite Hlen].
Qed.

Lemma is_simple_type_sound fuel c b :
  is_simple_type fuel m c = Ok b → b = true ↔ simple_type m c.
Proof.
  revert c b. induction fuel as [|fuel IH]; intros c b; simpl; [done|].
  destruct (existsb _ _) eqn:Etag.
  - intros [= <-]. split; [|done]. intros _.
    apply simple_tagged. by apply existsb_elem_of.
  - destruct b; intros Hany.
    + split; [|done]. intros _.
      apply any_res_true in Hany as (g & Hg & Hs).
      apply (simple_inherited m c g Hg). by apply (IH g true Hs).
    + split; [done|]. intros Hsimple. inversion Hsimple as [? Htag|? g Hg Hs]; subst.
      * apply existsb_elem_of in Htag. congruence.
      * pose proof (any_res_false _ _ Hany g Hg) as Hf.
        by apply (IH g false Hf) in Hs.
Qed.

Lemma is_simple_type_terminates U fuel c :
  closed_under (generalization_of m) U → acyclic_on (generalization_of m) U →
  c ∈ U → length U ≤ fuel →
  ∃ b, is_simple_type fuel m c = Ok b.
Proof.
  intros Hcl Hac Hc Hfuel.
  destruct (is_simple_type fuel m c) as [b|e|] eqn:E; [by eauto| |].
  - by apply is_simple_type_no_Raise in E.
  - apply is_simple_type_OutOfFuel in E as (l & Hl & Hlen).
    pose proof (chain_bounded _ U l c Hcl Hac Hc Hl) as Hb. simpl in Hb. lia.
Qed.


End SimpleTypes.

(** ** Type resolution *)

Section Resolution.
Context (fuel : nat).

Lemma is_simple_type_same m m0 c :
  cls m = cls m0 → is_simple_type fuel m c = is_simple_type fuel m0 c.
Proof.
  intros E. revert c. induction fuel as [|n IH]; intros c; simpl; [done|].
  rewrite E. destruct (existsb _ _); [done|].
  induction (Class.generalization (cls m0 c)) as [|g l IHl]; simpl; [done|].
  rewrite IH. destruct (is_simple_type n m0 g) as [[]| |]; simpl; done.
Qed.

Lemma resolve_property_same m m0 p :
  same_classes m m0 → resolve_property fuel m p = resolve_property fuel m0 p.
Proof.
  intros [Ec Es]. unfold resolve_property, resolve_simple_type, resolve_type_value,
    class_named, has_simple_type.
  rewrite Ec, Es.
  repeat case_match; simplify_eq/=; rewrite ?(is_simple_type_same m m0) by done; done.
Qed.

Lemma same_classes_set_property m m0 a p :
  same_classes m m0 → same_classes (set_property m a p) m0.
Proof. by intros [? ?]. Qed.

Lemma int_alias_not_str v : v ∈ int_aliases → opt_in v str_aliases = false.
Proof.
  unfold int_aliases. rewrite !elem_of_cons, elem_of_nil.
  intros [->|[->|[->|[->|[->|[]]]]]]; by vm_compute.
Qed.

Lemma resolve_property_canonical m p0 p :
  resolve_property fuel m p0 = Ok p → canonical fuel m p0 p.
Proof.
  unfold resolve_property, resolve_simple_type, resolve_type_value, opt_in.
  intros Hres. split; intros Halias.
  - rewrite (bool_decide_eq_true_2 _ Halias) in Hres. simpl in Hres.
    destruct (has_simple_type fuel m (Property.type p0)) as [[]| |]; simpl in Hres;
      [| |done..]; try case_match; simplify_eq/=; eauto.
  - pose proof (int_alias_not_str _ Halias) as Hns. unfold opt_in in Hns.
    rewrite Hns, (bool_decide_eq_true_2 _ Halias) in Hres. simpl in Hres.
    destruct (has_simple_type fuel m (Property.type p0)) as [b| |]; simpl in Hres;
      [|done..].
    exists b. split; [done|]. destruct b; try case_match; simplify_eq/=; eauto.
Qed.

Lemma resolve_property_stable m p0 p p' :
  canonical fuel m p0 p → resolve_property fuel m p = Ok p' → canonical fuel m p0 p'.
Proof.
  intros [Hstr Hint] Hres. split; intros Halias.
  - specialize (Hstr Halias).
    unfold resolve_property, resolve_simple_type, resolve_type_value in Hres.
    rewrite Hstr in Hres. simpl in Hres.
    destruct (has_simple_type fuel m (Property.type p)) as [[]| |]; simpl in Hres;
      [| |done..]; try case_match; simplify_eq/=; eauto.
  - destruct (Hint Halias) as (b & Hb & Htv & Hty). exists b. split; [done|].
    unfold resolve_property, resolve_simple_type, resolve_type_value in Hres.
    rewrite Htv in Hres. destruct b; simpl in Hres.
    + rewrite Hty in Hres. simpl in Hres. try case_match; simplify_eq/=; eauto.
    + rewrite Hty, Hb in Hres. simpl in Hres. try case_match; simplify_eq/=; eauto.
Qed.

Lemma resolve_each_invariant (Q : Property.t → Prop) m0 p0 a props m m' :
  (∀ p', resolve_property fuel m0 p0 = Ok p' → Q p') →
  (∀ p p', Q p → resolve_property fuel m0 p = Ok p' → Q p') →
  same_classes m m0 →
  resolve_each fuel m props = Ok m' →
  Q (prop m a) ∨ (prop m a = p0 ∧ a ∈ props) →
  Q (prop m' a).
Proof.
  intros Hfirst Hstable.
  revert m. induction props as [|x props IH]; intros m Hsame; simpl.
  - intros [= <-] [H|[_ H%not_elem_of_nil]]; done.
  - rewrite (resolve_property_same m m0) by done.
    destruct (resolve_property fuel m0 (prop m x)) as [p'| |] eqn:E; simpl; [|done..].
    intros Hrest Hinv. apply (IH _ (same_classes_set_property m m0 x p' Hsame) Hrest).
    simpl. destruct (decide (a = x)) as [->|Hne].
    + left. destruct Hinv as [Hc|[Hp _]].
      * by eapply Hstable.
      * rewrite Hp in E. by apply Hfirst.
    + destruct Hinv as [Hc|[Hp Hin]]; [by left|].
      right. split; [done|]. apply elem_of_cons in Hin as [?|?]; done.
Qed.

Lemma resolve_each_canonical m0 p0 a props m m' :
  same_classes m m0 →
  resolve_each fuel m props = Ok m' →
  canonical fuel m0 p0 (prop m a) ∨ (prop m a = p0 ∧ a ∈ props) →
  canonical fuel m0 p0 (prop m' a).
Proof.
  apply resolve_each_invariant.
  - apply resolve_property_canonical.
  - apply resolve_property_stable.
Qed.


End Resolution.

(** C2 as stated fails: [count] has the type value [Integer], an alias of
    [int], and resolution leaves it with the type value [str], because the
    property also refers to a simple type. *)
Lemma int_alias_of_simple_type_is_str :
  ∃ m',
    resolve_attribute_type_values 1 simple_typed = Ok m'
    ∧ 0 ∈ ElementFactory.select_Property simple_typed
    ∧ Property.typeValue (prop simple_typed 0) = Some "Integer"
    ∧ Property.typeValue (prop m' 0) = Some "str"
    ∧ Property.typeValue (prop m' 0) ≠ Some "int".
Proof.
  eexists. split; [vm_compute; reflexivity|].
  split; [by vm_compute; apply elem_of_cons; left|]. by vm_compute.
Qed.

(** C2, amended. When [resolve_attribute_type_values] returns, every
    property whose raw type value is one of [String], [str], [object] has
    the type value [str]; every property whose raw type value is one of
    [Integer], [int], [Boolean], [bool], [UnlimitedNatural] has the type
    value [int] when it refers to no type or to a type that is not simple,
    and [str] when it refers to a simple type. *)
Theorem resolve_primitive_aliases (fuel : nat) (m m' : Model) (a : PropId) :
  resolve_attribute_type_values fuel m = Ok m' →
  a ∈ ElementFactory.select_Property m →
  (Property.typeValue (prop m a) ∈ str_aliases →
     Property.typeValue (prop m' a) = Some "str")
  ∧ (Property.typeValue (prop m a) ∈ int_aliases →
     Property.type (prop m a) = None →
     Property.typeValue (prop m' a) = Some "int")
  ∧ (Property.typeValue (prop m a) ∈ int_aliases →
     ∀ t, Property.type (prop m a) = Some t →
     ∃ simple : bool,
       is_simple_type fuel m t = Ok simple
       ∧ Property.typeValue (prop m' a) = Some (if simple then "str" else "int")).
Proof.
  intros Hres Ha.
  assert (canonical fuel m (prop m a) (prop m' a)) as [Hstr Hint].
  { eapply (resolve_each_canonical fuel m (prop m a) a); [done|exact Hres|].
    right. done. }
  split_and!.
  - done.
  - intros Halias Hty. destruct (Hint Halias) as (b & Hb & Htv & _).
    rewrite Hty in Hb. simpl in Hb. by simplify_eq.
  - intros Halias t Hty. destruct (Hint Halias) as (b & Hb & Htv & _).
    rewrite Hty in Hb. simpl in Hb. by exists b.
Qed.

Lemma resolve_primitive_aliases_witness :
  (Property.typeValue (prop simple_typed 1) ∈ str_aliases →
     Property.typeValue (prop simple_typed_resolved 1) = Some "str")
  ∧ (Property.typeValue (prop simple_typed 1) ∈ int_aliases →
     Property.type (prop simple_typed 1) = None →
     Property.typeValue (prop simple_typed_resolved 1) = Some "int")
  ∧ (Property.typeValue (prop simple_typed 1) ∈ int_aliases →
     ∀ t, Property.type (prop simple_typed 1) = Some t →
     ∃ simple : bool,
       is_simple_type 1 simple_typed t = Ok simple
       ∧ Property.typeValue (prop simple_typed_resolved 1)
         = Some (if simple then "str" else "int")).
Proof.
  apply (resolve_primitive_aliases 1 simple_typed simple_typed_resolved 1).
  - vm_compute. reflexivity.
  - vm_compute. apply list_elem_of_further, list_elem_of_here.
Defined.

Example resolve_simple_typed :
  (λ a, Property.typeValue (prop simple_typed_resolved a)) <$> [0; 1; 2]
  = [Some "str"; Some "str"; Some "int"].
Proof. vm_compute. reflexivity. Qed.

Example resolve_title :
  Property.typeValue (prop simple_typed_resolved 3) = Some "str"
  ∧ Property.type (prop simple_typed_resolved 3) = None.
Proof. vm_compute. done. Qed.

(** ** Unknown types *)

Lemma resolve_each_first fuel m0 a props m m' :
  same_classes m m0 → a ∈ props →
  resolve_each fuel m props = Ok m' →
  ∃ p', resolve_property fuel m0 (prop m a) = Ok p'.
Proof.
  revert m. induction props as [|x props IH]; intros m Hsame Ha; simpl.
  - by apply not_elem_of_nil in Ha.
  - rewrite (resolve_property_same fuel m m0) by done.
    destruct (resolve_property fuel m0 (prop m x)) as [p'| |] eqn:E; simpl; [|done..].
    intros Hrest. destruct (decide (a = x)) as [->|Hne]; [by eauto|].
    apply elem_of_cons in Ha as [?|Ha]; [done|].
    destruct (IH _ (same_classes_set_property m m0 x p' Hsame) Ha Hrest) as [q Hq].
    simpl in Hq. rewrite decide_False in Hq by done. by eauto.
Qed.

(** C4 as stated fails: the attribute of [untyped] has no type and its
    type value is neither [str] nor [int] (it is unset), and resolution
    returns. *)
Lemma untyped_property_is_accepted :
  ∃ m',
    resolve_attribute_type_values 1 untyped = Ok m'
    ∧ Property.type (prop m' 0) = None
    ∧ Property.typeValue (prop m' 0) ≠ Some "str"
    ∧ Property.typeValue (prop m' 0) ≠ Some "int".
Proof. eexists. split; [vm_compute; reflexivity|]. by vm_compute. Qed.

(** C4, amended. If, after the first two statements of the loop body, a
    property of the model has no type and a type value that is set and is
    neither [str] nor [int], [resolve_attribute_type_values] raises the
    [ValueError] at that property, and the run does not return: it ends
    with an exception (or exceeds the recursion bound before). A property
    with no type and no type value is accepted. *)
Theorem resolve_unknown_type_raises (fuel : nat) (m : Model) (a : PropId)
    (p : Property.t) :
  a ∈ ElementFactory.select_Property m →
  resolve_simple_type fuel m (resolve_type_value m (prop m a)) = Ok p →
  Property.type p = None →
  Property.typeValue p ∉ [Some "str"; Some "int"; None] →
  resolve_property fuel m (prop m a)
  = Raise (ValueError "Property value type can not be found")
  ∧ ((∃ e, resolve_attribute_type_values fuel m = Raise e)
     ∨ resolve_attribute_type_values fuel m = OutOfFuel).
Proof.
  intros Ha Hp Hty Htv.
  assert (resolve_property fuel m (prop m a)
          = Raise (ValueError "Property value type can not be found")) as Hraise.
  { unfold resolve_property. rewrite Hp. simpl.
    unfold type_is_known, opt_in. rewrite Hty.
    rewrite (bool_decide_eq_false_2 _ Htv). by vm_compute. }
  split; [done|].
  destruct (resolve_attribute_type_values fuel m) as [m'|e|] eqn:E; [|by eauto..].
  destruct (resolve_each_first fuel m a _ m m' ltac:(done) Ha E) as [p' Hp'].
  congruence.
Qed.

Lemma resolve_unknown_type_raises_witness :
  resolve_property 1 unknown_typed (prop unknown_typed 0)
  = Raise (ValueError "Property value type can not be found")
  ∧ ((∃ e, resolve_attribute_type_values 1 unknown_typed = Raise e)
     ∨ resolve_attribute_type_values 1 unknown_typed = OutOfFuel).
Proof.
  apply (resolve_unknown_type_raises 1 unknown_typed 0
           (set_typeValue (Some "Bar") (plain_property "anything" 0))).
  - vm_compute. apply list_elem_of_here.
  - vm_compute. reflexivity.
  - reflexivity.
  - vm_compute. intros H. elem_of_cases H.
Defined.

(** ** Default values *)

(** C9. An attribute with no default value (unset, or empty) has the
    default clause [""], and [default_value] raises for an attribute
    exactly when it has a default value and a type value other than [int]
    and [str]: the [ValueError] for an unknown default value type. *)
Theorem default_value_raises_only_on_unknown_type (a : Property.t) :
  (Property.defaultValue a = None → default_value a = Ok "")
  ∧ (truthy (Property.defaultValue a) = false → default_value a = Ok "")
  ∧ (∀ e, default_value a = Raise e ↔
       truthy (Property.defaultValue a) = true
       ∧ Property.typeValue a ≠ Some "int"
       ∧ Property.typeValue a ≠ Some "str"
       ∧ e = ValueError "Unknown default value type")
  ∧ default_value a ≠ OutOfFuel.
Proof.
  unfold default_value. split_and!.
  - by intros ->.
  - by intros ->.
  - intros e. destruct (truthy (Property.defaultValue a)); [|by split; [|intros [? _]]].
    repeat case_bool_decide; simpl; split; try done; try naive_solver.
  - destruct (truthy (Property.defaultValue a)); [|done].
    by repeat case_bool_decide.
Qed.

Example default_value_of_int :
  default_value (Property.mk (Some "isAbstract") (Some "int") None false (Some "false")
                   None None None "none" None None 0 None [])
  = Ok ", default=False".
Proof. reflexivity. Qed.

(** ** Generators that end normally *)

Lemma bind_Ok_inv {A B} (g : Gen A) (f : A → Gen B) out b :
  g ≫= f = gen out (Ok b) →
  ∃ o1 a o2, g = gen o1 (Ok a) ∧ f a = gen o2 (Ok b) ∧ out = o1 ++ o2.
Proof.
  destruct g as [o1 [a|e|]]; unfold mbind, gen_bind; simpl; [|done..].
  destruct (f a) as [o2 r] eqn:E. simpl. intros [= <- ->].
  exists o1, a, o2. done.
Qed.

Lemma for_each_with_Ok {A S} (body : S → A → Gen S) l s out s' x :
  for_each_with body s l = gen out (Ok s') → x ∈ l →
  ∃ s1 s2 o pre post, body s1 x = gen o (Ok s2) ∧ out = pre ++ o ++ post.
Proof.
  revert s out. induction l as [|y l IH]; intros s out; simpl.
  - by intros _ ?%not_elem_of_nil.
  - intros (o1 & a & o2 & Hy & Hrest & ->)%bind_Ok_inv [->|Hx]%elem_of_cons.
    + exists s, a, o1, [], o2. done.
    + destruct (IH _ _ Hrest Hx) as (s1 & s2 & o & pre & post & Hb & ->).
      exists s1, s2, o, (o1 ++ pre), post. split; [done|]. by rewrite <-app_assoc.
Qed.

Lemma for_each_Ok {A} (body : A → Gen unit) l out u x :
  for_each body l = gen out (Ok u) → x ∈ l →
  ∃ o pre post, body x = gen o (Ok ()) ∧ out = pre ++ o ++ post.
Proof.
  revert out. induction l as [|y l IH]; intros out; simpl.
  - by intros _ ?%not_elem_of_nil.
  - intros (o1 & [] & o2 & Hy & Hrest & ->)%bind_Ok_inv [->|Hx]%elem_of_cons.
    + exists o1, [], o2. done.
    + destruct (IH _ Hrest Hx) as (o & pre & post & Hb & ->).
      exists o, (o1 ++ pre), post. split; [done|]. by rewrite <-app_assoc.
Qed.

Lemma elem_of_insert_by {A} (key : A → string) (x y : A) l :
  x ∈ insert_by key y l ↔ x = y ∨ x ∈ l.
Proof.
  induction l as [|z l IH]; simpl.
  - rewrite list_elem_of_singleton, elem_of_nil. tauto.
  - destruct (String.leb _ _); rewrite !elem_of_cons; [done|].
    rewrite IH. tauto.
Qed.

Lemma elem_of_sorted {A} (key : A → string) (x : A) l : x ∈ sorted key l ↔ x ∈ l.
Proof.
  unfold sorted. induction l as [|y l IH]; simpl; [done|].
  by rewrite elem_of_insert_by, IH, elem_of_cons.
Qed.

Lemma coder_Ok_inv fuel m super_models overrides classes out :
  coder_classes fuel m = Ok classes →
  coder fuel m super_models overrides = gen out (Ok ()) →
  ∃ pre blocks ops assocs imported imported',
    out = pre ++ blocks ++ ops ++ [""] ++ assocs
    ∧ for_each_with (class_block fuel m super_models overrides) ∅ classes
      = gen blocks (Ok imported)
    ∧ for_each (operations m overrides) classes = gen ops (Ok ())
    ∧ for_each_with (class_associations fuel m super_models overrides) imported classes
      = gen assocs (Ok imported').
Proof.
  intros Hcl. unfold coder. rewrite Hcl.
  intros (o0 & cs & o1 & [= <- <-] & H1 & ->)%bind_Ok_inv.
  apply bind_Ok_inv in H1 as (oh & [] & o2 & Hh & H2 & ->).
  apply bind_Ok_inv in H2 as (ooh & [] & o3 & Hoh & H3 & ->).
  apply bind_Ok_inv in H3 as (ob & imported & o4 & Hb & H4 & ->).
  apply bind_Ok_inv in H4 as (oo & [] & o5 & Ho & H5 & ->).
  apply bind_Ok_inv in H5 as (oe & [] & o6 & [= <-] & H6 & ->).
  apply bind_Ok_inv in H6 as (oa & imported' & o7 & Ha & [= <-] & ->).
  exists (oh ++ ooh), ob, oo, oa, imported, imported'.
  split_and!; [|done..]. simpl. by rewrite !app_nil_r, <-!app_assoc.
Qed.

(** ** The laws of generators *)

Lemma gen_eta {A} (g : Gen A) : gen (yielded g) (ended g) = g.
Proof. by destruct g. Qed.

Lemma gen_bind_assoc {A B C} (g : Gen A) (f : A → Gen B) (h : B → Gen C) :
  (g ≫= f) ≫= h = g ≫= (λ a, f a ≫= h).
Proof.
  destruct g as [o1 [a|e|]]; unfold mbind, gen_bind; simpl; [|done..].
  destruct (f a) as [o2 [b|e|]]; simpl; [|done..].
  by rewrite app_assoc.
Qed.


Lemma pass_bind {A} (g : Gen A) : (pass ;; g) = g.
Proof. unfold pass, mret, gen_ret, mbind, gen_bind. simpl. apply gen_eta. Qed.

Lemma for_each_app {A} (body : A → Gen unit) l1 l2 :
  for_each body (l1 ++ l2) = (for_each body l1 ;; for_each body l2).
Proof.
  induction l1 as [|x l1 IH]; simpl.
  - by rewrite pass_bind.
  - by rewrite IH, gen_bind_assoc.
Qed.


Lemma to_list_Ok (g : Gen unit) lines :
  to_list g = Ok lines → g = gen lines (Ok ()).
Proof.
  destruct g as [o [[]| |]]; unfold to_list; simpl; [|done..]. by intros [= <-].
Qed.

(** ** A member among the members of its class *)

Lemma variables_split fuel m overrides c before a after :
  sorted (λ a, or_empty (Property.name (prop m a))) (Class.ownedAttribute (cls m c))
  = before ++ a :: after →
  variables fuel m overrides c
  = variables_around fuel m overrides c before
      (variables_attribute fuel m overrides c (prop m a)) after.
Proof.
  intros H. unfold variables, variables_around. by rewrite H, for_each_app.
Qed.




Lemma variables_around_Ok fuel m overrides c before line after properties :
  variables_around fuel m overrides c before (yield line) after
  = gen properties (Ok ()) →
  ∃ lines_before lines_after, properties = lines_before ++ [line] ++ lines_after.
Proof.
  unfold variables_around.
  intros (o1 & [] & o2 & H1 & _ & ->)%bind_Ok_inv.
  apply bind_Ok_inv in H1 as (o3 & [] & o4 & _ & H2 & ->).
  apply bind_Ok_inv in H2 as (o5 & [] & o6 & [= <-] & _ & ->).
  exists o3, (o6 ++ o2). by rewrite <- !app_assoc.
Qed.

(** The block of a class that the coder declares itself. *)
Lemma class_block_declared fuel m super_models overrides already_imported c o s :
  overridden overrides (Class.name (cls m c)) = None →
  in_super_model (Class.name (cls m c)) super_models = Ok None →
  class_block fuel m super_models overrides already_imported c = gen o (Ok s) →
  ∃ declaration properties,
    class_declaration m c = Ok declaration
    ∧ variables fuel m overrides c = gen properties (Ok ())
    ∧ (properties ≠ [] → o = declared_block declaration properties).
Proof.
  intros Hov Hsuper. unfold class_block. rewrite Hov, Hsuper.
  intros (o0 & found & o1 & [= <- <-] & H & ->)%bind_Ok_inv.
  apply bind_Ok_inv in H as (o2 & declaration & o3 & Hdecl & H & ->).
  apply bind_Ok_inv in H as (o4 & [] & o5 & [= <-] & H & ->).
  apply bind_Ok_inv in H as (o6 & properties & o7 & Hvars & H & ->).
  injection Hdecl as <- Hdecl. injection Hvars as <- Hvars.
  apply to_list_Ok in Hvars.
  exists declaration, properties. split_and!; [done..|]. intros Hne.
  apply bind_Ok_inv in H as (o8 & [] & o9 & Hprops & H & ->).
  apply bind_Ok_inv in H as (o10 & [] & o11 & [= <-] & H & ->).
  apply bind_Ok_inv in H as (o12 & [] & o13 & [= <-] & [= <-] & ->).
  destruct properties as [|p properties]; [done|].
  assert (∀ l, for_each (λ p, yield ("    " +:+ p)) l
               = gen ((λ p, "    " +:+ p) <$> l) (Ok ())) as Hindent.
  { induction l as [|x l IH]; [done|]. simpl. by rewrite IH. }
  rewrite Hindent in Hprops. injection Hprops as <-.
  unfold declared_block. simpl. done.
Qed.

(** What the coder writes for one of its classes, when it ends
    normally: the block of the class, its operations, and its
    associations. *)
Lemma coder_class fuel m super_models overrides classes c out :
  coder_classes fuel m = Ok classes → c ∈ classes →
  coder fuel m super_models overrides = gen out (Ok ()) →
  (∃ lines pre post,
     associations fuel m overrides c = gen lines (Ok ())
     ∧ out = pre ++ lines ++ post)
  ∧ (∃ lines pre post,
       operations m overrides c = gen lines (Ok ())
       ∧ out = pre ++ lines ++ post)
  ∧ (overridden overrides (Class.name (cls m c)) = None →
     in_super_model (Class.name (cls m c)) super_models = Ok None →
     ∃ declaration properties pre post,
       class_declaration m c = Ok declaration
       ∧ variables fuel m overrides c = gen properties (Ok ())
       ∧ (properties ≠ [] →
          out = pre ++ declared_block declaration properties ++ post)).
Proof.
  intros Hclasses Hc Hcoder.
  destruct (coder_Ok_inv _ _ _ _ _ _ Hclasses Hcoder)
    as (pre & blocks & ops & assocs & imported & imported' & -> & Hblocks & Hops & Hassocs).
  split_and!.
  - destruct (for_each_with_Ok _ _ _ _ _ c Hassocs Hc)
      as (s1 & s2 & oc & pre1 & post1 & Hbody & ->).
    unfold class_associations in Hbody.
    apply bind_Ok_inv in Hbody as (oa & [] & orest & Hbody & _ & ->).
    exists oa, (pre ++ blocks ++ ops ++ [""] ++ pre1), (orest ++ post1).
    split; [done|]. by rewrite <- !app_assoc.
  - destruct (for_each_Ok _ _ _ _ c Hops Hc) as (oc & pre1 & post1 & Hbody & ->).
    exists oc, (pre ++ blocks ++ pre1), (post1 ++ [""] ++ assocs).
    split; [done|]. by rewrite <- !app_assoc.
  - intros Hov Hsuper.
    destruct (for_each_with_Ok _ _ _ _ _ c Hblocks Hc)
      as (s1 & s2 & oc & pre1 & post1 & Hbody & ->).
    destruct (class_block_declared _ _ _ _ _ _ _ _ Hov Hsuper Hbody)
      as (declaration & properties & Hdecl & Hvars & Hblock).
    exists declaration, properties, (pre ++ pre1), (post1 ++ ops ++ [""] ++ assocs).
    split_and!; [done..|]. intros Hne. rewrite (Hblock Hne).
    by rewrite <- !app_assoc.
Qed.

(** A property line of a class that the coder declares is among the
    lines of the coder, indented. *)
Lemma coder_property_line fuel m super_models overrides classes c out
    before line after :
  coder_classes fuel m = Ok classes → c ∈ classes →
  coder fuel m super_models overrides = gen out (Ok ()) →
  overridden overrides (Class.name (cls m c)) = None →
  in_super_model (Class.name (cls m c)) super_models = Ok None →
  variables fuel m overrides c
  = variables_around fuel m overrides c before (yield line) after →
  ∃ declaration lines_before lines_after pre post,
    class_declaration m c = Ok declaration
    ∧ variables fuel m overrides c
      = gen (lines_before ++ [line] ++ lines_after) (Ok ())
    ∧ out = pre
            ++ declared_block declaration (lines_before ++ [line] ++ lines_after)
            ++ post
    ∧ ("    " +:+ line) ∈ out.
Proof.
  intros Hclasses Hc Hcoder Hov Hsuper Hvars.
  destruct (coder_class _ _ _ _ _ _ _ Hclasses Hc Hcoder) as (_ & _ & Hblock).
  destruct (Hblock Hov Hsuper)
    as (declaration & properties & pre & post & Hdecl & Hprops & Hout).
  rewrite Hvars in Hprops.
  destruct (variables_around_Ok _ _ _ _ _ _ _ _ Hprops) as (lb & la & ->).
  rewrite <- Hvars in Hprops.
  assert (out = pre ++ declared_block declaration (lb ++ [line] ++ la) ++ post)
    as Hout' by (apply Hout; intros Hnil; by destruct lb).
  exists declaration, lb, la, pre, post. split_and!; [done..|].
  rewrite Hout'. unfold declared_block.
  apply elem_of_app. right. apply elem_of_app. left.
  apply elem_of_app. right. apply elem_of_app. left.
  rewrite !fmap_app. apply elem_of_app. right. apply list_elem_of_here.
Qed.

(** ** Simple types resolve to [str] *)

Lemma append_inv_head (s a b : string) : s +:+ a = s +:+ b → a = b.
Proof. induction s as [|ch s IH]; simpl; [done|]. intros [= H]. by apply IH. Qed.

Lemma attribute_line_is_no_relation_line a default type_name reassigned :
  attribute_line a default ≠ relation_line a type_name reassigned.
Proof.
  unfold attribute_line, relation_line. intros H%append_inv_head. discriminate.
Qed.







Example coder_simple_typed :
  coder 1 simple_typed_resolved [] None
  = gen [header;
         "class Foo():";
         "    " +:+ str_attribute_line (Some "count") "";
         "    " +:+ str_attribute_line (Some "label") "";
         "    " +:+ attribute_line (prop simple_typed_resolved 2) "";
         "    " +:+ str_attribute_line (Some "title") "";
         ""; ""; ""]
      (Ok ()).
Proof. by vm_compute. Qed.

(** ** Overrides *)




Example coder_overridden_members :
  yielded (coder 1 overridden_members [] (Some foo_overrides))
  = [header; "class Foo():"; "    anything: derived[str]"; "    size: int"; ""; "";
     "Foo.size = lambda self: 0"; "";
     "Foo.anything = derived('anything', str, 0, 1, lambda obj: [])"]
  ∧ ended (coder 1 overridden_members [] (Some foo_overrides)) = Ok ().
Proof. vm_compute. done. Qed.

(** ** The block of a class *)

Lemma for_each_pass {A} (body : A → Gen unit) l :
  (∀ x, x ∈ l → body x = pass) → for_each body l = pass.
Proof.
  induction l as [|x l IH]; intros H; simpl; [done|].
  rewrite (H x) by apply list_elem_of_here.
  rewrite IH; [done|]. intros y Hy. by apply H, list_elem_of_further.
Qed.

(** C6 as stated fails: the header of a class without bases is written
    with an empty pair of parentheses. *)
Lemma class_header_has_parentheses :
  coder 1 one_string_attribute [] None
  = gen [header; "class Foo():";
         "    name: _attribute[str] = _attribute(" +:+ quoted "name" +:+ ", str)";
         ""; ""; ""] (Ok ())
  ∧ "class Foo:" ∉ yielded (coder 1 one_string_attribute [] None).
Proof.
  split; [by vm_compute|]. vm_compute. intros H. elem_of_cases H.
Qed.

(** C6, amended. For a class with no bases and exactly one owned
    attribute, a primitive string that is not derived, has no default
    value and is no association end, and with no override or supermodel
    in the way, the coder writes the header [class Foo():] (with an empty
    pair of parentheses), then the property line of the attribute with no
    default clause, then two empty lines. *)
Theorem class_with_one_string_attribute (fuel : nat) (m : Model)
    (super_models : list (string * Model)) (overrides : option Overrides.t)
    (c : ClassId) (a : PropId) (class_name attribute_name : string) :
  Class.name (cls m c) = Some class_name →
  Class.generalization (cls m c) = [] →
  Class.ownedAttribute (cls m c) = [a] →
  Property.name (prop m a) = Some attribute_name →
  Property.typeValue (prop m a) = Some "str" →
  Property.defaultValue (prop m a) = None →
  Property.isDerived (prop m a) = false →
  Property.association (prop m a) = None →
  overridden overrides (Some class_name) = None →
  overridden overrides (Some (class_name +:+ "." +:+ attribute_name)) = None →
  (∀ op, op ∈ Class.ownedOperation (cls m c) →
     overridden overrides (Some (class_name +:+ "." +:+ fmt (Operation.name op))) = None) →
  in_super_model (Some class_name) super_models = Ok None →
  (∀ already_imported,
     class_block fuel m super_models overrides already_imported c
     = gen (string_attribute_block class_name attribute_name) (Ok already_imported))
  ∧ (∀ classes out,
       coder_classes fuel m = Ok classes → c ∈ classes →
       coder fuel m super_models overrides = gen out (Ok ()) →
       ∃ pre post, out = pre ++ string_attribute_block class_name attribute_name ++ post).
Proof.
  intros Hname Hgen Hattrs Haname Htv Hdv Hder Hassoc Hovc Hova Hovop Hsuper.
  assert (∀ already_imported,
     class_block fuel m super_models overrides already_imported c
     = gen (string_attribute_block class_name attribute_name) (Ok already_imported))
    as Hblock.
  { intros ai. unfold class_block. rewrite Hname, Hovc, Hsuper. simpl.
    unfold class_declaration, bases. rewrite Hgen, Hattrs, Hname. simpl.
    unfold metaclass_base. rewrite Hassoc. simpl.
    unfold variables. rewrite Hattrs. simpl.
    unfold variables_attribute, is_extension_end, full_name, default_value, attribute_line.
    rewrite Hassoc, Hname, Haname, Hder, Htv, Hdv. simpl. rewrite Hova. simpl.
    rewrite for_each_pass.
    - reflexivity.
    - intros op Hop%elem_of_sorted. unfold variables_operation, full_name.
      rewrite Hname. simpl. by rewrite (Hovop op Hop). }
  split; [done|].
  intros classes out Hclasses Hc Hcoder.
  destruct (coder_Ok_inv _ _ _ _ _ _ Hclasses Hcoder)
    as (pre & blocks & ops & assocs & imported & imported' & -> & Hblocks & _ & _).
  destruct (for_each_with_Ok _ _ _ _ _ c Hblocks Hc)
    as (s1 & s2 & oc & pre1 & post1 & Hbody & ->).
  rewrite Hblock in Hbody. injection Hbody as <- _.
  exists (pre ++ pre1), (post1 ++ ops ++ [""] ++ assocs).
  by rewrite <-!app_assoc.
Qed.

Lemma class_with_one_string_attribute_witness :
  (∀ already_imported,
     class_block 1 one_string_attribute [] None already_imported 0
     = gen (string_attribute_block "Foo" "name") (Ok already_imported))
  ∧ (∀ classes out,
       coder_classes 1 one_string_attribute = Ok classes → 0 ∈ classes →
       coder 1 one_string_attribute [] None = gen out (Ok ()) →
       ∃ pre post, out = pre ++ string_attribute_block "Foo" "name" ++ post).
Proof.
  apply (class_with_one_string_attribute 1 one_string_attribute [] None 0 0
           "Foo" "name"); reflexivity.
Defined.

(** ** The association pass *)

Section Associations.
Context (fuel : nat) (m : Model) (overrides : option Overrides.t) (c : ClassId).

Lemma associations_attribute_statement redefinitions a st :
  statement fuel m overrides c a = Ok st →
  associations_attribute fuel m overrides c redefinitions a
  = gen (option_list (now_line st)) (Ok (redefinitions ++ option_list (at_end_line st))).
Proof.
  unfold statement, associations_attribute, not_an_association, or_res.
  destruct (overridden overrides _) as [o|].
  { intros [= <-]. simpl. by rewrite app_nil_r. }
  destruct (Property.type a) as [t|]; [|intros [= <-]; simpl; by rewrite app_nil_r].
  destruct (is_simple_type fuel m t) as [[]| |]; simpl; [| |done..].
  { intros [= <-]. simpl. by rewrite app_nil_r. }
  destruct (_ || is_extension_end a); simpl.
  { intros [= <-]. simpl. by rewrite app_nil_r. }
  destruct (truthy (redefines a)); [by intros [= <-]|].
  destruct (Property.isDerived a); [intros [= <-]; simpl; by rewrite app_nil_r|].
  destruct (truthy (Property.name a)); simpl; [|done].
  intros [= <-]. simpl. by rewrite app_nil_r.
Qed.

Lemma associations_loop_statements attrs redefinitions statements :
  mapM (statement fuel m overrides c) attrs = Ok statements →
  for_each_with (associations_attribute fuel m overrides c) redefinitions attrs
  = gen (omap now_line statements)
      (Ok (redefinitions ++ omap at_end_line statements)).
Proof.
  revert redefinitions statements.
  induction attrs as [|a attrs IH]; intros redefinitions statements; simpl.
  - intros [= <-]. simpl. by rewrite app_nil_r.
  - destruct (statement fuel m overrides c a) as [st| |] eqn:Est; simpl; [|done..].
    destruct (mapM _ attrs) as [sts| |] eqn:Ests; simpl; [|done..].
    intros [= <-]. rewrite (associations_attribute_statement _ _ _ Est).
    unfold mbind, gen_bind. simpl. rewrite (IH _ _ eq_refl). simpl.
    f_equal.
    + by destruct st.
    + f_equal. rewrite <-app_assoc. by destruct st.
Qed.

Lemma for_each_yield lines : for_each yield lines = gen lines (Ok ()).
Proof.
  induction lines as [|line lines IH]; simpl; [done|].
  rewrite IH. done.
Qed.

End Associations.

(** C7 as stated fails: the attribute [anything] has no type, and the
    association pass does not skip it but yields the text of its
    override. *)
Lemma untyped_attribute_with_override_is_written :
  Property.type (prop overridden_members 0) = None
  ∧ associations 1 overridden_members (Some foo_overrides) 0
    = gen ["Foo.anything = derived('anything', str, 0, 1, lambda obj: [])"] (Ok ()).
Proof. by vm_compute. Qed.

(** C7, amended. In [associations], an attribute with no entry in the
    overrides is skipped when it has no type reference (untyped, or
    resolved to a primitive), when its type is a simple type or an
    enumeration, or when it is an extension end; an attribute with an
    entry is written as the override says. When every attribute of the
    class has a statement, the pass yields the statements that are no
    redefinitions in the order of the attributes, and after all of them
    the redefinitions, in the order of the attributes. *)
Theorem associations_skip_and_defer (fuel : nat) (m : Model)
    (overrides : option Overrides.t) (c : ClassId) (statements : list Statement) :
  mapM (statement fuel m overrides c) (prop m <$> Class.ownedAttribute (cls m c))
  = Ok statements →
  (∀ a redefinitions,
     overridden overrides (Some (full_name (Class.name (cls m c)) (Property.name a)))
     = None →
     Property.type a = None
     ∨ (∃ t, Property.type a = Some t
             ∧ (is_simple_type fuel m t = Ok true
                ∨ (is_simple_type fuel m t = Ok false
                   ∧ (is_enumeration m (Some t) = true ∨ is_extension_end a = true)))) →
     associations_attribute fuel m overrides c redefinitions a = mret redefinitions)
  ∧ associations fuel m overrides c
    = gen (omap now_line statements ++ omap at_end_line statements) (Ok ()).
Proof.
  intros Hst. split.
  - intros a redefinitions Hov Hskip.
    unfold associations_attribute, not_an_association, or_res. rewrite Hov.
    destruct Hskip as [->|(t & -> & [->|[-> Hs]])]; [done..|].
    by destruct Hs as [->| ->]; rewrite ?orb_true_r.
  - unfold associations.
    assert (∀ attrs redefinitions,
              for_each_with
                (λ redefinitions a,
                   associations_attribute fuel m overrides c redefinitions (prop m a))
                redefinitions attrs
              = for_each_with (associations_attribute fuel m overrides c)
                  redefinitions (prop m <$> attrs)) as Hmap.
    { induction attrs as [|a attrs IH]; intros redefinitions; simpl; [done|].
      destruct (associations_attribute _ _ _ _ _ _) as [o [r| |]];
        unfold mbind, gen_bind; simpl; [|done..]. by rewrite IH. }
    rewrite Hmap, (associations_loop_statements _ _ _ _ _ _ _ Hst).
    unfold mbind, gen_bind. simpl. by rewrite for_each_yield.
Qed.

Lemma associations_skip_and_defer_witness :
  (∀ a redefinitions,
     overridden None
       (Some (full_name (Class.name (cls with_redefinition 0)) (Property.name a)))
     = None →
     Property.type a = None
     ∨ (∃ t, Property.type a = Some t
             ∧ (is_simple_type 1 with_redefinition t = Ok true
                ∨ (is_simple_type 1 with_redefinition t = Ok false
                   ∧ (is_enumeration with_redefinition (Some t) = true
                      ∨ is_extension_end a = true)))) →
     associations_attribute 1 with_redefinition None 0 redefinitions a
     = mret redefinitions)
  ∧ associations 1 with_redefinition None 0
    = gen (omap now_line
             [AtEnd ("Foo.first = redefine(Foo, " +:+ quoted "first" +:+ ", Bar, Foo.base)");
              Now ("Foo.second = association(" +:+ quoted "second"
                   +:+ ", Bar, lower=1, composite=True)");
              Now ("Foo.third = derivedunion(" +:+ quoted "third" +:+ ", Bar)");
              NoStatement]
           ++ omap at_end_line
             [AtEnd ("Foo.first = redefine(Foo, " +:+ quoted "first" +:+ ", Bar, Foo.base)");
              Now ("Foo.second = association(" +:+ quoted "second"
                   +:+ ", Bar, lower=1, composite=True)");
              Now ("Foo.third = derivedunion(" +:+ quoted "third" +:+ ", Bar)");
              NoStatement])
        (Ok ()).
Proof.
  apply (associations_skip_and_defer 1 with_redefinition None 0).
  vm_compute. reflexivity.
Defined.

Example associations_with_redefinition :
  associations 1 with_redefinition None 0
  = gen ["Foo.second = association(" +:+ quoted "second"
           +:+ ", Bar, lower=1, composite=True)";
         "Foo.third = derivedunion(" +:+ quoted "third" +:+ ", Bar)";
         "Foo.first = redefine(Foo, " +:+ quoted "first" +:+ ", Bar, Foo.base)"]
      (Ok ()).
Proof. by vm_compute. Qed.

(** ** Enumerations *)

Lemma yield_from_all_elem {A} (g : A → gset ClassId → Res (list ClassId * gset ClassId))
    l seen out seen' x :
  yield_from_all g l seen = Ok (out, seen') → x ∈ out →
  ∃ item s1 o s2, item ∈ l ∧ g item s1 = Ok (o, s2) ∧ x ∈ o.
Proof.
  revert seen out. induction l as [|y l IH]; intros seen out; simpl.
  - intros [= <- <-] Hx. by apply not_elem_of_nil in Hx.
  - destruct (g y seen) as [[o1 s1]| |] eqn:E1; simpl; [|done..].
    destruct (yield_from_all g l s1) as [[o2 s2]| |] eqn:E2; simpl; [|done..].
    intros [= <- <-] [Hx|Hx]%elem_of_app.
    + exists y, seen, o1, s1. split; [apply list_elem_of_here|done].
    + destruct (IH _ _ E2 Hx) as (item & t1 & o & t2 & Hitem & Hg & Ho).
      exists item, t1, o, t2. split; [by apply list_elem_of_further|done].
Qed.

Lemma order_reach m fuel c seen out seen' x :
  order fuel m c seen = Ok (out, seen') → x ∈ out → reaches m c x.
Proof.
  revert c seen out seen' x.
  induction fuel as [|fuel IH]; intros c seen out seen' x; simpl; [done|].
  case_bool_decide.
  - intros [= <- <-] Hx. by apply not_elem_of_nil in Hx.
  - destruct (yield_from_all _ _ _) as [[o s]| |] eqn:E; simpl; [|done..].
    intros [= <- <-] [Hx| ->%list_elem_of_singleton]%elem_of_app; [|by left].
    destruct (yield_from_all_elem _ _ _ _ _ _ E Hx)
      as ([b|e|] & s1 & o1 & s2 & Hb & Hg & Ho); simpl in Hg; [|done..].
    right. eapply reaches_base; [exact Hb|]. by eapply IH.
Qed.

Lemma excluded_enumeration fuel m c :
  excluded fuel m c = Ok false → is_enumeration m (Some c) = false.
Proof. unfold excluded, or_res. simpl. by destruct (name_is_enumeration _). Qed.

Lemma coder_classes_reach fuel m classes x :
  coder_classes fuel m = Ok classes → x ∈ classes →
  ∃ r, r ∈ ElementFactory.select_Class m
       ∧ excluded fuel m r = Ok false
       ∧ reaches m r x.
Proof.
  unfold coder_classes, order_classes.
  destruct (yield_from_all _ _ _) as [[o s]| |] eqn:E; simpl; [|done..].
  intros [= <-] Hx.
  destruct (yield_from_all_elem _ _ _ _ _ _ E Hx) as (item & s1 & o1 & s2 & Hitem & Hg & Ho).
  unfold class_items in Hitem. apply list_elem_of_bind in Hitem as (r & Hitem & Hr).
  destruct item as [c| |]; simpl in Hg; [|done..].
  exists r. split; [done|].
  destruct (excluded fuel m r) as [[]| |]; simpl in Hitem.
  - by apply not_elem_of_nil in Hitem.
  - apply list_elem_of_singleton in Hitem as [= ->]. split; [done|].
    by eapply order_reach.
  - by apply list_elem_of_singleton in Hitem.
  - by apply list_elem_of_singleton in Hitem.
Qed.

(** C8 as stated fails: [StatusKind] is an enumeration by its name, and
    the coder writes a class declaration for it, because [Foo] derives
    from it. *)
Lemma enumeration_base_is_declared :
  is_enumeration enumeration_base (Some 0) = true
  ∧ coder_classes 2 enumeration_base = Ok [0; 1]
  ∧ coder 2 enumeration_base [] None
    = gen [header;
           "class StatusKind():"; "    pass"; ""; "";
           "class Foo(StatusKind):"; "    pass"; ""; "";
           ""] (Ok ()).
Proof. by vm_compute. Qed.

(** C8, amended. A class whose name ends in [Kind] or [Sort] is among
    the classes the coder writes only when it is a transitive base (by
    generalization or through a [baseClass] end) of a class that is not
    excluded; otherwise no declaration is written for it. Among the
    lines of [variables] for a class, what stands for an attribute whose
    type is such an enumeration, and that has no type value, no override
    and is no extension end, is the one line of an enumeration of all
    the owned values of its type, with the first owned value as the
    default; when the enumeration owns no value [variables] raises an
    [IndexError] there. When the coder declares the class itself (no
    override for the class, and the class is in no supermodel) and ends
    normally, the enumeration owns a value and the line stands indented
    in the block of the class. *)
Theorem enumerations_are_inlined (fuel : nat) (m : Model) (classes : list ClassId) :
  coder_classes fuel m = Ok classes →
  (∀ c,
     is_enumeration m (Some c) = true →
     c ∈ classes →
     ∃ r, r ∈ ElementFactory.select_Class m
          ∧ excluded fuel m r = Ok false
          ∧ tc (base_of m) c r)
  ∧ (∀ overrides c a t before after,
       sorted (λ a, or_empty (Property.name (prop m a)))
         (Class.ownedAttribute (cls m c)) = before ++ a :: after →
       Property.type (prop m a) = Some t →
       is_enumeration m (Some t) = true →
       is_extension_end (prop m a) = false →
       overridden overrides
         (Some (full_name (Class.name (cls m c)) (Property.name (prop m a)))) = None →
       truthy (Property.typeValue (prop m a)) = false →
       variables fuel m overrides c
       = variables_around fuel m overrides c before
           (enumeration_lines (Property.name (prop m a))
              ((λ e, Property.name (prop m e)) <$> Class.ownedAttribute (cls m t)))
           after
       ∧ ∀ super_models out,
           c ∈ classes →
           overridden overrides (Class.name (cls m c)) = None →
           in_super_model (Class.name (cls m c)) super_models = Ok None →
           coder fuel m super_models overrides = gen out (Ok ()) →
           ∃ first values declaration lines_before lines_after pre post,
             (λ e, Property.name (prop m e)) <$> Class.ownedAttribute (cls m t)
             = first :: values
             ∧ class_declaration m c = Ok declaration
             ∧ variables fuel m overrides c
               = gen (lines_before
                      ++ [inlined_enumeration (Property.name (prop m a)) first values]
                      ++ lines_after) (Ok ())
             ∧ out = pre
                     ++ declared_block declaration
                          (lines_before
                           ++ [inlined_enumeration (Property.name (prop m a)) first values]
                           ++ lines_after)
                     ++ post
             ∧ ("    " +:+ inlined_enumeration (Property.name (prop m a)) first values)
               ∈ out).
Proof.
  intros Hclasses. split.
  - intros c Henum Hc.
    destruct (coder_classes_reach fuel m classes c Hclasses Hc) as (r & Hr & Hex & Hreach).
    exists r. split; [done|]. split; [done|].
    destruct Hreach as [->|Htc]; [|done].
    apply excluded_enumeration in Hex. congruence.
  - intros overrides c a t before after Hsorted Hty Henum Hext Hov Htv.
    assert (variables fuel m overrides c
            = variables_around fuel m overrides c before
                (enumeration_lines (Property.name (prop m a))
                   ((λ e, Property.name (prop m e)) <$> Class.ownedAttribute (cls m t)))
                after) as Hvars.
    { rewrite (variables_split _ _ _ _ _ _ _ Hsorted). f_equal.
      unfold variables_attribute, enumeration_lines, inlined_enumeration,
        enumeration_line.
      rewrite Hext, Hov, Hty, Htv, Henum. rewrite andb_false_r.
      by destruct (_ <$> Class.ownedAttribute (cls m t)). }
    split; [done|].
    intros super_models out Hc Hovc Hsuper Hcoder.
    destruct ((λ e, Property.name (prop m e)) <$> Class.ownedAttribute (cls m t))
      as [|first values] eqn:Evalues.
    + exfalso.
      destruct (coder_class _ _ _ _ _ _ _ Hclasses Hc Hcoder) as (_ & _ & Hblock).
      destruct (Hblock Hovc Hsuper) as (? & properties & ? & ? & _ & Hprops & _).
      rewrite Hvars in Hprops. unfold variables_around, enumeration_lines in Hprops.
      apply bind_Ok_inv in Hprops as (o1 & [] & o2 & H1 & _ & _).
      apply bind_Ok_inv in H1 as (o3 & [] & o4 & _ & H2 & _).
      by apply bind_Ok_inv in H2 as (o5 & [] & o6 & [=] & _ & _).
    + exists first, values. simpl in Hvars.
      destruct (coder_property_line _ _ _ _ _ _ _ _ _ _
                  Hclasses Hc Hcoder Hovc Hsuper Hvars)
        as (declaration & lb & la & pre & post & H).
      exists declaration, lb, la, pre, post. by split.
Qed.

Lemma enumerations_are_inlined_witness :
  (∀ c,
     is_enumeration enumeration_use (Some c) = true →
     c ∈ [1] →
     ∃ r, r ∈ ElementFactory.select_Class enumeration_use
          ∧ excluded 1 enumeration_use r = Ok false
          ∧ tc (base_of enumeration_use) c r)
  ∧ (∀ overrides c a t before after,
       sorted (λ a, or_empty (Property.name (prop enumeration_use a)))
         (Class.ownedAttribute (cls enumeration_use c)) = before ++ a :: after →
       Property.type (prop enumeration_use a) = Some t →
       is_enumeration enumeration_use (Some t) = true →
       is_extension_end (prop enumeration_use a) = false →
       overridden overrides
         (Some (full_name (Class.name (cls enumeration_use c))
                  (Property.name (prop enumeration_use a)))) = None →
       truthy (Property.typeValue (prop enumeration_use a)) = false →
       variables 1 enumeration_use overrides c
       = variables_around 1 enumeration_use overrides c before
           (enumeration_lines (Property.name (prop enumeration_use a))
              ((λ e, Property.name (prop enumeration_use e))
                 <$> Class.ownedAttribute (cls enumeration_use t)))
           after
       ∧ ∀ super_models out,
           c ∈ [1] →
           overridden overrides (Class.name (cls enumeration_use c)) = None →
           in_super_model (Class.name (cls enumeration_use c)) super_models = Ok None →
           coder 1 enumeration_use super_models overrides = gen out (Ok ()) →
           ∃ first values declaration lines_before lines_after pre post,
             (λ e, Property.name (prop enumeration_use e))
               <$> Class.ownedAttribute (cls enumeration_use t)
             = first :: values
             ∧ class_declaration enumeration_use c = Ok declaration
             ∧ variables 1 enumeration_use overrides c
               = gen (lines_before
                      ++ [inlined_enumeration (Property.name (prop enumeration_use a))
                            first values]
                      ++ lines_after) (Ok ())
             ∧ out = pre
                     ++ declared_block declaration
                          (lines_before
                           ++ [inlined_enumeration
                                 (Property.name (prop enumeration_use a)) first values]
                           ++ lines_after)
                     ++ post
             ∧ ("    " +:+ inlined_enumeration (Property.name (prop enumeration_use a))
                             first values)
               ∈ out).
Proof.
  apply (enumerations_are_inlined 1 enumeration_use [1]).
  vm_compute. reflexivity.
Defined.

Example enumeration_is_inlined :
  coder 1 enumeration_use [] None
  = gen [header;
         "class Lamp():";
         "    status = _enumeration(" +:+ quoted "status" +:+ ", ("
           +:+ quoted "on" +:+ ", " +:+ quoted "off" +:+ "), " +:+ quoted "on" +:+ ")";
         ""; ""; ""] (Ok ()).
Proof. by vm_compute. Qed.

(** ** The program on an example *)

Example main_simple_typed :
  main 2 simple_typed [] None
  = gen [header;
         "class Foo():";
         "    count: _attribute[str] = _attribute(" +:+ quoted "count" +:+ ", str)";
         "    label: _attribute[str] = _attribute(" +:+ quoted "label" +:+ ", str)";
         "    size: _attribute[int] = _attribute(" +:+ quoted "size" +:+ ", int)";
         "    title: _attribute[str] = _attribute(" +:+ quoted "title" +:+ ", str)";
         ""; ""; ""] (Ok ()).
Proof. by vm_compute. Qed.

(** * Further properties of the coder *)

(** ** [is_simple_type] *)

(** X1. On a finite collection of classes whose generalization graph is
    acyclic, [is_simple_type] returns, and it returns [True] exactly for
    the classes that carry the [SimpleAttribute] stereotype themselves or
    have a generalization ancestor that does. *)
Theorem is_simple_type_decides (m : Model) (U : list ClassId) (fuel : nat) (c : ClassId) :
  closed_under (generalization_of m) U → acyclic_on (generalization_of m) U →
  c ∈ U → length U ≤ fuel →
  ∃ b : bool, is_simple_type fuel m c = Ok b ∧ (b = true ↔ simple_type m c).
Proof.
  intros Hcl Hac Hc Hfuel.
  destruct (is_simple_type_terminates m U fuel c Hcl Hac Hc Hfuel) as [b Hb].
  exists b. split; [done|]. by apply (is_simple_type_sound m fuel).
Qed.

Lemma is_simple_type_decides_witness :
  ∃ b : bool, is_simple_type 2 simple_typed 1 = Ok b
              ∧ (b = true ↔ simple_type simple_typed 1).
Proof.
  assert (closed_under (generalization_of simple_typed) [0; 1]) as Hcl.
  { intros c b Hc Hb. unfold generalization_of in Hb.
    elem_of_cases Hc; subst; by apply not_elem_of_nil in Hb. }
  apply (is_simple_type_decides simple_typed [0; 1] 2 1).
  - exact Hcl.
  - apply (ranked_acyclic _ _ id Hcl). intros c b Hc Hb. unfold generalization_of in Hb.
    elem_of_cases Hc; subst; by apply not_elem_of_nil in Hb.
  - apply list_elem_of_further, list_elem_of_here.
  - simpl. lia.
Defined.

(** ** [is_reassignment] *)

Section Reassignment.
Context (m : Model) (n : option string).

Lemma existsb_owned c :
  existsb (λ attr, bool_decide (Property.name (prop m attr) = n))
    (Class.ownedAttribute (cls m c)) = true
  ↔ ∃ attr, attr ∈ Class.ownedAttribute (cls m c) ∧ Property.name (prop m attr) = n.
Proof.
  rewrite existsb_exists. split.
  - intros (a & Ha%list_elem_of_In & Hn%bool_decide_eq_true). by eauto.
  - intros (a & Ha & Hn). exists a. split; [by apply list_elem_of_In|].
    by apply bool_decide_eq_true.
Qed.

Lemma reassignment_test_Raise fuel c e :
  reassignment_test fuel m n c = Raise e →
  e = AttributeError ∧ ∃ c', reaches m c c' ∧ Raise e ∈ bases m c'.
Proof.
  revert c. induction fuel as [|fuel IH]; intros c; simpl; [done|].
  destruct (existsb _ _); [done|].
  intros ([b|e'|] & Hitem & Hb)%any_res_Raise; simpl in Hb; [| |done].
  - destruct (IH _ Hb) as (He & c' & Hreach & Hc'). split; [done|].
    exists c'. split; [|done]. right. by eapply reaches_base.
  - injection Hb as ->. split.
    + by destruct (bases_items _ _ _ Hitem) as [[? ?]|[[= ->] _]].
    + exists c. split; [by left|done].
Qed.

Lemma reassignment_test_OutOfFuel fuel c :
  reassignment_test fuel m n c = OutOfFuel →
  ∃ l, chain (base_of m) (c :: l) ∧ length l = fuel.
Proof.
  revert c. induction fuel as [|fuel IH]; intros c; simpl.
  - intros _. exists []. split; [constructor|done].
  - destruct (existsb _ _); [done|].
    intros ([b|e'|] & Hb & Hs)%any_res_OutOfFuel; simpl in Hs; [|done|].
    + destruct (IH _ Hs) as (l & Hl & Hlen).
      exists (b :: l). split; [by constructor|by simpl; rewrite Hlen].
    + by destruct (bases_items _ _ _ Hb) as [[? ?]|[? _]].
Qed.

Lemma reassignment_test_sound fuel c b :
  reassignment_test fuel m n c = Ok b → b = true ↔ defines m n c.
Proof.
  revert c b. induction fuel as [|fuel IH]; intros c b; simpl; [done|].
  destruct (existsb _ _) eqn:Eown.
  - intros [= <-]. split; [|done]. intros _.
    apply existsb_owned in Eown as (a & Ha & Hn). by eapply defines_here.
  - destruct b; intros Hany.
    + split; [|done]. intros _.
      apply any_res_true in Hany as ([g|e|] & Hg & Hs); simpl in Hs; [|done..].
      apply (defines_base m n c g Hg). by apply (IH g true Hs).
    + split; [done|]. intros Hdef. inversion Hdef as [? a Ha Hn|? g Hg Hs]; subst.
      * assert (existsb (λ attr, bool_decide (Property.name (prop m attr)
                                              = Property.name (prop m a)))
                  (Class.ownedAttribute (cls m c)) = true) as Hex.
        { apply existsb_exists. exists a. split; [by apply list_elem_of_In|].
          by apply bool_decide_eq_true. }
        congruence.
      * pose proof (any_res_false _ _ Hany (Ok g) Hg) as Hf. simpl in Hf.
        by apply (IH g false Hf) in Hs.
Qed.

End Reassignment.

Lemma is_reassignment_Raise fuel m a e :
  is_reassignment fuel m a = Raise e →
  e = AttributeError
  ∧ ∃ c', reaches m (Property.owner a) c' ∧ Raise e ∈ bases m c'.
Proof.
  unfold is_reassignment.
  intros ([b|e'|] & Hitem & Hb)%any_res_Raise; simpl in Hb; [| |done].
  - apply reassignment_test_Raise in Hb as (He & c' & Hreach & Hc').
    split; [done|]. exists c'. split; [|done]. right. by eapply reaches_base.
  - injection Hb as ->. split.
    + by destruct (bases_items _ _ _ Hitem) as [[? ?]|[[= ->] _]].
    + exists (Property.owner a). split; [by left|done].
Qed.

(** X2. On a finite collection of classes whose graph of bases is
    acyclic, [is_reassignment] ends for an attribute whose owner is in
    the collection: it returns, or it raises the [AttributeError] of
    [bases]; it returns when every end named [baseClass] in the
    collection is the end of an extension. When it returns, it returns
    [True] exactly when a base of the owner, or a transitive base of it,
    owns an attribute of the same name. *)
Theorem is_reassignment_decides (m : Model) (U : list ClassId) (fuel : nat)
    (a : Property.t) :
  closed m U → acyclic m U → Property.owner a ∈ U → length U ≤ fuel →
  is_reassignment fuel m a ≠ OutOfFuel
  ∧ (∀ e, is_reassignment fuel m a = Raise e → e = AttributeError)
  ∧ (∀ b, is_reassignment fuel m a = Ok b →
       (b = true ↔
        ∃ base, base_of m base (Property.owner a) ∧ defines m (Property.name a) base))
  ∧ (metaclass_ends m U → ∃ b, is_reassignment fuel m a = Ok b).
Proof.
  intros Hcl Hac Ho Hfuel.
  assert (is_reassignment fuel m a ≠ OutOfFuel) as Hends.
  { unfold is_reassignment.
    intros ([g|e|] & Hg & Hs)%any_res_OutOfFuel; simpl in Hs; [|done|].
    - apply reassignment_test_OutOfFuel in Hs as (l & Hl & Hlen).
      assert (g ∈ U) as HgU by by eapply Hcl.
      pose proof (chain_bounded _ U l g Hcl Hac HgU Hl) as Hb. simpl in Hb. lia.
    - by destruct (bases_items _ _ _ Hg) as [[? ?]|[? _]]. }
  split_and!; [done| | |].
  - by intros e [-> _]%is_reassignment_Raise.
  - unfold is_reassignment. intros [] E.
    + split; [|done]. intros _.
      apply any_res_true in E as ([g|e|] & Hg & Hs); simpl in Hs; [|done..].
      exists g. split; [done|]. by apply (reassignment_test_sound m _ fuel g true).
    + split; [done|]. intros (g & Hg & Hdef).
      pose proof (any_res_false _ _ E (Ok g) Hg) as Hf. simpl in Hf.
      by apply (reassignment_test_sound m _ fuel g false Hf) in Hdef.
  - intros Hext.
    destruct (is_reassignment fuel m a) as [b|e|] eqn:E; [by eauto| |done].
    apply is_reassignment_Raise in E as (_ & c' & Hreach & Hraise).
    assert (c' ∈ U) as Hc'.
    { destruct Hreach as [->|Htc]; [done|]. by eapply closed_tc. }
    rewrite (bases_return m U c' Hext Hc') in Hraise.
    by apply list_elem_of_fmap in Hraise as (? & ? & _).
Qed.

Lemma is_reassignment_decides_witness :
  is_reassignment 2 shadowing (prop shadowing 1) ≠ OutOfFuel
  ∧ (∀ e, is_reassignment 2 shadowing (prop shadowing 1) = Raise e →
          e = AttributeError)
  ∧ (∀ b, is_reassignment 2 shadowing (prop shadowing 1) = Ok b →
       (b = true ↔
        ∃ base, base_of shadowing base (Property.owner (prop shadowing 1))
                ∧ defines shadowing (Property.name (prop shadowing 1)) base))
  ∧ (metaclass_ends shadowing [0; 1] →
     ∃ b, is_reassignment 2 shadowing (prop shadowing 1) = Ok b).
Proof.
  assert (closed shadowing [0; 1]) as Hcl.
  { apply closed_Forall. vm_compute. repeat constructor. }
  apply (is_reassignment_decides shadowing [0; 1] 2 (prop shadowing 1)).
  - exact Hcl.
  - apply (ranked_acyclic _ _ id Hcl), ranked_Forall. vm_compute. repeat constructor.
  - vm_compute. apply list_elem_of_further, list_elem_of_here.
  - simpl. lia.
Defined.

Example variables_shadowing :
  yielded (variables 2 shadowing None 1)
  = ["kind: relation_many[Base]  # type: ignore[assignment]";
     "other: relation_many[Base]"].
Proof. by vm_compute. Qed.

(** ** The classes the coder writes *)

Section WrittenClasses.
Context (m : Model).

Lemma yield_from_all_closed (g : ClassId → gset ClassId → Res (list ClassId * gset ClassId))
    l seen out seen' :
  (∀ c s o s', c ∈ l → g c s = Ok (o, s') →
     s' = s ∪ list_to_set o ∧ c ∈ s' ∧ (base_closed m s → base_closed m s')) →
  yield_from_all g l seen = Ok (out, seen') →
  seen' = seen ∪ list_to_set out
  ∧ (∀ c, c ∈ l → c ∈ seen')
  ∧ (base_closed m seen → base_closed m seen').
Proof.
  revert seen out seen'. induction l as [|x l IH]; intros seen out seen' Hg; simpl.
  - intros [= <- <-]. split_and!; [set_solver| |done].
    intros c Hc. by apply not_elem_of_nil in Hc.
  - destruct (g x seen) as [[o1 s1]| |] eqn:E1; simpl; [|done..].
    destruct (yield_from_all g l s1) as [[o2 s2]| |] eqn:E2; simpl; [|done..].
    intros [= <- <-].
    destruct (Hg x seen o1 s1 (list_elem_of_here _ _) E1) as (Hs1 & Hx & Hc1).
    destruct (IH s1 o2 s2 (λ c s o s' Hc, Hg c s o s' (list_elem_of_further _ _ _ Hc)) E2)
      as (Hs2 & Hl & Hc2).
    split_and!.
    + rewrite Hs2, Hs1, list_to_set_app_L. set_solver.
    + intros c [->|Hc]%elem_of_cons; [|by apply Hl]. rewrite Hs2. set_solver.
    + intros Hcl. by apply Hc2, Hc1.
Qed.

Lemma order_closed fuel c seen out seen' :
  order fuel m c seen = Ok (out, seen') →
  seen' = seen ∪ list_to_set out ∧ c ∈ seen' ∧ (base_closed m seen → base_closed m seen').
Proof.
  revert c seen out seen'. induction fuel as [|fuel IH]; intros c seen out seen'; simpl;
    [done|].
  case_bool_decide as Hseen.
  - intros [= <- <-]. split_and!; [set_solver|done|done].
  - destruct (yield_from_all _ _ _) as [[o s]| |] eqn:E; simpl; [|done..].
    intros [= <- <-]. apply yield_from_all_yielded in E as [E _].
    destruct (yield_from_all_closed _ _ _ _ _ (λ b s1 o1 s1' _, IH b s1 o1 s1') E)
      as (Hs & Hb & Hcl).
    split_and!.
    + rewrite Hs, list_to_set_app_L. set_solver.
    + set_solver.
    + intros Hclosed x b [->%elem_of_singleton|Hx]%elem_of_union Hbx.
      * apply elem_of_union. right. by apply Hb, elem_of_yielded_bases.
      * apply elem_of_union. right. by eapply (Hcl Hclosed).
Qed.

Lemma yield_from_all_all_Ok (g : ClassId → gset ClassId → Res (list ClassId * gset ClassId))
    (items : list (Res ClassId)) seen r :
  yield_from_all (λ item s, c ← item; g c s) items seen = Ok r →
  ∃ cs, items = Ok <$> cs.
Proof.
  revert seen r. induction items as [|item items IH]; intros seen r; simpl.
  - intros _. by exists [].
  - destruct item as [c| |]; simpl; [|done..].
    destruct (g c seen) as [[o1 s1]| |]; simpl; [|done..].
    destruct (yield_from_all _ items s1) as [[o2 s2]| |] eqn:E; simpl; [|done..].
    intros _. destruct (IH _ _ E) as [cs ->]. by exists (c :: cs).
Qed.

Lemma class_items_Ok fuel cs c :
  class_items fuel m = Ok <$> cs →
  c ∈ cs ↔ c ∈ ElementFactory.select_Class m ∧ excluded fuel m c = Ok false.
Proof.
  unfold class_items. intros E.
  assert (Ok c ∈ (Ok <$> cs : list (Res ClassId)) ↔ c ∈ cs) as <-.
  { rewrite list_elem_of_fmap. split; [by intros (y & [= ->] & Hy)|by eauto]. }
  rewrite <-E, list_elem_of_bind. split.
  - intros (r & Hitem & Hr). destruct (excluded fuel m r) as [[]| |] eqn:Ex.
    + by apply not_elem_of_nil in Hitem.
    + by apply list_elem_of_singleton in Hitem as [= ->].
    + by apply list_elem_of_singleton in Hitem.
    + by apply list_elem_of_singleton in Hitem.
  - intros [Hc Hex]. exists c. rewrite Hex. split; [apply list_elem_of_here|done].
Qed.

Lemma class_items_tests fuel cs r :
  class_items fuel m = Ok <$> cs → r ∈ ElementFactory.select_Class m →
  ∃ b, excluded fuel m r = Ok b.
Proof.
  unfold class_items. intros E Hr.
  destruct (excluded fuel m r) as [b|e|] eqn:Ex; [by eauto| |].
  - assert (Raise e ∈ (Ok <$> cs : list (Res ClassId))) as Hin.
    { rewrite <-E, list_elem_of_bind. exists r. rewrite Ex.
      split; [apply list_elem_of_here|done]. }
    apply list_elem_of_fmap in Hin as (y & [=] & _).
  - assert (OutOfFuel ∈ (Ok <$> cs : list (Res ClassId))) as Hin.
    { rewrite <-E, list_elem_of_bind. exists r. rewrite Ex.
      split; [apply list_elem_of_here|done]. }
    apply list_elem_of_fmap in Hin as (y & [=] & _).
Qed.

End WrittenClasses.

(** X3. When the coder has computed the classes to write, every test
    of the filter has returned, and the classes are exactly the classes
    of the model that the filter does not exclude, together with all
    their transitive bases (whether the filter excludes these or not). *)
Theorem coder_classes_are_the_reachable (fuel : nat) (m : Model) (classes : list ClassId) :
  coder_classes fuel m = Ok classes →
  (∀ r, r ∈ ElementFactory.select_Class m → ∃ b, excluded fuel m r = Ok b)
  ∧ (∀ x, x ∈ classes ↔
          ∃ r, r ∈ ElementFactory.select_Class m
               ∧ excluded fuel m r = Ok false
               ∧ reaches m r x).
Proof.
  intros Hclasses.
  assert (∃ cs seen', class_items fuel m = Ok <$> cs
            ∧ yield_from_all (order fuel m) cs ∅ = Ok (classes, seen')) as (cs & s & Hcs & Hy).
  { unfold coder_classes, order_classes in Hclasses.
    destruct (yield_from_all _ _ _) as [[o s]| |] eqn:E; simpl in Hclasses; [|done..].
    injection Hclasses as ->.
    destruct (yield_from_all_all_Ok _ _ _ _ E) as [cs Hcs].
    exists cs, s. split; [done|]. by rewrite Hcs, yield_from_all_items in E. }
  split; [by intros r; apply (class_items_tests m fuel cs)|].
  destruct (yield_from_all_closed m _ _ _ _ _
              (λ c s1 o1 s1' _, order_closed m fuel c s1 o1 s1') Hy) as (Hs & Hroots & Hcl).
  assert (base_closed m s) as Hclosed by (apply Hcl; intros x b Hx; set_solver).
  intros x. split.
  - by apply coder_classes_reach.
  - intros (r & Hr & Hex & Hreach).
    assert (r ∈ s) as Hrs by (apply Hroots, (class_items_Ok m fuel cs); done).
    assert (x ∈ s) as Hxs.
    { destruct Hreach as [->|Htc]; [done|].
      clear Hr Hex. induction Htc as [y z Hyz|y z w Hyz Hzw IH]; [by eapply Hclosed|].
      eapply Hclosed; [|exact Hyz]. by apply IH. }
    rewrite Hs in Hxs. set_solver.
Qed.

Lemma coder_classes_are_the_reachable_witness :
  (∀ r, r ∈ ElementFactory.select_Class diamond → ∃ b, excluded 5 diamond r = Ok b)
  ∧ (∀ x, x ∈ [0; 1; 2; 3; 4] ↔
          ∃ r, r ∈ ElementFactory.select_Class diamond
               ∧ excluded 5 diamond r = Ok false
               ∧ reaches diamond r x).
Proof.
  apply (coder_classes_are_the_reachable 5 diamond [0; 1; 2; 3; 4]).
  vm_compute. reflexivity.
Defined.

(** ** Packages *)

Lemma package_ind_owner (P : Package.t → Prop) :
  (∀ is_profile name, P (Package.mk is_profile name None)) →
  (∀ is_profile name q, P q → P (Package.mk is_profile name (Some q))) →
  ∀ p, P p.
Proof.
  intros Hroot Hnested. fix IH 1. intros [is_profile name [q|]].
  - apply Hnested, IH.
  - apply Hroot.
Qed.

Lemma in_profile_test_enclosing p :
  in_profile_test p = true ↔ ∃ q, q ∈ enclosing p ∧ Package.isProfile q = true.
Proof.
  induction p as [is_profile name|is_profile name q IH] using package_ind_owner; simpl.
  - rewrite orb_false_r. split.
    + intros ->. eexists. split; [apply list_elem_of_here|done].
    + by intros (q & ->%list_elem_of_singleton & Hq).
  - rewrite orb_true_iff, IH. split.
    + intros [->|(q' & Hq' & Hp)].
      * eexists. split; [apply list_elem_of_here|done].
      * exists q'. split; [by apply list_elem_of_further|done].
    + intros (q' & [->|Hq']%elem_of_cons & Hp); [by left|]. right. by eauto.
Qed.

Lemma toplevel_test_outermost package_name p :
  toplevel_test package_name p = true ↔ Package.name (outermost p) = Some package_name.
Proof.
  induction p as [is_profile name|is_profile name q IH] using package_ind_owner; simpl.
  - by rewrite bool_decide_eq_true.
  - done.
Qed.

(** X4. For a class in a package, [is_in_profile] is [True] exactly when
    the package or one of the packages that own it is a profile, and
    [is_in_toplevel_package] is [True] exactly when the outermost of
    these packages has the given name; for a class in no package both
    raise [AttributeError]. *)
Theorem package_tests (m : Model) (c : ClassId) (package_name : string) :
  (∀ p, Class.owningPackage (cls m c) = Some p →
     ∃ in_profile in_toplevel : bool,
       is_in_profile m c = Ok in_profile
       ∧ is_in_toplevel_package m c package_name = Ok in_toplevel
       ∧ (in_profile = true ↔ ∃ q, q ∈ enclosing p ∧ Package.isProfile q = true)
       ∧ (in_toplevel = true ↔ Package.name (outermost p) = Some package_name))
  ∧ (Class.owningPackage (cls m c) = None →
     is_in_profile m c = Raise AttributeError
     ∧ is_in_toplevel_package m c package_name = Raise AttributeError).
Proof.
  unfold is_in_profile, is_in_toplevel_package. split.
  - intros p ->. exists (in_profile_test p), (toplevel_test package_name p).
    split_and!; [done..| |].
    + apply in_profile_test_enclosing.
    + apply toplevel_test_outermost.
  - by intros ->.
Qed.

Example package_tests_nested :
  is_in_profile in_nested_package 0 = Ok true
  ∧ is_in_toplevel_package in_nested_package 0 "SysML" = Ok true
  ∧ is_in_toplevel_package in_nested_package 0 "Blocks" = Ok false
  ∧ coder_classes 1 in_nested_package = Ok [].
Proof. by vm_compute. Qed.

(** ** Supermodels *)

Lemma first_declared_cons factory x candidates :
  first_declared factory (x :: candidates)
  = match is_in_profile factory x with
    | Ok true => first_declared factory candidates
    | Ok false =>
        if is_enumeration factory (Some x) then first_declared factory candidates
        else Ok (Some x)
    | Raise e => Raise e
    | OutOfFuel => OutOfFuel
    end.
Proof.
  cbn [first_declared]. unfold or_res.
  destruct (is_in_profile factory x) as [[]| |]; [done| |done..].
  by destruct (is_enumeration factory (Some x)).
Qed.

Lemma first_declared_Some factory candidates c :
  first_declared factory candidates = Ok (Some c) →
  c ∈ candidates
  ∧ is_in_profile factory c = Ok false
  ∧ is_enumeration factory (Some c) = false.
Proof.
  induction candidates as [|x candidates IH]; [done|].
  rewrite first_declared_cons.
  destruct (is_in_profile factory x) as [[]| |] eqn:Ep; [| |done..].
  - intros (Hc & ? & ?)%IH. split; [by apply list_elem_of_further|done].
  - destruct (is_enumeration factory (Some x)) eqn:Ee.
    + intros (Hc & ? & ?)%IH. split; [by apply list_elem_of_further|done].
    + intros [= <-]. split; [apply list_elem_of_here|done].
Qed.

Lemma first_declared_None factory candidates c :
  first_declared factory candidates = Ok None → c ∈ candidates →
  is_in_profile factory c = Ok true
  ∨ (is_in_profile factory c = Ok false ∧ is_enumeration factory (Some c) = true).
Proof.
  induction candidates as [|x candidates IH].
  - by intros _ ?%not_elem_of_nil.
  - rewrite first_declared_cons.
    destruct (is_in_profile factory x) as [[]| |] eqn:Ep; [| |done..].
    + intros Hrest [->|Hc]%elem_of_cons; [by left|by apply IH].
    + destruct (is_enumeration factory (Some x)) eqn:Ee; [|done].
      intros Hrest [->|Hc]%elem_of_cons; [by right|by apply IH].
Qed.

Lemma first_declared_Raise factory candidates e :
  first_declared factory candidates = Raise e →
  e = AttributeError
  ∧ ∃ c, c ∈ candidates ∧ Class.owningPackage (cls factory c) = None.
Proof.
  induction candidates as [|x candidates IH]; [done|].
  rewrite first_declared_cons.
  destruct (is_in_profile factory x) as [[]| |] eqn:Ep.
  - intros (? & c & ? & ?)%IH. split; [done|]. exists c.
    split; [by apply list_elem_of_further|done].
  - destruct (is_enumeration factory (Some x)); [|done].
    intros (? & c & ? & ?)%IH. split; [done|]. exists c.
    split; [by apply list_elem_of_further|done].
  - unfold is_in_profile in Ep. destruct (Class.owningPackage _) eqn:Eo; [done|].
    injection Ep as <-. intros [= <-]. split; [done|]. exists x.
    split; [apply list_elem_of_here|done].
  - unfold is_in_profile in Ep. by destruct (Class.owningPackage _).
Qed.

Lemma first_declared_no_OutOfFuel factory candidates :
  first_declared factory candidates ≠ OutOfFuel.
Proof.
  induction candidates as [|x candidates IH]; [done|].
  rewrite first_declared_cons. unfold is_in_profile.
  destruct (Class.owningPackage _); [|done].
  destruct (in_profile_test _); [done|].
  by destruct (is_enumeration factory (Some x)).
Qed.

Lemma in_super_model_name name super_models pkg factory c :
  in_super_model name super_models = Ok (Some (pkg, factory, c)) →
  Class.name (cls factory c) = name.
Proof.
  induction super_models as [|[pkg0 f0] rest IH]; [done|]. cbn [in_super_model].
  destruct (first_declared f0 _) as [[c0|]| |] eqn:E; simpl; [|done..].
  intros [= <- <- <-].
  by apply first_declared_Some in E as ([Hname _]%list_elem_of_filter & _).
Qed.

(** X5. [in_super_model] returns a class of one of the supermodels that
    has the wanted name, is in no profile and is no enumeration; it
    returns [None] only when every class of that name in every supermodel
    is in a profile or is an enumeration; and it fails only with an
    [AttributeError], for a class of that name that is in no package. *)
Theorem in_super_model_finds_a_declared_class (name : option string)
    (super_models : list (string * Model)) :
  (∀ pkg factory c,
     in_super_model name super_models = Ok (Some (pkg, factory, c)) →
     (pkg, factory) ∈ super_models
     ∧ c ∈ ElementFactory.select_Class factory
     ∧ Class.name (cls factory c) = name
     ∧ is_in_profile factory c = Ok false
     ∧ is_enumeration factory (Some c) = false)
  ∧ (in_super_model name super_models = Ok None →
     ∀ pkg factory c,
       (pkg, factory) ∈ super_models →
       c ∈ ElementFactory.select_Class factory →
       Class.name (cls factory c) = name →
       is_in_profile factory c = Ok true
       ∨ (is_in_profile factory c = Ok false ∧ is_enumeration factory (Some c) = true))
  ∧ (∀ e, in_super_model name super_models = Raise e →
       e = AttributeError
       ∧ ∃ pkg factory c,
           (pkg, factory) ∈ super_models
           ∧ c ∈ ElementFactory.select_Class factory
           ∧ Class.name (cls factory c) = name
           ∧ Class.owningPackage (cls factory c) = None)
  ∧ in_super_model name super_models ≠ OutOfFuel.
Proof.
  induction super_models as [|[pkg0 f0] rest (IHsome & IHnone & IHraise & IHfuel)]; simpl.
  { split_and!; try done. intros _ pkg factory c H. by apply not_elem_of_nil in H. }
  destruct (first_declared f0 _) as [[c0|]| |] eqn:E; simpl.
  - split_and!; try done.
    intros pkg factory c [= <- <- <-].
    apply first_declared_Some in E as (Hc%list_elem_of_filter & Hp & He).
    destruct Hc as [Hname Hc]. split; [apply list_elem_of_here|done].
  - split_and!; [| | |done].
    + intros pkg factory c (Hin & H)%IHsome. split; [by apply list_elem_of_further|done].
    + intros Hnone pkg factory c [[= -> ->]|Hin]%elem_of_cons Hc Hname.
      * apply (first_declared_None _ _ c E). by apply list_elem_of_filter.
      * by eapply IHnone.
    + intros e (He & pkg & factory & c & Hin & H)%IHraise. split; [done|].
      exists pkg, factory, c. split; [by apply list_elem_of_further|done].
  - split_and!; try done.
    intros e' [= <-]. apply first_declared_Raise in E as (He & c & Hc%list_elem_of_filter & Ho).
    destruct Hc as [Hname Hc]. split; [done|]. exists pkg0, f0, c.
    split; [apply list_elem_of_here|done].
  - by apply first_declared_no_OutOfFuel in E.
Qed.

Example in_super_model_uml :
  in_super_model (Some "Element") [("gaphor.UML.uml", uml_factory)]
  = Ok (Some ("gaphor.UML.uml", uml_factory, 0))
  ∧ in_super_model (Some "VisibilityKind") [("gaphor.UML.uml", uml_factory)] = Ok None
  ∧ in_super_model (Some "Block") [("gaphor.UML.uml", uml_factory)] = Ok None.
Proof. by vm_compute. Qed.

(** X6. For a class with no override of its own that [in_super_model]
    finds in a supermodel, the coder writes exactly one line, the import
    of the name of the class from the package of that supermodel, and
    records the line as imported; it writes no declaration and no
    property. *)
Theorem class_of_supermodel_is_imported (fuel : nat) (m : Model)
    (super_models : list (string * Model)) (overrides : option Overrides.t)
    (already_imported : gset string) (c : ClassId)
    (pkg : string) (factory : Model) (sc : ClassId) :
  overridden overrides (Class.name (cls m c)) = None →
  in_super_model (Class.name (cls m c)) super_models = Ok (Some (pkg, factory, sc)) →
  let line := "from " +:+ pkg +:+ " import " +:+ fmt (Class.name (cls m c)) in
  class_block fuel m super_models overrides already_imported c
  = gen [line] (Ok ({[line]} ∪ already_imported)).
Proof.
  intros Hov Hsuper line.
  pose proof (in_super_model_name _ _ _ _ _ Hsuper) as Hname.
  unfold class_block. rewrite Hov, Hsuper. cbn [lift mbind gen_bind ended yielded].
  rewrite Hname. done.
Qed.

Lemma class_of_supermodel_is_imported_witness :
  class_block 2 using_supermodel [("gaphor.UML.uml", uml_factory)] None ∅ 0
  = gen ["from gaphor.UML.uml import Element"]
      (Ok ({["from gaphor.UML.uml import Element"]} ∪ ∅)).
Proof.
  apply (class_of_supermodel_is_imported 2 using_supermodel
           [("gaphor.UML.uml", uml_factory)] None ∅ 0 "gaphor.UML.uml" uml_factory 0);
    by vm_compute.
Defined.

(** ** Looking up an attribute to subset *)

(** X7. When [attribute] finds a property, the property has the wanted
    name and is an owned attribute of a class of the factory returned
    with it. With no package, that factory is the model and the class is
    the class asked about or one of its transitive bases. With a package,
    the class asked about, or one of its transitive bases, has a name
    that [in_super_model] finds in the supermodel of that package, and
    the property is owned by the class found there or by one of its
    transitive bases. *)
Theorem attribute_found (fuel : nat) (m : Model) (c : ClassId) (name : string)
    (sms : list (string * Model)) (pkg : option string) (f : Model) (d : Property.t) :
  attribute fuel m c name sms = Ok (pkg, Some (f, d)) →
  Property.name d = Some name
  ∧ ∃ c' a,
      a ∈ Class.ownedAttribute (cls f c') ∧ d = prop f a
      ∧ match pkg with
        | None => f = m ∧ reaches m c c'
        | Some p =>
            ∃ c0 sc,
              reaches m c c0
              ∧ in_super_model (Class.name (cls m c0)) sms = Ok (Some (p, f, sc))
              ∧ reaches f sc c'
        end.
Proof.
  revert m c sms pkg f d.
  induction fuel as [|fuel IH]; intros m c sms pkg f d; [done|].
  cbn [attribute].
  destruct (List.find _ _) as [a|] eqn:Efind.
  - intros [= <- <- <-]. apply find_some in Efind as [Hin Hname].
    apply bool_decide_eq_true in Hname. split; [done|]. exists c, a.
    split_and!; [by apply list_elem_of_In|done|done|by left].
  - match goal with |- context [?F (bases m c)] => set (in_bases := F) end.
    assert (Hb : ∀ bs found, in_bases bs = Ok (Some found) →
              ∃ base, Ok base ∈ bs ∧ is_Some found.2
                      ∧ attribute fuel m base name sms = Ok found).
    { induction bs as [|[base|e|] bs IHbs]; intros found; [done| |done..]. cbn.
      destruct (attribute fuel m base name sms) as [[pkg' [a'|]]| |] eqn:Ea;
        cbn; [| |done..].
      - intros [= <-]. exists base. split_and!; [apply list_elem_of_here|by eexists|done].
      - intros (b & ? & ?)%IHbs. exists b. split; [by apply list_elem_of_further|done]. }
    destruct (in_bases (bases m c)) as [[found|]| |] eqn:Eb; cbn; [| |done..].
    + intros [= ->]. apply Hb in Eb as (base & Hbase & _ & Ea).
      apply IH in Ea as (Hn & c' & a & Ha & Hd & Hp).
      split; [done|]. exists c', a. split_and!; try done.
      destruct pkg as [p|].
      * destruct Hp as (c0 & sc & Hr & Hs & Hr'). exists c0, sc.
        split_and!; try done. right. by eapply (reaches_base m base).
      * destruct Hp as [-> Hr]. split; [done|]. right. by eapply (reaches_base m base).
    + destruct (in_super_model _ sms) as [[[[pkg0 factory] sc]|]| |] eqn:Es;
        cbn; [|done..].
      destruct (attribute fuel factory sc name []) as [[pkg' a']| |] eqn:Ea;
        cbn; [|done..].
      intros [= <- ->]. apply IH in Ea as (Hn & c' & a & Ha & Hd & Hp).
      destruct pkg' as [p|]; [by destruct Hp as (? & ? & _ & ? & _)|].
      destruct Hp as [-> Hr]. split; [done|]. exists c', a. split_and!; try done.
      exists c, sc. split_and!; [by left|done|done].
Qed.

Lemma attribute_found_witness :
  Property.name (prop uml_factory 0) = Some "ownedElement"
  ∧ ∃ c' a,
      a ∈ Class.ownedAttribute (cls uml_factory c')
      ∧ prop uml_factory 0 = prop uml_factory a
      ∧ ∃ c0 sc,
          reaches using_supermodel 1 c0
          ∧ in_super_model (Class.name (cls using_supermodel c0))
              [("gaphor.UML.uml", uml_factory)]
            = Ok (Some ("gaphor.UML.uml", uml_factory, sc))
          ∧ reaches uml_factory sc c'.
Proof.
  apply (attribute_found 3 using_supermodel 1 "ownedElement"
           [("gaphor.UML.uml", uml_factory)] (Some "gaphor.UML.uml") uml_factory
           (prop uml_factory 0)).
  by vm_compute.
Defined.

(** ** Type resolution, continued *)

Section ResolutionFrame.
Context (fuel : nat).

Lemma resolve_property_erase m p p' :
  resolve_property fuel m p = Ok p' → erase_type p' = erase_type p.
Proof.
  assert (erase_type (resolve_type_value m p) = erase_type p) as Hfirst.
  { unfold resolve_type_value. by repeat case_match. }
  unfold resolve_property, resolve_simple_type.
  destruct (has_simple_type fuel m (Property.type (resolve_type_value m p)))
    as [[]| |]; simpl; [| |done..].
  - intros [= <-]. by rewrite <- Hfirst.
  - destruct (type_is_known _); [|done]. intros [= <-]. done.
Qed.

Lemma resolve_each_frame m props m' :
  resolve_each fuel m props = Ok m' →
  same_classes m' m
  ∧ ElementFactory.select_Property m' = ElementFactory.select_Property m
  ∧ ∀ a, erase_type (prop m' a) = erase_type (prop m a)
         ∧ (a ∉ props → prop m' a = prop m a).
Proof.
  revert m. induction props as [|x props IH]; intros m; simpl.
  - intros [= <-]. done.
  - destruct (resolve_property fuel m (prop m x)) as [p'| |] eqn:E; simpl; [|done..].
    intros ([Hc Hs] & Hp & Ha)%IH. split_and!; [done|done|].
    intros a. destruct (Ha a) as [He Hout]. simpl in He, Hout. split.
    + rewrite He. destruct (decide (a = x)) as [->|]; [|done].
      by eapply resolve_property_erase.
    + intros [Hne Hin]%not_elem_of_cons. rewrite Hout by done.
      by rewrite decide_False.
Qed.

Lemma resolve_each_pointwise m0 m props m' :
  same_classes m m0 → NoDup props →
  resolve_each fuel m props = Ok m' →
  ∀ a, a ∈ props → resolve_property fuel m0 (prop m a) = Ok (prop m' a).
Proof.
  revert m. induction props as [|x props IH]; intros m Hsame Hnd; simpl.
  - by intros _ a ?%not_elem_of_nil.
  - apply NoDup_cons in Hnd as [Hx Hnd].
    rewrite (resolve_property_same fuel m m0) by done.
    destruct (resolve_property fuel m0 (prop m x)) as [p'| |] eqn:E; simpl; [|done..].
    intros Hrest a [->|Ha]%elem_of_cons.
    + destruct (resolve_each_frame _ _ _ Hrest) as (_ & _ & Hf).
      destruct (Hf x) as [_ Hout]. rewrite Hout by done. simpl.
      by rewrite decide_True.
    + assert (a ≠ x) by (by intros ->).
      rewrite <- (IH _ (same_classes_set_property m m0 x p' Hsame) Hnd Hrest a Ha).
      simpl. by rewrite decide_False.
Qed.

Lemma resolve_property_resolved m p p' :
  resolve_property fuel m p = Ok p' →
  type_is_known p' = true ∧ has_simple_type fuel m (Property.type p') = Ok false.
Proof.
  unfold resolve_property, resolve_simple_type.
  destruct (has_simple_type fuel m (Property.type (resolve_type_value m p)))
    as [[]| |] eqn:Es; simpl; [| |done..].
  - intros [= <-]. done.
  - destruct (type_is_known _) eqn:Ek; [|done]. intros [= <-]. done.
Qed.

Lemma resolve_property_idempotent m p p' :
  class_named m None = None →
  resolve_property fuel m p = Ok p' → resolve_property fuel m p' = Ok p'.
Proof.
  intros Hnone. unfold resolve_property at 1. unfold resolve_simple_type.
  destruct (has_simple_type fuel m (Property.type (resolve_type_value m p)))
    as [[]| |] eqn:Es; simpl; [| |done..].
  - intros [= E]. subst p'. done.
  - destruct (type_is_known (resolve_type_value m p)) eqn:Ek; [|done].
    intros [= E]. subst p'.
    assert (resolve_type_value m (resolve_type_value m p) = resolve_type_value m p)
      as Hfix.
    { unfold resolve_type_value at 2 3.
      destruct (opt_in (Property.typeValue p) str_aliases) eqn:E1; [done|].
      destruct (opt_in (Property.typeValue p) int_aliases) eqn:E2; [done|].
      destruct (class_named m (Property.typeValue p)) as [c|] eqn:E3.
      - unfold resolve_type_value. simpl. by rewrite Hnone.
      - unfold resolve_type_value. by rewrite E1, E2, E3. }
    unfold resolve_property, resolve_simple_type. rewrite Hfix, Es. simpl.
    by rewrite Ek.
Qed.

Lemma resolve_each_fixed m0 m props :
  same_classes m m0 →
  (∀ a, a ∈ props → resolve_property fuel m0 (prop m a) = Ok (prop m a)) →
  ∃ m', resolve_each fuel m props = Ok m'
        ∧ same_classes m' m0
        ∧ ElementFactory.select_Property m' = ElementFactory.select_Property m
        ∧ ∀ a, prop m' a = prop m a.
Proof.
  revert m. induction props as [|x props IH]; intros m Hsame Hfix; simpl.
  - by exists m.
  - rewrite (resolve_property_same fuel m m0) by done.
    rewrite Hfix by apply list_elem_of_here. simpl.
    destruct (IH (set_property m x (prop m x))) as (m' & Hres & Hc & Hs & Hp).
    + by apply same_classes_set_property.
    + intros a Ha. simpl. destruct (decide (a = x)) as [->|];
        apply Hfix; [apply list_elem_of_here|by apply list_elem_of_further].
    + exists m'. split_and!; try done.
      intros a. rewrite Hp. simpl. by destruct (decide (a = x)) as [->|].
Qed.

End ResolutionFrame.

(** X8. [resolve_attribute_type_values] changes nothing but the type and
    the type value of the properties that the factory lists: the classes,
    the lists of classes and of properties, every other field of every
    property, and the properties that the factory does not list are the
    same when it returns. *)
Theorem resolve_changes_only_types (fuel : nat) (m m' : Model) :
  resolve_attribute_type_values fuel m = Ok m' →
  cls m' = cls m
  ∧ ElementFactory.select_Class m' = ElementFactory.select_Class m
  ∧ ElementFactory.select_Property m' = ElementFactory.select_Property m
  ∧ (∀ a, erase_type (prop m' a) = erase_type (prop m a))
  ∧ (∀ a, a ∉ ElementFactory.select_Property m → prop m' a = prop m a).
Proof.
  intros ([Hc Hs] & Hp & Ha)%resolve_each_frame. split_and!; try done.
  - intros a. by destruct (Ha a).
  - intros a. by destruct (Ha a).
Qed.

Lemma resolve_changes_only_types_witness :
  cls simple_typed_resolved = cls simple_typed
  ∧ ElementFactory.select_Class simple_typed_resolved
    = ElementFactory.select_Class simple_typed
  ∧ ElementFactory.select_Property simple_typed_resolved
    = ElementFactory.select_Property simple_typed
  ∧ (∀ a, erase_type (prop simple_typed_resolved a) = erase_type (prop simple_typed a))
  ∧ (∀ a, a ∉ ElementFactory.select_Property simple_typed →
          prop simple_typed_resolved a = prop simple_typed a).
Proof.
  apply (resolve_changes_only_types 1 simple_typed simple_typed_resolved).
  vm_compute. reflexivity.
Defined.

(** X9. When [resolve_attribute_type_values] returns, every property that
    the factory lists has a type or one of the type values [str], [int]
    and none, and its type, if it has one, is no simple type. *)
Theorem resolved_types_are_known (fuel : nat) (m m' : Model) (a : PropId) :
  resolve_attribute_type_values fuel m = Ok m' →
  a ∈ ElementFactory.select_Property m →
  type_is_known (prop m' a) = true
  ∧ has_simple_type fuel m' (Property.type (prop m' a)) = Ok false.
Proof.
  intros Hres Ha.
  destruct (resolve_each_frame _ _ _ _ Hres) as ([Hc _] & _).
  assert (type_is_known (prop m' a) = true
          ∧ has_simple_type fuel m (Property.type (prop m' a)) = Ok false) as [Hk Hs].
  { apply (resolve_each_invariant fuel
             (λ p, type_is_known p = true
                   ∧ has_simple_type fuel m (Property.type p) = Ok false)
             m (prop m a) a (ElementFactory.select_Property m) m m'); try done.
    - apply resolve_property_resolved.
    - intros p p' _. apply resolve_property_resolved.
    - by right. }
  split; [done|]. rewrite <- Hs. unfold has_simple_type.
  destruct (Property.type (prop m' a)); [|done].
  by apply is_simple_type_same.
Qed.

Lemma resolved_types_are_known_witness :
  type_is_known (prop simple_typed_resolved 0) = true
  ∧ has_simple_type 1 simple_typed_resolved
      (Property.type (prop simple_typed_resolved 0)) = Ok false.
Proof.
  apply (resolved_types_are_known 1 simple_typed simple_typed_resolved 0).
  - vm_compute. reflexivity.
  - vm_compute. apply list_elem_of_here.
Defined.

(** X10. On a model in which no listed class is unnamed,
    [resolve_attribute_type_values] is idempotent: run on the model it
    returned, it returns, and changes no property. *)
Theorem resolve_is_idempotent (fuel : nat) (m m' : Model) :
  class_named m None = None →
  resolve_attribute_type_values fuel m = Ok m' →
  ∃ m'', resolve_attribute_type_values fuel m' = Ok m''
         ∧ same_classes m'' m'
         ∧ ElementFactory.select_Property m'' = ElementFactory.select_Property m'
         ∧ ∀ a, prop m'' a = prop m' a.
Proof.
  intros Hnone Hres. unfold resolve_attribute_type_values.
  destruct (resolve_each_frame _ _ _ _ Hres) as (Hsame & Hp & _).
  apply resolve_each_fixed; [done|].
  rewrite Hp. intros a Ha.
  rewrite (resolve_property_same fuel m' m) by done.
  apply (resolve_each_invariant fuel
           (λ p, resolve_property fuel m p = Ok p)
           m (prop m a) a (ElementFactory.select_Property m) m m'); try done.
  - intros p'. by apply resolve_property_idempotent.
  - intros p p' _. by apply resolve_property_idempotent.
  - by right.
Qed.

Lemma resolve_is_idempotent_witness :
  ∃ m'', resolve_attribute_type_values 1 simple_typed_resolved = Ok m''
         ∧ same_classes m'' simple_typed_resolved
         ∧ ElementFactory.select_Property m''
           = ElementFactory.select_Property simple_typed_resolved
         ∧ ∀ a, prop m'' a = prop simple_typed_resolved a.
Proof.
  apply (resolve_is_idempotent 1 simple_typed simple_typed_resolved).
  - vm_compute. reflexivity.
  - vm_compute. reflexivity.
Defined.

(** X11. In a factory that lists every property once, a listed property
    whose type value is no alias of a primitive type and is the name of a
    class ends with that class, the first of that name, as its type and
    with no type value, whatever type it had, or with the type value
    [str] and no type if the class is a simple type. A property with no
    type value takes the first class with no name in the same way. *)
Theorem resolve_class_name (fuel : nat) (m m' : Model) (a : PropId) (c : ClassId) :
  NoDup (ElementFactory.select_Property m) →
  a ∈ ElementFactory.select_Property m →
  Property.typeValue (prop m a) ∉ str_aliases ++ int_aliases →
  class_named m (Property.typeValue (prop m a)) = Some c →
  resolve_attribute_type_values fuel m = Ok m' →
  Class.name (cls m c) = Property.typeValue (prop m a)
  ∧ ∃ simple : bool,
      is_simple_type fuel m c = Ok simple
      ∧ Property.typeValue (prop m' a) = (if simple then Some "str" else None)
      ∧ Property.type (prop m' a) = (if simple then None else Some c).
Proof.
  intros Hnd Ha Halias Hc Hres.
  split.
  { apply find_some in Hc as [_ Hc]. by apply bool_decide_eq_true in Hc. }
  pose proof (resolve_each_pointwise fuel m m _ m' ltac:(done) Hnd Hres a Ha) as Hp.
  revert Hp. unfold resolve_property, resolve_simple_type, resolve_type_value, opt_in.
  apply not_elem_of_app in Halias as [H1 H2].
  rewrite (bool_decide_eq_false_2 _ H1), (bool_decide_eq_false_2 _ H2), Hc. simpl.
  destruct (is_simple_type fuel m c) as [[]| |]; simpl; [| |done..].
  - intros [= <-]. by exists true.
  - intros [= <-]. by exists false.
Qed.

Lemma resolve_class_name_witness :
  Class.name (cls with_unnamed_class 0) = Property.typeValue (prop with_unnamed_class 0)
  ∧ ∃ simple : bool,
      is_simple_type 1 with_unnamed_class 0 = Ok simple
      ∧ Property.typeValue
          (prop (set_property with_unnamed_class 0
                   (set_type (Some 0) (prop with_unnamed_class 0))) 0)
        = (if simple then Some "str" else None)
      ∧ Property.type
          (prop (set_property with_unnamed_class 0
                   (set_type (Some 0) (prop with_unnamed_class 0))) 0)
        = (if simple then None else Some 0).
Proof.
  apply (resolve_class_name 1 with_unnamed_class
           (set_property with_unnamed_class 0
              (set_type (Some 0) (prop with_unnamed_class 0))) 0 0).
  - vm_compute. apply NoDup_singleton.
  - vm_compute. apply list_elem_of_here.
  - vm_compute. intros H. elem_of_cases H.
  - vm_compute. reflexivity.
  - vm_compute. reflexivity.
Defined.

Example resolve_with_unnamed_class :
  Property.type (prop with_unnamed_class 0) = Some 2
  ∧ ∃ m', resolve_attribute_type_values 1 with_unnamed_class = Ok m'
          ∧ Property.type (prop m' 0) = Some 0.
Proof. split; [done|]. eexists. split; [vm_compute; reflexivity|done]. Qed.

(** ** Imports written once *)

Lemma subsets_line_step (ai : gset string) (x : string) (l : list string) :
  for_each_with subsets_line ai (x :: l)
  = (let g := for_each_with subsets_line
                (if startswith x "from " then {[x]} ∪ ai else ai) l in
     gen ((if startswith x "from " && bool_decide (x ∈ ai) then [] else [x])
            ++ yielded g) (ended g)).
Proof.
  cbn [for_each_with]. unfold subsets_line.
  destruct (startswith x "from "); [case_bool_decide|]; done.
Qed.

(** X12. The loop of the coder over the lines of [subsets] ends normally
    with the imports of the lines added to the set of written imports;
    it writes the lines that are no imports, all and in order; and it
    writes an import exactly when the import is among the lines and was
    not written before, once. *)
Theorem subsets_imports_written_once (already_imported : gset string)
    (lines : list string) :
  ended (for_each_with subsets_line already_imported lines)
  = Ok (already_imported ∪ list_to_set (filter (λ l, startswith l "from ") lines))
  ∧ filter (λ l, ¬ startswith l "from ")
      (yielded (for_each_with subsets_line already_imported lines))
    = filter (λ l, ¬ startswith l "from ") lines
  ∧ sublist (yielded (for_each_with subsets_line already_imported lines)) lines
  ∧ NoDup (filter (λ l, startswith l "from ")
             (yielded (for_each_with subsets_line already_imported lines)))
  ∧ ∀ l, startswith l "from " →
         (l ∈ yielded (for_each_with subsets_line already_imported lines)
          ↔ l ∈ lines ∧ l ∉ already_imported).
Proof.
  revert already_imported.
  induction lines as [|x lines IH]; intros ai.
  { simpl. split_and!; try done.
    - f_equal. set_solver.
    - constructor.
    - intros l _. set_solver. }
  cbv zeta. rewrite subsets_line_step. cbv zeta. cbn [yielded ended].
  destruct (startswith x "from ") eqn:Ex; cbn [andb].
  - destruct (IH ({[x]} ∪ ai)) as (He & Hn & Hs & Hnd & Hin). cbv zeta in *.
    rewrite (filter_cons_True (λ l, startswith l "from ")) by (by rewrite Ex).
    rewrite (filter_cons_False (λ l, ¬ startswith l "from ") x lines)
      by (rewrite Ex; naive_solver).
    split_and!.
    + rewrite He. f_equal. rewrite list_to_set_cons. set_solver.
    + rewrite <- Hn. case_bool_decide; [done|].
      simpl. rewrite filter_cons_False; [done|]. rewrite Ex. naive_solver.
    + case_bool_decide; simpl; [by apply sublist_cons|by apply sublist_skip].
    + case_bool_decide; simpl; [done|].
      rewrite filter_cons_True by (by rewrite Ex). apply NoDup_cons. split; [|done].
      rewrite list_elem_of_filter. intros [_ Hx]. apply Hin in Hx; [|by rewrite Ex].
      set_solver.
    + intros l Hl. specialize (Hin l Hl). clear Hl Ex He Hn Hs Hnd IH.
      case_bool_decide as Hx; cbn [app];
        rewrite ?elem_of_cons, Hin, not_elem_of_union, not_elem_of_singleton.
      * split; [tauto|]. intros [[->|?] ?]; [done|].
        split_and!; try done. by intros ->.
      * destruct (decide (l = x)) as [->|]; tauto.
  - destruct (IH ai) as (He & Hn & Hs & Hnd & Hin).
    assert (¬ startswith x "from ") as Hx by (rewrite Ex; intros []).
    rewrite (filter_cons_False (λ l, startswith l "from ") x lines) by done.
    rewrite (filter_cons_True (λ l, ¬ startswith l "from ") x lines) by done.
    cbn [app]. split_and!.
    + done.
    + rewrite filter_cons_True by done. by rewrite Hn.
    + by apply sublist_skip.
    + rewrite filter_cons_False by done. done.
    + intros l Hl. specialize (Hin l Hl). rewrite !elem_of_cons, Hin.
      assert (l ≠ x) by (by intros ->). clear Hl Hx. tauto.
Qed.

(** ** The association pass, when an attribute cannot be written *)

Lemma for_each_with_fmap {A B S} (f : A → B) (body : S → B → Gen S) s l :
  for_each_with (λ s a, body s (f a)) s l = for_each_with body s (f <$> l).
Proof.
  revert s. induction l as [|a l IH]; intros s; simpl; [done|].
  destruct (body s (f a)) as [o [r| |]]; unfold mbind, gen_bind; simpl; [|done..].
  by rewrite IH.
Qed.

Lemma for_each_with_Raise {A S} (body : S → A → Gen S) s pre x post out s1 o e :
  for_each_with body s pre = gen out (Ok s1) →
  body s1 x = gen o (Raise e) →
  for_each_with body s (pre ++ x :: post) = gen (out ++ o) (Raise e).
Proof.
  revert s out. induction pre as [|y pre IH]; intros s out; simpl.
  - intros [= <- <-] Hx. rewrite Hx. done.
  - intros (o1 & s' & o2 & Hy & Hrest & ->)%bind_Ok_inv Hx.
    rewrite Hy, <- app_assoc. unfold mbind, gen_bind. simpl.
    by rewrite (IH _ _ Hrest Hx).
Qed.

Lemma associations_attribute_unnamed fuel m overrides c a t redefinitions :
  overridden overrides
    (Some (full_name (Class.name (cls m c)) (Property.name a))) = None →
  Property.type a = Some t →
  is_simple_type fuel m t = Ok false →
  is_enumeration m (Some t) = false →
  is_extension_end a = false →
  truthy (redefines a) = false →
  Property.isDerived a = false →
  truthy (Property.name a) = false →
  associations_attribute fuel m overrides c redefinitions a
  = raise (ValueError "Unnamed attribute").
Proof.
  intros Hov Hty Hsimple Henum Hext Hre Hder Hname.
  unfold associations_attribute, not_an_association, or_res.
  rewrite Hov, Hty, Hsimple, Henum, Hext. cbn [mbind res_bind orb lift gen_bind ended].
  by rewrite Hre, Hder, Hname.
Qed.

(** X13. When an attribute of a class has no override, a type that is no
    simple type and no enumeration, is no extension end, redefines
    nothing, is not derived and has no name, [associations] raises the
    [ValueError] for it. The statements of the attributes before it have
    been written by then, except the redefinitions, which are never
    written. *)
Theorem associations_unnamed_attribute (fuel : nat) (m : Model)
    (overrides : option Overrides.t) (c : ClassId)
    (before : list PropId) (a : PropId) (after : list PropId)
    (statements : list Statement) (t : ClassId) :
  Class.ownedAttribute (cls m c) = before ++ a :: after →
  mapM (statement fuel m overrides c) (prop m <$> before) = Ok statements →
  overridden overrides
    (Some (full_name (Class.name (cls m c)) (Property.name (prop m a)))) = None →
  Property.type (prop m a) = Some t →
  is_simple_type fuel m t = Ok false →
  is_enumeration m (Some t) = false →
  is_extension_end (prop m a) = false →
  truthy (redefines (prop m a)) = false →
  Property.isDerived (prop m a) = false →
  truthy (Property.name (prop m a)) = false →
  associations fuel m overrides c
  = gen (omap now_line statements) (Raise (ValueError "Unnamed attribute")).
Proof.
  intros Hattrs Hbefore Hov Hty Hsimple Henum Hext Hre Hder Hname.
  unfold associations. rewrite Hattrs, for_each_with_fmap, fmap_app, fmap_cons.
  rewrite (for_each_with_Raise _ _ _ _ _ _ _ [] (ValueError "Unnamed attribute")
             (associations_loop_statements _ _ _ _ _ _ _ Hbefore)).
  - by rewrite app_nil_r.
  - by eapply associations_attribute_unnamed.
Qed.

Lemma associations_unnamed_attribute_witness :
  associations 1 with_unnamed_end None 0
  = gen (omap now_line
           [AtEnd ("Foo.first = redefine(Foo, " +:+ quoted "first" +:+ ", Bar, Foo.base)");
            Now ("Foo.second = association(" +:+ quoted "second"
                 +:+ ", Bar, lower=1, composite=True)")])
      (Raise (ValueError "Unnamed attribute")).
Proof.
  apply (associations_unnamed_attribute 1 with_unnamed_end None 0 [0; 1] 2 [] _ 1);
    vm_compute; reflexivity.
Defined.

(** ** The declaration of a class *)

Section Sorting.
Context {A : Type} (key : A → string).

Lemma insert_by_Permutation x l : insert_by key x l ≡ₚ x :: l.
Proof.
  induction l as [|y l IH]; simpl; [done|].
  destruct (String.leb _ _); [done|]. rewrite IH. apply Permutation_swap.
Qed.

Lemma sorted_Permutation l : sorted key l ≡ₚ l.
Proof.
  unfold sorted. induction l as [|x l IH]; simpl; [done|].
  by rewrite insert_by_Permutation, IH.
Qed.

Lemma insert_by_StronglySorted x l :
  StronglySorted String.le (key <$> l) →
  StronglySorted String.le (key <$> insert_by key x l).
Proof.
  induction l as [|y l IH]; simpl.
  - intros _. repeat constructor.
  - intros [Hl Hy]%StronglySorted_inv.
    destruct (String.leb (key x) (key y)) eqn:E.
    + rewrite !fmap_cons. constructor; [by constructor|].
      assert (String.le (key x) (key y)) as Hxy by (unfold String.le; by rewrite E).
      constructor; [done|].
      eapply Forall_impl; [exact Hy|]. intros k Hk. by etrans.
    + rewrite fmap_cons. constructor; [by apply IH|].
      rewrite insert_by_Permutation, fmap_cons. constructor; [|done].
      destruct (total String.le (key x) (key y)) as [Hxy|Hyx]; [|done].
      unfold String.le in Hxy. by rewrite E in Hxy.
Qed.

Lemma sorted_StronglySorted l : StronglySorted String.le (key <$> sorted key l).
Proof.
  unfold sorted. induction l as [|x l IH]; simpl; [constructor|].
  by apply insert_by_StronglySorted.
Qed.

End Sorting.

Lemma all_named m bs :
  forallb (λ c, bool_decide (is_Some (Class.name (cls m c)))) bs
  = bool_decide (Forall is_Some ((λ c, Class.name (cls m c)) <$> bs)).
Proof.
  induction bs as [|b bs IH]; [done|]. cbn [forallb]. rewrite IH.
  destruct (Class.name (cls m b)) as [n|] eqn:E.
  - rewrite (bool_decide_eq_true_2 (is_Some (Some n))) by eauto. cbn [andb].
    apply bool_decide_ext. rewrite fmap_cons, E, Forall_cons.
    split; [by eauto|by intros [_ ?]].
  - rewrite (bool_decide_eq_false_2 (is_Some None)) by (by intros [? ?]).
    cbn [andb]. symmetry. apply bool_decide_eq_false_2.
    rewrite fmap_cons, E. intros [[? ?] _]%Forall_cons. done.
Qed.

Lemma sorted_names m bs :
  let names := (λ c, or_empty (Class.name (cls m c)))
                 <$> sorted (λ c, or_empty (Class.name (cls m c))) bs in
  names ≡ₚ (λ c, or_empty (Class.name (cls m c))) <$> bs
  ∧ StronglySorted String.le names.
Proof.
  split; [by rewrite sorted_Permutation|apply sorted_StronglySorted].
Qed.

(** Reading all the items of a generator. *)
Lemma mapM_id_Ok {A} (l : list A) : mapM id (Ok <$> l) = Ok l.
Proof. induction l as [|a l IH]; [done|]. cbn. by rewrite IH. Qed.

Lemma mapM_id_failure {A} (items : list (Res A)) :
  items = Ok <$> yielded_items items
  ∨ (∃ e, mapM id items = Raise e ∧ Raise e ∈ items)
  ∨ (mapM id items = OutOfFuel ∧ OutOfFuel ∈ items).
Proof.
  induction items as [|[a|e|] items IH].
  - by left.
  - rewrite yielded_items_cons, fmap_cons. cbn.
    destruct IH as [IH|[(e & -> & Hin)|[-> Hin]]].
    + left. by f_equal.
    + right. left. exists e. split; [done|]. by apply list_elem_of_further.
    + right. right. split; [done|]. by apply list_elem_of_further.
  - right. left. exists e. split; [done|]. apply list_elem_of_here.
  - right. right. split; [done|]. apply list_elem_of_here.
Qed.

Lemma bases_fail m c : Raise AttributeError ∈ bases m c ↔ plain_metaclass_end m c.
Proof.
  split.
  - intros Hin. by destruct (bases_items m c _ Hin) as [[? ?]|[_ ?]].
  - intros (a & s & Ha & Hs & Hn & Hx).
    destruct (yielded_items_all (bases m c)) as [H|[e [H|H]]].
    + exfalso.
      assert (metaclass_ends m [c]) as Hends.
      { apply metaclass_ends_Forall. by repeat constructor. }
      by rewrite (Hends c a s (list_elem_of_here _ _) Ha Hs Hn) in Hx.
    + by destruct (bases_items m c _ H) as [[? ?]|[[= ->] _]].
    + by destruct (bases_items m c _ H) as [[? ?]|[? _]].
Qed.

(** What [class_declaration] does, by the cases of [bases]. *)
Lemma class_declaration_cases m c :
  (plain_metaclass_end m c ∧ class_declaration m c = Raise AttributeError)
  ∨ (¬ plain_metaclass_end m c
     ∧ bases m c = Ok <$> yielded_bases m c
     ∧ class_declaration m c
       = if forallb (λ b, bool_decide (is_Some (Class.name (cls m b))))
              (yielded_bases m c)
         then Ok ("class " +:+ fmt (Class.name (cls m c)) +:+ "("
                  +:+ String.concat ", "
                        ((λ b, or_empty (Class.name (cls m b)))
                           <$> sorted (λ b, or_empty (Class.name (cls m b)))
                                 (yielded_bases m c))
                  +:+ "):")
         else Raise TypeError).
Proof.
  unfold class_declaration.
  destruct (mapM_id_failure (bases m c)) as [H|[(e & Hm & Hin)|[Hm Hin]]].
  - right. split_and!; [|done|].
    + intros Hfail%bases_fail. rewrite H in Hfail.
      by apply list_elem_of_fmap in Hfail as (? & ? & _).
    + rewrite H at 1. by rewrite mapM_id_Ok.
  - left. destruct (bases_items m c _ Hin) as [[? ?]|[[= ->] Hend]]; [done|].
    split; [done|]. by rewrite Hm.
  - by destruct (bases_items m c _ Hin) as [[? ?]|[? _]].
Qed.

(** X14. [class_declaration] raises the [AttributeError] of [bases]
    exactly when the class owns an end named [baseClass] of an
    association that is no extension; otherwise it raises a [TypeError]
    exactly when one of the bases of the class has no name; it raises
    nothing else. When it returns, the line lists, between the
    parentheses, the names of all the bases in ascending order. *)
Theorem class_declaration_sorted_bases (m : Model) (class_ : ClassId) :
  (class_declaration m class_ = Raise AttributeError ↔ plain_metaclass_end m class_)
  ∧ (class_declaration m class_ = Raise TypeError
     ↔ ¬ plain_metaclass_end m class_
       ∧ ∃ b, base_of m b class_ ∧ Class.name (cls m b) = None)
  ∧ (∀ e, class_declaration m class_ = Raise e → e = AttributeError ∨ e = TypeError)
  ∧ class_declaration m class_ ≠ OutOfFuel
  ∧ (∀ line, class_declaration m class_ = Ok line →
       ∃ names,
         line = "class " +:+ fmt (Class.name (cls m class_)) +:+ "("
                +:+ String.concat ", " names +:+ "):"
         ∧ names ≡ₚ (λ c, or_empty (Class.name (cls m c))) <$> yielded_bases m class_
         ∧ StronglySorted String.le names).
Proof.
  destruct (class_declaration_cases m class_) as [[Hfail ->]|(Hno & Hbases & ->)].
  { split_and!.
    - done.
    - split; [intros [=]|by intros [? _]].
    - intros e [= <-]. by left.
    - done.
    - intros line [=]. }
  rewrite all_named. case_bool_decide as Hall.
  - split_and!.
    + split; [intros [=]|done].
    + split; [intros [=]|]. intros (_ & b & Hb%elem_of_yielded_bases & Hnone).
      rewrite Forall_fmap, Forall_forall in Hall.
      specialize (Hall b Hb). simpl in Hall. rewrite Hnone in Hall.
      by destruct Hall.
    + intros e [=].
    + done.
    + intros line [= <-]. eexists. split; [done|]. apply sorted_names.
  - split_and!.
    + split; [intros [=]|done].
    + split; [|done]. intros _. split; [done|].
      apply not_Forall_Exists in Hall; [|apply _].
      apply Exists_exists in Hall as (n & Hn & Hnot).
      apply list_elem_of_fmap in Hn as (b & -> & Hb%elem_of_yielded_bases).
      exists b. split; [done|].
      destruct (Class.name (cls m b)); [|done]. destruct Hnot. eauto.
    + intros e [= <-]. by right.
    + done.
    + intros line [=].
Qed.

Example class_declaration_diamond :
  class_declaration diamond 3 = Ok "class Dependency(NamedElement, Relationship):"
  ∧ class_declaration diamond 4 = Ok "class Trace(Dependency):"
  ∧ class_declaration diamond 0 = Ok "class Element():"
  ∧ class_declaration plain_baseClass 0 = Raise AttributeError.
Proof. by vm_compute. Qed.

(** X15. The declaration of a class depends on the name of the class and
    on the names of its bases only, not on the order in which the bases
    are stored: two classes of the same name whose bases have the same
    names, in any order, get the same declaration, or both the same
    error. *)
Theorem class_declaration_ignores_order (m1 m2 : Model) (c1 c2 : ClassId) :
  Class.name (cls m1 c1) = Class.name (cls m2 c2) →
  base_names m1 c1 ≡ₚ base_names m2 c2 →
  class_declaration m1 c1 = class_declaration m2 c2.
Proof.
  intros Hname Hperm.
  assert (∀ m c, plain_metaclass_end m c ↔ Raise AttributeError ∈ base_names m c)
    as Hfails.
  { intros m c. rewrite <- bases_fail. unfold base_names. rewrite list_elem_of_fmap.
    split.
    - intros Hin. by exists (Raise AttributeError).
    - intros ([b|e|] & Heq & Hin); by simplify_eq/=. }
  assert (∀ m c, bases m c = Ok <$> yielded_bases m c →
                 base_names m c
                 = Ok <$> ((λ b, Class.name (cls m b)) <$> yielded_bases m c))
    as Hnames.
  { intros m c H. unfold base_names. rewrite H at 1.
    by rewrite <- !list_fmap_compose. }
  destruct (class_declaration_cases m1 c1) as [[Hf1 ->]|(Hno1 & Hb1 & ->)];
    destruct (class_declaration_cases m2 c2) as [[Hf2 ->]|(Hno2 & Hb2 & ->)];
    [done| | |].
  - exfalso. apply Hno2, Hfails. rewrite <- Hperm. by apply Hfails.
  - exfalso. apply Hno1, Hfails. rewrite Hperm. by apply Hfails.
  - assert ((λ b, Class.name (cls m1 b)) <$> yielded_bases m1 c1
            ≡ₚ (λ b, Class.name (cls m2 b)) <$> yielded_bases m2 c2) as Hp.
    { rewrite (Hnames _ _ Hb1), (Hnames _ _ Hb2) in Hperm.
      assert (∀ l : list (option string), yielded_items (Ok <$> l) = l) as Hy.
      { induction l as [|x l IH]; [done|].
        rewrite fmap_cons, yielded_items_cons. by f_equal. }
      rewrite <- (Hy (_ <$> yielded_bases m1 c1)), <- (Hy (_ <$> yielded_bases m2 c2)).
      unfold yielded_items. by rewrite Hperm. }
    rewrite !all_named.
    rewrite (bool_decide_ext _
               (Forall is_Some ((λ b, Class.name (cls m2 b)) <$> yielded_bases m2 c2)))
      by (by rewrite Hp).
    case_bool_decide; [|done]. rewrite Hname.
    destruct (sorted_names m1 (yielded_bases m1 c1)) as [Hp1 Hs1].
    destruct (sorted_names m2 (yielded_bases m2 c2)) as [Hp2 Hs2].
    cbv zeta in Hp1, Hs1, Hp2, Hs2.
    assert ((λ c, or_empty (Class.name (cls m1 c)))
              <$> sorted (λ c, or_empty (Class.name (cls m1 c))) (yielded_bases m1 c1)
            = (λ c, or_empty (Class.name (cls m2 c)))
                <$> sorted (λ c, or_empty (Class.name (cls m2 c)))
                      (yielded_bases m2 c2)) as ->;
      [|done].
    apply (StronglySorted_unique String.le); [done..|].
    rewrite Hp1, Hp2.
    trans (or_empty <$> ((λ b, Class.name (cls m1 b)) <$> yielded_bases m1 c1));
      [by rewrite <- list_fmap_compose|].
    rewrite Hp. by rewrite <- list_fmap_compose.
Qed.

Lemma class_declaration_ignores_order_witness :
  class_declaration swapped_bases 2 = class_declaration swapped_bases 3.
Proof.
  apply (class_declaration_ignores_order swapped_bases swapped_bases 2 3).
  - reflexivity.
  - vm_compute. apply Permutation_swap.
Defined.

(** ** Attributes that cannot be written *)




Lemma variables_attribute_untyped fuel m overrides class_ a :
  is_extension_end a = false →
  overridden overrides
    (Some (full_name (Class.name (cls m class_)) (Property.name a))) = None →
  Property.isDerived a = false →
  truthy (Property.typeValue a) = false →
  Property.type a = None →
  variables_attribute fuel m overrides class_ a
  = raise (ValueError "can not be written").
Proof.
  intros Hext Hov Hder Htv Hty. unfold variables_attribute.
  by rewrite Hext, Hov, Hder, Htv, Hty.
Qed.

(** X17. The coder cannot write an attribute that is not derived and
    has neither a type value nor a type: if a class that the coder writes
    itself (no override for it, not found in a supermodel) owns such an
    attribute, which is no extension end and has no override, the coder
    does not end normally. *)
Theorem untyped_attribute_stops_the_coder (fuel : nat) (m : Model)
    (super_models : list (string * Model)) (overrides : option Overrides.t)
    (classes : list ClassId) (c : ClassId) (a : PropId) (out : list string) :
  coder_classes fuel m = Ok classes → c ∈ classes →
  overridden overrides (Class.name (cls m c)) = None →
  in_super_model (Class.name (cls m c)) super_models = Ok None →
  a ∈ Class.ownedAttribute (cls m c) →
  is_extension_end (prop m a) = false →
  overridden overrides
    (Some (full_name (Class.name (cls m c)) (Property.name (prop m a)))) = None →
  Property.isDerived (prop m a) = false →
  truthy (Property.typeValue (prop m a)) = false →
  Property.type (prop m a) = None →
  coder fuel m super_models overrides ≠ gen out (Ok ()).
Proof.
  intros Hclasses Hc Hov Hsuper Ha Hext Hova Hder Htv Hty Hcoder.
  destruct (coder_Ok_inv _ _ _ _ _ _ Hclasses Hcoder)
    as (pre & blocks & ops & assocs & imported & imported' & _ & Hblocks & _).
  destruct (for_each_with_Ok _ _ _ _ _ c Hblocks Hc)
    as (s1 & s2 & o & _ & _ & Hblock & _).
  unfold class_block in Hblock. rewrite Hov, Hsuper in Hblock.
  apply bind_Ok_inv in Hblock as (o0 & found & o1 & [= <- <-] & Hblock & _).
  apply bind_Ok_inv in Hblock as (o2 & declaration & o3 & _ & Hblock & _).
  apply bind_Ok_inv in Hblock as (o4 & [] & o5 & _ & Hblock & _).
  apply bind_Ok_inv in Hblock as (o6 & properties & o7 & Hvars & _).
  injection Hvars as _ Hvars. apply to_list_Ok in Hvars.
  unfold variables in Hvars.
  apply bind_Ok_inv in Hvars as (o8 & [] & o9 & Hattrs & _).
  assert (a ∈ sorted (λ a, or_empty (Property.name (prop m a)))
                (Class.ownedAttribute (cls m c))) as Hin by (by apply elem_of_sorted).
  destruct (for_each_Ok _ _ _ _ a Hattrs Hin) as (oa & _ & _ & Hfail & _).
  by rewrite (variables_attribute_untyped fuel m overrides c (prop m a)) in Hfail.
Qed.

Lemma untyped_attribute_stops_the_coder_witness :
  coder 1 untyped [] None ≠ gen [] (Ok ()).
Proof.
  apply (untyped_attribute_stops_the_coder 1 untyped [] None [0] 0 0 []);
    try reflexivity.
  apply list_elem_of_here.
  apply list_elem_of_here.
Defined.

(** Resolution accepts the attribute of [untyped], and the coder stops
    at it, after the declaration of the class. *)
Example coder_untyped :
  (∃ m', resolve_attribute_type_values 1 untyped = Ok m')
  ∧ coder 1 untyped [] None
    = gen [header; "class Foo():"] (Raise (ValueError "can not be written")).
Proof. split; [eexists|]; by vm_compute. Qed.

(** ** Failures of [subsets] *)





Example strip_white_space :
  strip "  ownedElement	 " = "ownedElement"
  ∧ strip (String (ascii_of_nat 194) (String (ascii_of_nat 160)
             ("part " +:+ String (ascii_of_nat 226) (String (ascii_of_nat 128)
                (String (ascii_of_nat 137) "")))))
    = "part"
  ∧ strip "a b" = "a b".
Proof. by vm_compute. Qed.

Example subsets_from_supermodel :
  subsets 3 using_supermodel [("gaphor.UML.uml", uml_factory)] 1
  = gen ["from gaphor.UML.uml import Element";
         "Element.ownedElement.add(Block.part)  # type: ignore[attr-defined]"]
      (Ok ()).
Proof. by vm_compute. Qed.


(** ** Operations *)

Lemma yielded_bind {A B} (g : Gen A) (f : A → Gen B) :
  yielded (g ≫= f)
  = yielded g ++ match ended g with
                 | Ok a => yielded (f a)
                 | _ => []
                 end.
Proof.
  unfold mbind, gen_bind. destruct (ended g); simpl; by rewrite ?app_nil_r.
Qed.

(** X19. [operations] never fails. It writes the override of every
    operation of the class that has one, and nothing else; without
    overrides it writes nothing. *)
Theorem operations_are_overrides (m : Model) (overrides : option Overrides.t)
    (c : ClassId) :
  ended (operations m overrides c) = Ok ()
  ∧ (∀ line,
       line ∈ yielded (operations m overrides c)
       ↔ ∃ o ov,
           o ∈ Class.ownedOperation (cls m c)
           ∧ overridden overrides
               (Some (full_name (Class.name (cls m c)) (Operation.name o))) = Some ov
           ∧ line = Overrides.get_override ov
                      (Some (full_name (Class.name (cls m c)) (Operation.name o))))
  ∧ operations m None c = pass.
Proof.
  unfold operations.
  set (body := λ o : Operation.t, _).
  assert (∀ l, ended (for_each body l) = Ok ()
               ∧ ∀ line, line ∈ yielded (for_each body l)
                         ↔ ∃ o, o ∈ l ∧ line ∈ yielded (body o)) as Hloop.
  { induction l as [|o l [IHe IHy]]; simpl.
    - split; [done|]. intros line. split; [by intros ?%not_elem_of_nil|].
      by intros (o & ?%not_elem_of_nil & _).
    - assert (ended (body o) = Ok ()) as Ho.
      { unfold body. by destruct (overridden overrides _). }
      split.
      + unfold mbind, gen_bind. by rewrite Ho.
      + intros line. rewrite yielded_bind, Ho, elem_of_app, IHy. split.
        * intros [?|(o' & ? & ?)]; [exists o|exists o'];
            (split; [|done]); [apply list_elem_of_here|by apply list_elem_of_further].
        * intros (o' & [->|?]%elem_of_cons & ?); [by left|right; by exists o']. }
  destruct (Hloop (sorted (λ o, or_empty (Operation.name o))
                     (Class.ownedOperation (cls m c)))) as [He Hy].
  split_and!; [done| |].
  - intros line. rewrite Hy. split.
    + intros (o & Ho%elem_of_sorted & Hline). exists o. unfold body in Hline.
      destruct (overridden overrides _) as [ov|] eqn:E.
      * exists ov. split_and!; try done. by apply list_elem_of_singleton in Hline.
      * by apply not_elem_of_nil in Hline.
    + intros (o & ov & Ho & Hov & ->). exists o. split; [by apply elem_of_sorted|].
      unfold body. rewrite Hov. apply list_elem_of_here.
  - by apply for_each_pass.
Qed.

(** ** The first line *)

(** X20. The coder computes the classes to write before it writes
    anything: when that computation fails, nothing is written, not even
    the header; otherwise the first thing written is the header. *)
Theorem coder_starts_with_header (fuel : nat) (m : Model)
    (super_models : list (string * Model)) (overrides : option Overrides.t) :
  (∀ classes, coder_classes fuel m = Ok classes →
     ∃ rest, yielded (coder fuel m super_models overrides) = header :: rest)
  ∧ (∀ e, coder_classes fuel m = Raise e →
       coder fuel m super_models overrides = gen [] (Raise e)).
Proof.
  unfold coder. split.
  - intros classes ->. rewrite yielded_bind. cbn [lift yielded ended app].
    rewrite yielded_bind. cbn [yield yielded ended]. by eexists.
  - intros e ->. done.
Qed.
